(** * ConMan server core: object buffers, object graph and configuration parser

    A shallow embedding of [server-obj.c] and [server-conf.c].

    - Pointers to objects are addresses ([ptr]); [NULL] is [None].
    - An object's [buf] is a list of bytes; [bufInPtr] and [bufOutPtr] are
      kept as offsets from [buf] (the C code only ever compares them with
      each other, with [buf] and with [&buf[MAX_BUF_SIZE]]).
    - [MAX_BUF_SIZE] ([server.h]) is a parameter of the development.
    - A failed [assert] and [err_msg] (which exits the process) end a
      computation with [Abort]; a dereference of [NULL] or of a freed object
      ends it with [Fault].
    - [malloc], [pthread_mutex_*] and [close(2)] are taken to succeed.
    - An [int] is 32 bits wide and a [long] 64: a number read by [atoi] is
      brought into the range of [int] as the C library does.  The other
      integers of the code (offsets within a buffer, lengths of strings,
      descriptors) are modelled without a bound.
    - What the system answers is an input of the routine that asks: the
      results of [write(2)] are in the world, those of [read(2)], [open(2)],
      [time(2)], [kill(2)] and [getopt] are arguments.
    - The [aux] part of an object (the device of a console, [gotIAC] and
      [timeLastRead] of a socket) is written by the routines of
      [server-obj.c] and, apart from being freed, read by none of them; it
      is not kept. *)

From Stdlib Require Import ZArith String Ascii DecimalString Lia.
From stdpp Require Import gmap strings list.

Open Scope Z_scope.

(** * The embedding *)

(** ** Outcomes of a computation *)

Inductive outcome (A : Type) : Type :=
| Ok (a : A)
| Abort (msg : string)
| Fault
| OutOfFuel.

Arguments Ok {A} a.
Arguments Abort {A} msg.
Arguments Fault {A}.
Arguments OutOfFuel {A}.

Definition obind {A B : Type} (m : outcome A) (k : A -> outcome B) : outcome B :=
  match m with
  | Ok a => k a
  | Abort msg => Abort msg
  | Fault => Fault
  | OutOfFuel => OutOfFuel
  end.

(** [assert(c)] of <assert.h>. *)
Definition assert (c : bool) (what : string) : outcome unit :=
  if c then Ok tt else Abort what.

(** ** Objects *)

Definition ptr := positive.

Inductive obj_type := CONSOLE | LOGFILE | SOCKET.

Definition obj_type_eqb (a b : obj_type) : bool :=
  match a, b with
  | CONSOLE, CONSOLE | LOGFILE, LOGFILE | SOCKET, SOCKET => true
  | _, _ => false
  end.

Record obj_t := mk_obj {
  name : string;
  fd : Z;
  gotEOF : bool;
  buf : list ascii;
  bufInPtr : Z;
  bufOutPtr : Z;
  writer : option ptr;
  readers : list ptr;
  type : obj_type
}.

Definition set_fd (v : Z) (o : obj_t) : obj_t :=
  mk_obj (name o) v (gotEOF o) (buf o) (bufInPtr o) (bufOutPtr o)
         (writer o) (readers o) (type o).
Definition set_gotEOF (v : bool) (o : obj_t) : obj_t :=
  mk_obj (name o) (fd o) v (buf o) (bufInPtr o) (bufOutPtr o)
         (writer o) (readers o) (type o).
Definition set_buf (v : list ascii) (o : obj_t) : obj_t :=
  mk_obj (name o) (fd o) (gotEOF o) v (bufInPtr o) (bufOutPtr o)
         (writer o) (readers o) (type o).
Definition set_bufInPtr (v : Z) (o : obj_t) : obj_t :=
  mk_obj (name o) (fd o) (gotEOF o) (buf o) v (bufOutPtr o)
         (writer o) (readers o) (type o).
Definition set_bufOutPtr (v : Z) (o : obj_t) : obj_t :=
  mk_obj (name o) (fd o) (gotEOF o) (buf o) (bufInPtr o) v
         (writer o) (readers o) (type o).
Definition set_writer (v : option ptr) (o : obj_t) : obj_t :=
  mk_obj (name o) (fd o) (gotEOF o) (buf o) (bufInPtr o) (bufOutPtr o)
         v (readers o) (type o).
Definition set_readers (v : list ptr) (o : obj_t) : obj_t :=
  mk_obj (name o) (fd o) (gotEOF o) (buf o) (bufInPtr o) (bufOutPtr o)
         (writer o) v (type o).

(** What a routine working on one object does besides changing it. *)
Inductive obj_event :=
| MutexLock                               (* pthread_mutex_lock(&obj->bufLock) *)
| MutexUnlock                             (* pthread_mutex_unlock(&obj->bufLock) *)
| LogMsg (level : Z) (msg : string)       (* log_msg(level, ...) *)
| SysWrite (d : Z) (off : Z) (count : Z). (* write(d, &buf[off], count) *)

(** [%d] of the printf family. *)
Definition fmt_d (z : Z) : string := NilZero.string_of_int (Z.to_int z).

Definition nl : string := String "010"%char EmptyString.

(** [memcpy(&dst[off], src, n)]: the [n] first bytes of [src] replace
    [dst[off .. off+n)].  The caller keeps [off + n] within [dst] and [n]
    within [src]. *)
Definition memcpy (dst : list ascii) (off : Z) (src : list ascii) (n : Z)
  : list ascii :=
  take (Z.to_nat off) dst ++ take (Z.to_nat n) src ++ drop (Z.to_nat (off + n)) dst.

(** The result of a [read(2)] or [write(2)]: the returned count, and [errno]
    when the count is negative. *)
Inductive errno_t := EINTR | EPIPE | EAGAIN | EWOULDBLOCK | EOTHER (code : Z).

Record sys_ret := mk_ret { ret_n : Z; ret_errno : errno_t }.

(** [write(2)] never reports more bytes than it was asked to write. *)
Definition posix_write (count : Z) (r : sys_ret) : Prop := ret_n r <= count.

Section Buffer.

Variable MAX_BUF_SIZE : Z.

(** [create_obj]: a fresh object of the given name and type.  [buf] is not
    initialised by the C code; its initial contents are the argument
    [raw]. *)
Definition create_obj (raw : list ascii) (nm : string) (ty : obj_type) : obj_t :=
  mk_obj nm (-1) false raw 0 0 None [] ty.

(** The four bound assertions made under the buffer lock. *)
Definition assert_bounds (obj : obj_t) : outcome unit :=
  obind (assert (0 <=? bufInPtr obj) "obj->bufInPtr >= obj->buf") (fun _ =>
  obind (assert (bufInPtr obj <? MAX_BUF_SIZE) "obj->bufInPtr < &obj->buf[MAX_BUF_SIZE]") (fun _ =>
  obind (assert (0 <=? bufOutPtr obj) "obj->bufOutPtr >= obj->buf") (fun _ =>
         assert (bufOutPtr obj <? MAX_BUF_SIZE) "obj->bufOutPtr < &obj->buf[MAX_BUF_SIZE]"))).

(** [write_obj_data(obj, src, len)]: returns the object after the call, the
    returned count and what was logged.  [src] is [None] for a null
    pointer. *)
Definition write_obj_data (obj : obj_t) (src : option (list ascii)) (len : Z)
  : outcome (obj_t * Z * list obj_event) :=
  match src with
  | None => Ok (obj, 0, [])
  | Some src =>
    if len <=? 0 then Ok (obj, 0, []) else
    let len := if len >=? MAX_BUF_SIZE then MAX_BUF_SIZE - 1 else len in
    obind (assert_bounds obj) (fun _ =>
    let n := len in
    let avail :=
      if bufOutPtr obj =? bufInPtr obj then MAX_BUF_SIZE - 1
      else if bufOutPtr obj >? bufInPtr obj then bufOutPtr obj - bufInPtr obj
      else (MAX_BUF_SIZE - bufInPtr obj) + bufOutPtr obj in
    (* first chunk, up to the end of the buffer *)
    let m := Z.min len (MAX_BUF_SIZE - bufInPtr obj) in
    let '(obj, src, n) :=
      if m >? 0 then
        let obj := set_buf (memcpy (buf obj) (bufInPtr obj) src m) obj in
        let obj := set_bufInPtr (bufInPtr obj + m) obj in
        let obj := if bufInPtr obj =? MAX_BUF_SIZE then set_bufInPtr 0 obj else obj in
        (obj, drop (Z.to_nat m) src, n - m)
      else (obj, src, n) in
    (* second chunk, from the beginning of the buffer *)
    let obj :=
      if n >? 0 then
        let obj := set_buf (memcpy (buf obj) (bufInPtr obj) src n) obj in
        set_bufInPtr (bufInPtr obj + n) obj
      else obj in
    (* was anything overwritten? *)
    let '(obj, logged) :=
      if len >? avail then
        let obj := set_bufOutPtr (bufInPtr obj + 1) obj in
        let obj := if bufOutPtr obj =? MAX_BUF_SIZE then set_bufOutPtr 0 obj else obj in
        (obj, [LogMsg 10 ("[" ++ name obj ++ "] overwrote " ++ fmt_d (len - avail) ++ " bytes")%string])
      else (obj, []) in
    obind (assert_bounds obj) (fun _ =>
    Ok (obj, len, [MutexLock] ++ logged ++ [MutexUnlock])))
  end.

(** The locked region of [write_to_obj]: [rets] are the results of the
    successive [write(2)] calls, in order.  [EINTR] makes the code issue the
    same call again, so the region only ends once the system answers
    otherwise; it is [OutOfFuel] when [rets] ends before that. *)
Fixpoint write_again (rets : list sys_ret) (obj : obj_t) (avail : Z)
  : outcome (obj_t * list obj_event * list sys_ret) :=
  match rets with
  | [] => OutOfFuel
  | r :: rets =>
    let ev := SysWrite (fd obj) (bufOutPtr obj) avail in
    let n := ret_n r in
    if n <? 0 then
      match ret_errno r with
      | EINTR =>
        obind (write_again rets obj avail) (fun '(obj, evs, rets) =>
        Ok (obj, ev :: evs, rets))
      | EPIPE =>
        let obj := set_gotEOF true obj in
        let obj := set_bufOutPtr 0 obj in
        let obj := set_bufInPtr (bufOutPtr obj) obj in   (* flush buf! *)
        Ok (obj, [ev], rets)
      | EAGAIN | EWOULDBLOCK => Ok (obj, [ev], rets)
      | EOTHER _ => Abort "write error"
      end
    else if n >? 0 then
      let obj := set_bufOutPtr (bufOutPtr obj + n) obj in
      let obj := if bufOutPtr obj =? MAX_BUF_SIZE then set_bufOutPtr 0 obj else obj in
      Ok (obj, [ev], rets)
    else Ok (obj, [ev], rets)
  end.

(** The contiguous run [write_to_obj] offers to [write(2)]. *)
Definition write_avail (obj : obj_t) : Z :=
  if bufInPtr obj >=? bufOutPtr obj then bufInPtr obj - bufOutPtr obj
  else MAX_BUF_SIZE - bufOutPtr obj.

Definition write_to_obj_locked (rets : list sys_ret) (obj : obj_t)
  : outcome (obj_t * list obj_event * list sys_ret) :=
  obind (assert_bounds obj) (fun _ =>
  let avail := write_avail obj in
  obind (if avail >? 0 then write_again rets obj avail else Ok (obj, [], rets))
    (fun '(obj, evs, rets) =>
  obind (assert (0 <=? bufOutPtr obj) "obj->bufOutPtr >= obj->buf") (fun _ =>
  obind (assert (bufOutPtr obj <? MAX_BUF_SIZE) "obj->bufOutPtr < &obj->buf[MAX_BUF_SIZE]") (fun _ =>
  Ok (obj, [MutexLock] ++ evs ++ [MutexUnlock], rets))))).

(** ** Reading the buffer *)

(** Number of bytes held: the distance from [bufOutPtr] to [bufInPtr] going
    round the buffer. *)
Definition buf_used (obj : obj_t) : Z :=
  if bufInPtr obj >=? bufOutPtr obj then bufInPtr obj - bufOutPtr obj
  else MAX_BUF_SIZE - bufOutPtr obj + bufInPtr obj.

(** The bytes a consumer gets by repeated [write_to_obj] with no producer in
    between: from [bufOutPtr] up to [bufInPtr], wrapping at the end. *)
Definition buf_content (obj : obj_t) : list ascii :=
  let i := Z.to_nat (bufInPtr obj) in
  let o := Z.to_nat (bufOutPtr obj) in
  if bufInPtr obj >=? bufOutPtr obj then take (i - o) (drop o (buf obj))
  else take (Z.to_nat MAX_BUF_SIZE - o) (drop o (buf obj)) ++ take i (buf obj).

(** The last [k] bytes of [l] (all of [l] when it has no more). *)
Definition last_bytes (k : Z) (l : list ascii) : list ascii :=
  drop (length l - Z.to_nat k) l.

Definition buf_inv (obj : obj_t) : Prop :=
  0 <= bufInPtr obj < MAX_BUF_SIZE /\ 0 <= bufOutPtr obj < MAX_BUF_SIZE.

(** The states an object's buffer goes through: it is created empty, the
    producer [write_obj_data] and the consumer [write_to_obj] work on it, and
    every other routine leaves both indices as they are. *)
Inductive reachable : obj_t -> Prop :=
| reach_create raw nm ty :
    reachable (create_obj raw nm ty)
| reach_write_obj_data obj src len obj' n evs :
    reachable obj ->
    write_obj_data obj src len = Ok (obj', n, evs) ->
    reachable obj'
| reach_write_to_obj obj rets obj' evs rets' :
    reachable obj ->
    write_to_obj_locked rets obj = Ok (obj', evs, rets') ->
    reachable obj'
| reach_other obj obj' :
    reachable obj ->
    bufInPtr obj' = bufInPtr obj -> bufOutPtr obj' = bufOutPtr obj ->
    reachable obj'.

End Buffer.

(** ** The object graph *)

(** What the routines do, in order: calls of the routines of this file and
    system calls. *)
Inductive event :=
| EvObj (p : ptr) (e : obj_event)                 (* done on the buffer of [p] *)
| EvWriteObjData (p : ptr) (src : option (list ascii)) (len : Z)
                                                  (* write_obj_data(p, src, len) *)
| EvCloseObj (p : ptr)                            (* close_obj(p) *)
| EvOpenObj (p : ptr)                             (* open_obj(p) *)
| EvDestroyObj (p : ptr) (o : obj_t)              (* destroy_obj(p), entered with o at p *)
| EvSysClose (d : Z)                              (* close(d) *)
| EvSysOpen (path : string).                      (* open(path, ...) *)

Record world := mk_world {
  heap : gmap ptr obj_t;      (* the live objects *)
  trace : list event;         (* what happened so far, oldest first *)
  writes : list sys_ret       (* the results of the write(2) calls to come *)
}.

Definition set_heap (h : gmap ptr obj_t) (w : world) : world :=
  mk_world h (trace w) (writes w).
Definition set_writes (r : list sys_ret) (w : world) : world :=
  mk_world (heap w) (trace w) r.
Definition add_trace (evs : list event) (w : world) : world :=
  mk_world (heap w) (trace w ++ evs) (writes w).

(** A routine takes the world to a new world and either returns or stops
    there. *)
Definition M (A : Type) : Type := world -> world * outcome A.

Definition ret {A : Type} (a : A) : M A := fun w => (w, Ok a).

Definition bind {A B : Type} (m : M A) (k : A -> M B) : M B :=
  fun w =>
    match m w with
    | (w', Ok a) => k a w'
    | (w', Abort msg) => (w', Abort msg)
    | (w', Fault) => (w', Fault)
    | (w', OutOfFuel) => (w', OutOfFuel)
    end.

Notation "x <- m ;; k" := (bind m (fun x => k))
  (at level 100, m at next level, right associativity).
Notation "m ;; k" := (bind m (fun _ => k))
  (at level 100, right associativity).

Definition lift {A : Type} (r : outcome A) : M A := fun w => (w, r).

Definition emit (evs : list event) : M unit := fun w => (add_trace evs w, Ok tt).

(** Reading the object at [p]; [NULL] and freed objects fault. *)
Definition deref (p : ptr) : M obj_t :=
  fun w => match heap w !! p with
           | Some o => (w, Ok o)
           | None => (w, Fault)
           end.

Definition deref_opt (p : option ptr) : M obj_t :=
  match p with
  | Some p => deref p
  | None => lift Fault
  end.

(** The object at [p] becomes [f] of what it was. *)
Definition store (p : ptr) (f : obj_t -> obj_t) : M unit :=
  fun w => match heap w !! p with
           | Some o => (set_heap (<[p := f o]> (heap w)) w, Ok tt)
           | None => (w, Fault)
           end.

(** [free(p)]. *)
Definition free (p : ptr) : M unit :=
  fun w => match heap w !! p with
           | Some o => (set_heap (delete p (heap w)) w, Ok tt)
           | None => (w, Fault)
           end.

(** The list operations of [list.h] the routines use.
    Modelled from the spec: list.c is absent; [list_pop] takes the first
    item off the list ([NULL] when there is none), and [list_next] followed
    by [list_delete] on the first item equal to [x] removes that item. *)
Definition list_pop (l : list ptr) : option ptr * list ptr := (head l, tail l).

Fixpoint list_delete_first (x : ptr) (l : list ptr) : option (list ptr) :=
  match l with
  | [] => None
  | y :: l' =>
    if Pos.eqb y x then Some l'
    else option_map (cons y) (list_delete_first x l')
  end.

Definition list_is_empty (l : list ptr) : bool :=
  match l with [] => true | _ => false end.

Definition opt_ptr_eqb (a b : option ptr) : bool :=
  match a, b with
  | None, None => true
  | Some x, Some y => Pos.eqb x y
  | _, _ => false
  end.

Definition strlen (s : string) : Z := Z.of_nat (String.length s).

Section Graph.

Variable MAX_BUF_SIZE : Z.

(** The indeterminate value of the local [reader] of [close_obj], which is
    read before it is assigned when the object has no writer. *)
Variable junk : option ptr.

(** [create_time_string(0)]. *)
Variable now : string.

(** The descriptor (or -1) [open(2)] gives for a path. *)
Variable sys_open : string -> Z.

Definition write_obj_data_at (obj : ptr) (src : option (list ascii)) (len : Z) : M Z :=
  emit [EvWriteObjData obj src len] ;;
  o <- deref obj ;;
  r <- lift (write_obj_data MAX_BUF_SIZE o src len) ;;
  store obj (fun _ => fst (fst r)) ;;
  emit (map (EvObj obj) (snd r)) ;;
  ret (snd (fst r)).

Definition destroy_obj (obj : ptr) : M unit :=
  o <- deref obj ;;
  emit [EvDestroyObj obj o] ;;
  lift (assert (bufInPtr o =? bufOutPtr o) "obj->bufInPtr == obj->bufOutPtr") ;;
  (if fd o >=? 0 then emit [EvSysClose (fd o)] ;; store obj (set_fd (-1)) else ret tt) ;;
  free obj.

Definition open_obj (obj : ptr) : M Z :=
  emit [EvOpenObj obj] ;;
  o <- deref obj ;;
  lift (assert (fd o <? 0) "obj->fd < 0") ;;
  if fd o >=? 0 then ret 0
  else
    match type o with
    | CONSOLE => ret 0     (* NOT_IMPLEMENTED_YET *)
    | LOGFILE =>
      wo <- deref_opt (writer o) ;;
      lift (assert (obj_type_eqb (type wo) CONSOLE) "obj->writer->type == CONSOLE") ;;
      emit [EvSysOpen (name o)] ;;
      store obj (set_fd (sys_open (name o))) ;;
      if sys_open (name o) <? 0 then ret (-1)
      else
        wo <- deref_opt (writer o) ;;
        let str := ("* Console [" ++ name wo ++ "] log started on " ++ now ++ "."
                    ++ nl ++ nl)%string in
        write_obj_data_at obj (Some (list_ascii_of_string str)) (strlen str) ;;
        ret 0
    | SOCKET => ret 0
    end.

(** The last step of [close_obj]: flag a buffer that still holds data, or
    release the descriptor and, for a socket, the object. *)
Definition close_obj_teardown (obj : ptr) : M unit :=
  o <- deref obj ;;
  if negb (bufInPtr o =? bufOutPtr o) then store obj (set_gotEOF true)
  else
    store obj (set_gotEOF false) ;;
    (if fd o >=? 0 then emit [EvSysClose (fd o)] ;; store obj (set_fd (-1)) else ret tt) ;;
    match type o with
    | SOCKET => destroy_obj obj
    | _ => ret tt
    end.

(** The object [close_obj] leaves behind when the buffer is empty. *)
Definition torn_down (o : obj_t) : obj_t :=
  let o := set_gotEOF false o in
  if fd o >=? 0 then set_fd (-1) o else o.

(** The loop [while ((reader == list_pop(obj->readers))) { ... }] of
    [close_obj], as written: every turn pops an item and compares it with
    [reader]. *)
Fixpoint close_obj_readers (close_rec : ptr -> M unit) (fuel : nat)
    (reader : option ptr) (obj : ptr) : M unit :=
  match fuel with
  | O => lift OutOfFuel
  | S fuel =>
    o <- deref obj ;;
    store obj (set_readers (snd (list_pop (readers o)))) ;;
    if opt_ptr_eqb reader (fst (list_pop (readers o))) then
      r <- deref_opt reader ;;
      (if opt_ptr_eqb (writer r) (Some obj) then
         match reader with
         | Some rp =>
           store rp (set_writer None) ;;
           r <- deref rp ;;
           if list_is_empty (readers r) then close_rec rp else ret tt
         | None => lift Fault
         end
       else ret tt) ;;
      close_obj_readers close_rec fuel reader obj
    else ret tt
  end.

(** The first two steps of [close_obj]: the link with the writer, then the
    links with the readers.  [close_rec] stands for the recursive calls. *)
Definition close_obj_links (close_rec : ptr -> M unit) (fuel : nat) (obj : ptr)
  : M unit :=
  emit [EvCloseObj obj] ;;
  o <- deref obj ;;
  (* Remove object link between my writer and me. *)
  reader <-
    match writer o with
    | None => ret junk
    | Some w =>
      wo <- deref w ;;
      match list_delete_first obj (readers wo) with
      | Some rest =>
        store w (set_readers rest) ;;
        wo <- deref w ;;
        (if opt_ptr_eqb (writer wo) None && list_is_empty (readers wo)
         then close_rec w else ret tt) ;;
        store obj (set_writer None) ;;
        ret (Some obj)
      | None => ret None
      end
    end ;;
  (* Remove object link between each of my readers and me. *)
  close_obj_readers close_rec fuel reader obj.

Fixpoint close_obj (fuel : nat) (obj : ptr) : M unit :=
  match fuel with
  | O => lift OutOfFuel
  | S fuel =>
    close_obj_links (close_obj fuel) fuel obj ;;
    close_obj_teardown obj
  end.

Definition stolen_notice (dst_name src_name : string) : string :=
  (nl ++ "Console '" ++ dst_name ++ "' stolen by <" ++ src_name ++ "> at " ++ now
   ++ "." ++ nl)%string.

Definition create_obj_link (fuel : nat) (src dst : ptr) : M unit :=
  d <- deref dst ;;
  match writer d with
  | Some w =>
    s <- deref src ;;
    lift (assert (obj_type_eqb (type s) SOCKET) "src->type == SOCKET") ;;
    lift (assert (obj_type_eqb (type d) CONSOLE) "dst->type == CONSOLE") ;;
    wo <- deref w ;;
    lift (assert (obj_type_eqb (type wo) SOCKET) "dst->writer->type == SOCKET") ;;
    let str := stolen_notice (name d) (name s) in
    write_obj_data_at w (Some (list_ascii_of_string str)) (strlen str) ;;
    close_obj fuel w
  | None => ret tt
  end ;;
  (* Create obj link where src writes to dst. *)
  store dst (set_writer (Some src)) ;;
  s <- deref src ;;
  store src (set_readers (readers s ++ [dst])) ;;
  (* Ensure both objs are "active". *)
  s <- deref src ;;
  (if fd s <? 0 then open_obj src ;; ret tt else ret tt) ;;
  d <- deref dst ;;
  (if fd d <? 0 then open_obj dst ;; ret tt else ret tt).

Definition write_to_obj (fuel : nat) (obj : ptr) : M unit :=
  o <- deref obj ;;
  lift (assert (fd o >=? 0) "obj->fd >= 0") ;;
  if fd o <? 0 then ret tt
  else
    r <- (fun w => (w, write_to_obj_locked MAX_BUF_SIZE (writes w) o)) ;;
    (fun w => (set_writes (snd r) w, Ok tt)) ;;
    store obj (fun _ => fst (fst r)) ;;
    emit (map (EvObj obj) (snd (fst r))) ;;
    o <- deref obj ;;
    if gotEOF o && (bufInPtr o =? bufOutPtr o) then close_obj fuel obj else ret tt.

End Graph.

(** ** Reading from an object *)

(** What a [read(2)] gives: its result, and the bytes found in the buffer
    it was given. *)
Record read_ret := mk_read { rd_ret : sys_ret; rd_data : list ascii }.

Section Reading.

Variable MAX_BUF_SIZE : Z.
Variable junk : option ptr.

(** What [time(2)] gives. *)
Variable sys_time : Z.

(** [parse_buf_for_control(obj, src, pLen)]: the length it leaves in
    [pLen]. *)
Definition parse_buf_for_control (src : option (list ascii)) (len : Z) : Z :=
  match src with
  | None => len
  | Some _ => if len <=? 0 then len else len     (* NOT_IMPLEMENTED_YET *)
  end.

(** [while ((reader = list_next(i))) if (!reader->gotEOF)
    write_obj_data(reader, buf, n);] *)
Fixpoint read_from_obj_readers (rs : list ptr) (buf : list ascii) (n : Z)
  : M unit :=
  match rs with
  | [] => ret tt
  | reader :: rs =>
    r <- deref reader ;;
    (if negb (gotEOF r)
     then write_obj_data_at MAX_BUF_SIZE reader (Some buf) n ;; ret tt
     else ret tt) ;;
    read_from_obj_readers rs buf n
  end.

(** [read_from_obj] from its label [again]: [reads] are the results of the
    successive [read(2)] calls.  The socket's [timeLastRead] is written here
    and read nowhere in the file; it is not kept. *)
Fixpoint read_again (fuel : nat) (reads : list read_ret) (obj : ptr) : M unit :=
  match reads with
  | [] => lift OutOfFuel
  | r :: reads =>
    let n := ret_n (rd_ret r) in
    if n <? 0 then
      match ret_errno (rd_ret r) with
      | EINTR => read_again fuel reads obj
      | EAGAIN | EWOULDBLOCK => ret tt
      | _ => lift (Abort "read error")
      end
    else if n =? 0 then close_obj junk fuel obj
    else
      o <- deref obj ;;
      n <- (if obj_type_eqb (type o) SOCKET then
              if sys_time =? -1
              then lift (Abort "time() failed -- What time is it?")
              else ret (parse_buf_for_control (Some (rd_data r)) n)
            else ret n) ;;
      o <- deref obj ;;
      read_from_obj_readers (readers o) (rd_data r) n
  end.

Definition read_from_obj (fuel : nat) (reads : list read_ret) (obj : ptr)
  : M unit :=
  o <- deref obj ;;
  lift (assert (fd o >=? 0) "obj->fd >= 0") ;;
  if fd o <? 0 then ret tt
  else read_again fuel reads obj.

End Reading.

(** ** Making objects *)

Section Creation.

(** The address [malloc] gives, which holds no object, and the bytes found
    in the [buf] of the new object. *)
Variable fresh : ptr.
Variable raw : list ascii.

(** What [time(2)] gives. *)
Variable sys_time : Z.

Definition is_null {A : Type} (p : option A) : bool :=
  match p with None => true | Some _ => false end.

(** The static [create_obj(name, type)], leaving the object at [fresh]. *)
Definition create_obj_at (nm : option string) (ty : obj_type) : M ptr :=
  lift (assert (negb (is_null nm)) "name") ;;
  (fun w => (set_heap (<[fresh := create_obj raw (default EmptyString nm) ty]> (heap w)) w,
             Ok fresh)).

(** [create_socket_obj]; [gotIAC] and [timeLastRead] go to the [aux] part of
    the object, which no routine of the file reads and which is not kept. *)
Definition create_socket_obj (user host : option string) (sd : Z) : M ptr :=
  lift (assert (negb (is_null user)) "user") ;;
  lift (assert (negb (is_null host)) "host") ;;
  lift (assert (sd >=? 0) "sd >= 0") ;;
  obj <- create_obj_at
           (Some (default EmptyString user ++ "@" ++ default EmptyString host)%string)
           SOCKET ;;
  (* Socket objs are created in the "active" state. *)
  store obj (set_fd sd) ;;
  if sys_time =? -1 then lift (Abort "time() failed -- What time is it?")
  else ret obj.

End Creation.

(** ** Comparing objects *)

Section Compare.

(** Whether [char] is a signed type is left to the platform. *)
Variable char_signed : bool.

(** The value of a [char] in an expression. *)
Definition char_val (c : ascii) : Z :=
  let n := Z.of_nat (nat_of_ascii c) in
  if char_signed && (128 <=? n) then n - 256 else n.

(** The loop of [compare_objs]: [x] and [y] advance while the character at
    [x] is not NUL and equals the one at [y]; the result is the character at
    [x] minus the one at [y].  The end of a string is its terminating NUL. *)
Fixpoint compare_names (x y : string) : Z :=
  match x with
  | EmptyString =>
    match y with
    | EmptyString => char_val zero - char_val zero
    | String d _ => char_val zero - char_val d
    end
  | String c x' =>
    match y with
    | EmptyString => char_val c - char_val zero
    | String d y' =>
      if negb (Ascii.eqb c zero) && Ascii.eqb c d then compare_names x' y'
      else char_val c - char_val d
    end
  end.

(** [compare_objs(obj1, obj2)], both pointers being non-null. *)
Definition compare_objs (obj1 obj2 : obj_t) : Z :=
  compare_names (name obj1) (name obj2).

End Compare.

(** A name as C reads it: up to its first NUL. *)
Fixpoint c_str (s : string) : string :=
  match s with
  | EmptyString => EmptyString
  | String c s' => if Ascii.eqb c zero then EmptyString else String c (c_str s')
  end.


(** ** The configuration parser ([server-conf.c]) *)

Module ServerConf.

Inductive server_conf_toks :=
| SERVER_CONF_BPS
| SERVER_CONF_CONSOLE
| SERVER_CONF_DEV
| SERVER_CONF_KEEPALIVE
| SERVER_CONF_LOG
| SERVER_CONF_LOGFILE
| SERVER_CONF_LOOPBACK
| SERVER_CONF_NAME
| SERVER_CONF_OFF
| SERVER_CONF_ON
| SERVER_CONF_PIDFILE
| SERVER_CONF_PORT
| SERVER_CONF_SERVER
| SERVER_CONF_TIMESTAMP.

(** [server_conf_strs[LEX_UNTOK(tok)]]. *)
Definition server_conf_strs (k : server_conf_toks) : string :=
  match k with
  | SERVER_CONF_BPS => "BPS"
  | SERVER_CONF_CONSOLE => "CONSOLE"
  | SERVER_CONF_DEV => "DEV"
  | SERVER_CONF_KEEPALIVE => "KEEPALIVE"
  | SERVER_CONF_LOG => "LOG"
  | SERVER_CONF_LOGFILE => "LOGFILE"
  | SERVER_CONF_LOOPBACK => "LOOPBACK"
  | SERVER_CONF_NAME => "NAME"
  | SERVER_CONF_OFF => "OFF"
  | SERVER_CONF_ON => "ON"
  | SERVER_CONF_PIDFILE => "PIDFILE"
  | SERVER_CONF_PORT => "PORT"
  | SERVER_CONF_SERVER => "SERVER"
  | SERVER_CONF_TIMESTAMP => "TIMESTAMP"
  end.

(** Modelled from the spec: lex.h and lex.c are absent.  The lexer yields
    keyword, string, integer, single-character, end-of-line, end-of-file and
    error tokens, and exposes the token last returned ([lex_prev]), its text
    ([lex_text]) and the current line ([lex_line]).  A lexer on a file is the
    sequence of tokens still to come, each with its text and line; past the
    last one it returns [LEX_EOF]. *)
Inductive token :=
| LEX_ERR
| LEX_EOF
| LEX_EOL
| LEX_INT
| LEX_STR
| LEX_CHR (c : ascii)
| LEX_TOK (k : server_conf_toks).

#[global] Instance server_conf_toks_eq_dec : EqDecision server_conf_toks.
Proof. solve_decision. Defined.

#[global] Instance token_eq_dec : EqDecision token.
Proof. solve_decision. Defined.

Record lexeme := mk_lexeme { lx_tok : token; lx_text : string; lx_line : Z }.

Record Lex := mk_lex {
  lex_rest : list lexeme;
  lex_prev : token;
  lex_text : string;
  lex_line : Z
}.

Definition lex_create (toks : list lexeme) : Lex := mk_lex toks LEX_EOF "" 1.

Definition lex_next (l : Lex) : token * Lex :=
  match lex_rest l with
  | [] => (LEX_EOF, mk_lex [] LEX_EOF "" (lex_line l))
  | x :: rest => (lx_tok x, mk_lex rest (lx_tok x) (lx_text x) (lx_line x))
  end.

(** [atoi] of <stdlib.h> is [(int) strtol(nptr, NULL, 10)]: optional white
    space, an optional sign, then the leading decimal digits (0 when there
    is none).  [strtol] gives a [long] and holds a number outside its range
    to [LONG_MAX] or [LONG_MIN]; the conversion to [int] keeps the low 32
    bits.  A [long] is taken to be 64 bits wide and an [int] 32. *)
Definition is_space (c : ascii) : bool :=
  let n := nat_of_ascii c in
  (Nat.eqb n 32 || (Nat.leb 9 n && Nat.leb n 13))%bool.

Definition digit_of (c : ascii) : option Z :=
  let n := nat_of_ascii c in
  if (Nat.leb 48 n && Nat.leb n 57)%bool then Some (Z.of_nat n - 48) else None.

Fixpoint atoi_digits (acc : Z) (s : string) : Z :=
  match s with
  | EmptyString => acc
  | String c s' =>
    match digit_of c with
    | Some d => atoi_digits (10 * acc + d) s'
    | None => acc
    end
  end.

(** The number the text starts with, whatever its size. *)
Fixpoint decimal (s : string) : Z :=
  match s with
  | EmptyString => 0
  | String c s' =>
    if is_space c then decimal s'
    else if Ascii.eqb c "-" then - atoi_digits 0 s'
    else if Ascii.eqb c "+" then atoi_digits 0 s'
    else atoi_digits 0 s
  end.

Definition LONG_MAX : Z := 2 ^ 63 - 1.
Definition LONG_MIN : Z := - 2 ^ 63.

Definition strtol (s : string) : Z := Z.max LONG_MIN (Z.min LONG_MAX (decimal s)).

(** The value of a [long] converted to [int]. *)
Definition to_int (z : Z) : Z := (z + 2 ^ 31) mod 2 ^ 32 - 2 ^ 31.

Definition atoi (s : string) : Z := to_int (strtol s).

Record server_conf_t := mk_conf {
  filename : string;
  fd : Z;
  port : Z;
  logname : option string;
  ld : Z;
  enableKeepAlive : bool;
  enableZeroLogs : bool;
  enableLoopBack : bool;
  enableVerbose : bool
}.

Definition set_fd (v : Z) (c : server_conf_t) : server_conf_t :=
  mk_conf (filename c) v (port c) (logname c) (ld c) (enableKeepAlive c)
          (enableZeroLogs c) (enableLoopBack c) (enableVerbose c).
Definition set_port (v : Z) (c : server_conf_t) : server_conf_t :=
  mk_conf (filename c) (fd c) v (logname c) (ld c) (enableKeepAlive c)
          (enableZeroLogs c) (enableLoopBack c) (enableVerbose c).
Definition set_enableKeepAlive (v : bool) (c : server_conf_t) : server_conf_t :=
  mk_conf (filename c) (fd c) (port c) (logname c) (ld c) v
          (enableZeroLogs c) (enableLoopBack c) (enableVerbose c).
Definition set_enableLoopBack (v : bool) (c : server_conf_t) : server_conf_t :=
  mk_conf (filename c) (fd c) (port c) (logname c) (ld c) (enableKeepAlive c)
          (enableZeroLogs c) v (enableVerbose c).

(** What parsing does besides changing the configuration, in order. *)
Inductive conf_event :=
| ToStdout (line : string)                 (* printf(...) *)
| ToStderr (line : string)                 (* fprintf(stderr, ...) *)
| PortSet (n : Z)                          (* conf->port = n *)
| NewConsole (name dev log : string) (bps : Z).
    (* an accepted CONSOLE directive: the console (and logfile) objects are
       made from these values *)

(** The parser at work: lexer, configuration, and what was done so far. *)
Record pstate := mk_pstate {
  ps_lex : Lex;
  ps_conf : server_conf_t;
  ps_out : list conf_event
}.

(** What the system answers when the configuration file is opened, locked
    and read, and the tokens of its contents. *)
Record conf_file := mk_conf_file {
  cf_open : Z;                 (* open(): descriptor or -1 *)
  cf_write_lock_pid : Z;       (* is_write_lock_blocked(): pid of the holder or 0 *)
  cf_read_lock : Z;            (* get_read_lock() *)
  cf_fstat : Z;                (* fstat() *)
  cf_size : Z;                 (* st_size *)
  cf_read_n : Z;               (* read_n() *)
  cf_tokens : list lexeme
}.

(** The values given to [conf->port] while parsing, oldest first. *)
Definition ports_set (out : list conf_event) : list Z :=
  omap (fun e => match e with PortSet n => Some n | _ => None end) out.

(** [conf->port] is the port [port0] the parser started with, or the value
    last given to it, and only positive values were given. *)
Definition port_inv (port0 : Z) (st : pstate) : Prop :=
  port (ps_conf st) = default port0 (last (ports_set (ps_out st))) /\
  Forall (fun n => 0 < n) (ports_set (ps_out st)).

(** Tokens still to come. *)
Definition pending (st : pstate) : nat := length (lex_rest (ps_lex st)).

(** A step of the parser: it does not give tokens back, and it keeps
    [conf->port] at the value last set. *)
Definition parser_step (port0 : Z) (st st' : pstate) : Prop :=
  (pending st' <= pending st)%nat /\ (port_inv port0 st -> port_inv port0 st').

Section Parser.

(** [MAX_LINE], [DEFAULT_CONMAN_PORT] and [DEFAULT_CONSOLE_BAUD] come from
    headers outside this file. *)
Variable MAX_LINE : nat.
Variable DEFAULT_CONMAN_PORT : Z.
Variable DEFAULT_CONSOLE_BAUD : Z.

(** [snprintf(err, sizeof(err), ...)] and [strlcpy(dst, src, MAX_LINE)] keep
    at most [MAX_LINE - 1] characters. *)
Definition snprintf (s : string) : string := substring 0 (MAX_LINE - 1) s.
Definition strlcpy (s : string) : string := substring 0 (MAX_LINE - 1) s.

Definition is_empty (s : string) : bool :=
  match s with EmptyString => true | _ => false end.

(** [server_conf_strs[LEX_UNTOK(tok)]] for a token; for a token that is no
    keyword the C code indexes outside the table. *)
Definition tok_str (t : token) : string :=
  match t with
  | LEX_TOK k => server_conf_strs k
  | _ => ""
  end.

Definition err_expected_eq (tok : token) : string :=
  snprintf ("expected '=' after " ++ tok_str tok ++ " keyword").
Definition err_expected_string (tok : token) : string :=
  snprintf ("expected STRING for " ++ tok_str tok ++ " value").
Definition err_expected_integer (tok : token) : string :=
  snprintf ("expected INTEGER for " ++ tok_str tok ++ " value").
Definition err_invalid_value (tok : token) (n : Z) : string :=
  snprintf ("invalid " ++ tok_str tok ++ " value " ++ fmt_d n).
Definition err_expected_on_off (tok : token) : string :=
  snprintf ("expected ON or OFF for " ++ tok_str tok ++ " value").
Definition err_not_implemented (tok : token) : string :=
  snprintf (tok_str tok ++ " keyword not yet implemented").

(** ["ERROR: %s:%d: %s.\n"] *)
Definition error_line (file : string) (line : Z) (msg : string) : string :=
  ("ERROR: " ++ file ++ ":" ++ fmt_d line ++ ": " ++ msg ++ "." ++ nl)%string.

(** [while (lex_prev(l) != LEX_EOL && lex_prev(l) != LEX_EOF) lex_next(l);] *)
Fixpoint skip_line (fuel : nat) (l : Lex) : option Lex :=
  if decide (lex_prev l <> LEX_EOL /\ lex_prev l <> LEX_EOF) then
    match fuel with
    | O => None
    | S fuel => skip_line fuel (snd (lex_next l))
    end
  else Some l.

Definition set_lex (l : Lex) (st : pstate) : pstate :=
  mk_pstate l (ps_conf st) (ps_out st).
Definition set_conf (c : server_conf_t) (st : pstate) : pstate :=
  mk_pstate (ps_lex st) c (ps_out st).
Definition add_out (e : conf_event) (st : pstate) : pstate :=
  mk_pstate (ps_lex st) (ps_conf st) (ps_out st ++ [e]).

(** One turn of the loop of [parse_server_directive]: the state after it,
    [done] and [err]. *)
Definition server_turn (st : pstate) : pstate * bool * string :=
  let '(tok, l) := lex_next (ps_lex st) in
  match tok with
  | LEX_TOK SERVER_CONF_KEEPALIVE =>
    let '(t1, l) := lex_next l in
    if decide (t1 <> LEX_CHR "=") then (set_lex l st, false, err_expected_eq tok)
    else
      let '(t2, l) := lex_next l in
      if decide (t2 = LEX_TOK SERVER_CONF_ON) then
        (set_conf (set_enableKeepAlive true (ps_conf st)) (set_lex l st), false, "")
      else if decide (lex_prev l = LEX_TOK SERVER_CONF_OFF) then
        (set_conf (set_enableKeepAlive false (ps_conf st)) (set_lex l st), false, "")
      else (set_lex l st, false, err_expected_on_off tok)
  | LEX_TOK SERVER_CONF_LOGFILE
  | LEX_TOK SERVER_CONF_PIDFILE
  | LEX_TOK SERVER_CONF_TIMESTAMP =>
    let '(t1, l) := lex_next l in
    let err := if decide (t1 <> LEX_CHR "=") then err_expected_eq tok else "" in
    let err := err_not_implemented tok in      (* written over the former *)
    (set_lex l st, false, err)
  | LEX_TOK SERVER_CONF_LOOPBACK =>
    let '(t1, l) := lex_next l in
    if decide (t1 <> LEX_CHR "=") then (set_lex l st, false, err_expected_eq tok)
    else
      let '(t2, l) := lex_next l in
      if decide (t2 = LEX_TOK SERVER_CONF_ON) then
        (set_conf (set_enableLoopBack true (ps_conf st)) (set_lex l st), false, "")
      else if decide (lex_prev l = LEX_TOK SERVER_CONF_OFF) then
        (set_conf (set_enableLoopBack false (ps_conf st)) (set_lex l st), false, "")
      else (set_lex l st, false, err_expected_on_off tok)
  | LEX_TOK SERVER_CONF_PORT =>
    let '(t1, l) := lex_next l in
    if decide (t1 <> LEX_CHR "=") then (set_lex l st, false, err_expected_eq tok)
    else
      let '(t2, l) := lex_next l in
      if decide (t2 <> LEX_STR /\ lex_prev l <> LEX_INT) then
        (set_lex l st, false, err_expected_integer tok)
      else
        let n := atoi (lex_text l) in
        if n <=? 0 then (set_lex l st, false, err_invalid_value tok n)
        else (add_out (PortSet n) (set_conf (set_port n (ps_conf st)) (set_lex l st)),
              false, "")
  | LEX_EOF | LEX_EOL => (set_lex l st, true, "")
  | LEX_ERR => (set_lex l st, false, snprintf "unmatched quote")
  | _ => (set_lex l st, false,
          snprintf ("unrecognized token '" ++ lex_text l ++ "'"))
  end.

(** [while (!done && !*err) { ... }] *)
Fixpoint server_loop (fuel : nat) (st : pstate) (done : bool) (err : string)
  : option (pstate * string) :=
  if negb done && is_empty err then
    match fuel with
    | O => None
    | S fuel =>
      let '(st, done, err) := server_turn st in server_loop fuel st done err
    end
  else Some (st, err).

(** The end of both directive routines: report [err] and skip the line. *)
Definition report_error (st : pstate) (err : string) : option pstate :=
  let st := add_out (ToStderr (error_line (filename (ps_conf st))
                                          (lex_line (ps_lex st)) err)) st in
  match skip_line (S (length (lex_rest (ps_lex st)))) (ps_lex st) with
  | Some l => Some (set_lex l st)
  | None => None
  end.

(** [parse_server_directive]; [None] only if a loop ran out of turns, which
    is shown not to happen. *)
Definition parse_server_directive (st : pstate) : option pstate :=
  match server_loop (S (length (lex_rest (ps_lex st)))) st false "" with
  | None => None
  | Some (st, err) =>
    if negb (is_empty err) then report_error st err else Some st
  end.

(** The locals [name], [dev], [log] and [bps] of [parse_console_directive]. *)
Record console_vals := mk_vals {
  cv_name : string;
  cv_dev : string;
  cv_log : string;
  cv_bps : Z
}.

(** One turn of the loop of [parse_console_directive]. *)
Definition console_turn (st : pstate) (v : console_vals)
  : pstate * console_vals * bool * string :=
  let '(tok, l) := lex_next (ps_lex st) in
  match tok with
  | LEX_TOK SERVER_CONF_NAME =>
    let '(t1, l) := lex_next l in
    if decide (t1 <> LEX_CHR "=") then (set_lex l st, v, false, err_expected_eq tok)
    else
      let '(t2, l) := lex_next l in
      if decide (t2 <> LEX_STR) then (set_lex l st, v, false, err_expected_string tok)
      else (set_lex l st,
            mk_vals (strlcpy (lex_text l)) (cv_dev v) (cv_log v) (cv_bps v), false, "")
  | LEX_TOK SERVER_CONF_DEV =>
    let '(t1, l) := lex_next l in
    let '(l, v, err) :=
      if decide (t1 <> LEX_CHR "=") then (l, v, err_expected_eq tok)
      else
        let '(t2, l) := lex_next l in
        if decide (t2 <> LEX_STR) then (l, v, err_expected_string tok)
        else (l, mk_vals (cv_name v) (strlcpy (lex_text l)) (cv_log v) (cv_bps v), "") in
    (* strlcpy(dev, lex_text(l), MAX_LINE) once more, whatever happened *)
    (set_lex l st,
     mk_vals (cv_name v) (strlcpy (lex_text l)) (cv_log v) (cv_bps v), false, err)
  | LEX_TOK SERVER_CONF_LOG =>
    let '(t1, l) := lex_next l in
    if decide (t1 <> LEX_CHR "=") then (set_lex l st, v, false, err_expected_eq tok)
    else
      let '(t2, l) := lex_next l in
      if decide (t2 <> LEX_STR) then (set_lex l st, v, false, err_expected_string tok)
      else (set_lex l st,
            mk_vals (cv_name v) (cv_dev v) (strlcpy (lex_text l)) (cv_bps v), false, "")
  | LEX_TOK SERVER_CONF_BPS =>
    let '(t1, l) := lex_next l in
    if decide (t1 <> LEX_CHR "=") then (set_lex l st, v, false, err_expected_eq tok)
    else
      let '(t2, l) := lex_next l in
      if decide (t2 <> LEX_STR /\ lex_prev l <> LEX_INT) then
        (set_lex l st, v, false, err_expected_integer tok)
      else
        let bps := atoi (lex_text l) in
        let v := mk_vals (cv_name v) (cv_dev v) (cv_log v) bps in
        if bps <=? 0 then (set_lex l st, v, false, err_invalid_value tok bps)
        else (set_lex l st, v, false, "")
  | LEX_EOF | LEX_EOL => (set_lex l st, v, true, "")
  | LEX_ERR => (set_lex l st, v, false, snprintf "unmatched quote")
  | _ => (set_lex l st, v, false,
          snprintf ("unrecognized token '" ++ lex_text l ++ "'"))
  end.

Fixpoint console_loop (fuel : nat) (st : pstate) (v : console_vals)
    (done : bool) (err : string) : option (pstate * console_vals * string) :=
  if negb done && is_empty err then
    match fuel with
    | O => None
    | S fuel =>
      let '(st, v, done, err) := console_turn st v in console_loop fuel st v done err
    end
  else Some (st, v, err).

Definition parse_console_directive (st : pstate) : option pstate :=
  let directive := tok_str (lex_prev (ps_lex st)) in
  match console_loop (S (length (lex_rest (ps_lex st)))) st
                     (mk_vals "" "" "" DEFAULT_CONSOLE_BAUD) false "" with
  | None => None
  | Some (st, v, err) =>
    let err :=
      if is_empty err && (is_empty (cv_name v) || is_empty (cv_dev v))
      then snprintf ("incomplete " ++ directive ++ " directive") else err in
    if negb (is_empty err) then report_error st err
    else Some (add_out (NewConsole (cv_name v) (cv_dev v) (cv_log v) (cv_bps v)) st)
  end.

(** [while (tok != LEX_EOL && tok != LEX_EOF) tok = lex_next(l);] *)
Fixpoint skip_tokens (fuel : nat) (tok : token) (l : Lex) : option Lex :=
  if decide (tok <> LEX_EOL /\ tok <> LEX_EOF) then
    match fuel with
    | O => None
    | S fuel => skip_tokens fuel (fst (lex_next l)) (snd (lex_next l))
    end
  else Some l.

(** [while ((tok = lex_next(l)) != LEX_EOF) { switch (tok) ... }] *)
Fixpoint conf_loop (fuel : nat) (st : pstate) : option pstate :=
  match fuel with
  | O => None
  | S fuel =>
    let '(tok, l) := lex_next (ps_lex st) in
    let st := set_lex l st in
    match tok with
    | LEX_EOF => Some st
    | LEX_TOK SERVER_CONF_CONSOLE =>
      match parse_console_directive st with
      | Some st => conf_loop fuel st
      | None => None
      end
    | LEX_TOK SERVER_CONF_SERVER =>
      match parse_server_directive st with
      | Some st => conf_loop fuel st
      | None => None
      end
    | LEX_EOL => conf_loop fuel st
    | LEX_ERR =>
      conf_loop fuel
        (add_out (ToStdout ("ERROR: " ++ filename (ps_conf st) ++ ":"
                            ++ fmt_d (lex_line l) ++ ": unmatched quote." ++ nl)) st)
    | _ =>
      let st :=
        add_out (ToStdout ("ERROR: " ++ filename (ps_conf st) ++ ":"
                           ++ fmt_d (lex_line l) ++ ": unrecognized token '"
                           ++ lex_text l ++ "'." ++ nl)) st in
      match skip_tokens (S (length (lex_rest l))) tok l with
      | Some l => conf_loop fuel (set_lex l st)
      | None => None
      end
    end
  end.

Definition err_msg {A : Type} (msg : string) : outcome A := Abort msg.

(** [process_server_conf_file(conf)] on the file [cf]: the configuration
    afterwards and what was printed and set on the way. *)
Definition process_server_conf_file (cf : conf_file) (conf : server_conf_t)
  : outcome (server_conf_t * list conf_event) :=
  let port0 := port conf in
  let conf := set_fd (cf_open cf) conf in
  if fd conf <? 0 then err_msg "Unable to open" else
  if cf_write_lock_pid cf >? 0 then err_msg "Configuration in use" else
  if cf_read_lock cf <? 0 then err_msg "Unable to lock configuration" else
  if cf_fstat cf <? 0 then err_msg "Unable to stat" else
  let len := cf_size cf in
  let n := cf_read_n cf in
  if n <? 0 then err_msg "Unable to read" else
  obind (assert (n =? len) "n == len") (fun _ =>
  let l := lex_create (cf_tokens cf) in
  match conf_loop (S (length (cf_tokens cf))) (mk_pstate l conf []) with
  | None => OutOfFuel
  | Some st =>
    let conf := ps_conf st in
    (* Kludge to ensure port is properly set. *)
    let conf :=
      if port0 >? 0 then set_port port0 conf
      else if port conf <=? 0 then set_port DEFAULT_CONMAN_PORT conf
      else conf in
    Ok (conf, ps_out st)
  end).

End Parser.

(** ** What the parser leaves behind *)

(** The lexer has just returned the end of a line or of the file. *)
Definition at_eol (l : Lex) : Prop := lex_prev l = LEX_EOL \/ lex_prev l = LEX_EOF.

(** The baud rate of a console is the default or a positive number. *)
Definition bps_ok (baud : Z) (v : console_vals) : Prop :=
  cv_bps v = baud \/ 0 < cv_bps v.

(** The options the configuration file cannot change. *)
Definition conf_kept (c c' : server_conf_t) : Prop :=
  filename c' = filename c /\ fd c' = fd c /\ logname c' = logname c /\
  ld c' = ld c /\ enableZeroLogs c' = enableZeroLogs c /\
  enableVerbose c' = enableVerbose c.

(** A token that ends a line. *)
Definition ends_line (t : token) : bool :=
  match t with
  | LEX_EOL | LEX_EOF => true
  | _ => false
  end.

(** The tokens after the end of the line the list starts in. *)
Fixpoint rest_of_line (toks : list lexeme) : list lexeme :=
  match toks with
  | [] => []
  | x :: toks => if ends_line (lx_tok x) then toks else rest_of_line toks
  end.

(** Where a directive routine may stop, [R] being the tokens after the line
    it started in: just after the end of that line, or within the line with
    an error to report. *)
Definition stops_in_line (R : list lexeme) (st : pstate) (err : string) : Prop :=
  (ends_line (lex_prev (ps_lex st)) = true /\ lex_rest (ps_lex st) = R) \/
  (ends_line (lex_prev (ps_lex st)) = false /\
   rest_of_line (lex_rest (ps_lex st)) = R /\ is_empty err = false).

(** ** The ports a file gives, read off its lines *)

(** The grammar of the specification has a file made of lines, a line made
    of a directive and the token that ends it, and a SERVER directive made
    of options [keyword = value].  The definitions below read the ports off
    the tokens of a file along that grammar; they are compared with what
    [process_server_conf_file] does. *)

(** The tokens of the line the list starts in, without the token that ends
    it. *)
Fixpoint first_line (toks : list lexeme) : list lexeme :=
  match toks with
  | [] => []
  | x :: toks => if ends_line (lx_tok x) then [] else x :: first_line toks
  end.

(** The lines of a file. *)
Fixpoint lines (toks : list lexeme) : list (list lexeme) :=
  match toks with
  | [] => [[]]
  | x :: toks =>
    if ends_line (lx_tok x) then [] :: lines toks
    else
      match lines toks with
      | l :: ls => (x :: l) :: ls
      | [] => [[x]]
      end
  end.

(** The ports given by the options of a SERVER directive, in order: the
    option [PORT = v] with [v] an integer or a string whose number is
    positive gives that number, [KEEPALIVE] and [LOOPBACK] with [ON] or
    [OFF] give none, and the directive is given up at the first option that
    is anything else. *)
Fixpoint server_ports (opts : list lexeme) : list Z :=
  match opts with
  | k :: e :: v :: opts =>
    if bool_decide (lx_tok e = LEX_CHR "=") then
      match lx_tok k with
      | LEX_TOK SERVER_CONF_PORT =>
        if bool_decide (lx_tok v = LEX_STR \/ lx_tok v = LEX_INT)
           && (0 <? atoi (lx_text v))
        then atoi (lx_text v) :: server_ports opts
        else []
      | LEX_TOK SERVER_CONF_KEEPALIVE | LEX_TOK SERVER_CONF_LOOPBACK =>
        if bool_decide (lx_tok v = LEX_TOK SERVER_CONF_ON
                        \/ lx_tok v = LEX_TOK SERVER_CONF_OFF)
        then server_ports opts
        else []
      | _ => []
      end
    else []
  | _ => []
  end.

(** The ports a line gives: those of its options when it starts with
    SERVER, none otherwise.  An unmatched quote at the start of a line is
    passed over and what follows it read as the line. *)
Fixpoint line_ports (line : list lexeme) : list Z :=
  match line with
  | [] => []
  | x :: line =>
    match lx_tok x with
    | LEX_ERR => line_ports line
    | LEX_TOK SERVER_CONF_SERVER => server_ports line
    | _ => []
    end
  end.

Definition file_ports (toks : list lexeme) : list Z :=
  flat_map line_ports (lines toks).

(** The lexer gives [LEX_EOF] at the end of the file only. *)
Definition eof_at_end (toks : list lexeme) : Prop :=
  Forall (fun x => lx_tok x <> LEX_EOF) toks.

(** ** The command line ([process_server_cmd_line]) *)

Definition set_filename (v : string) (c : server_conf_t) : server_conf_t :=
  mk_conf v (fd c) (port c) (logname c) (ld c) (enableKeepAlive c)
          (enableZeroLogs c) (enableLoopBack c) (enableVerbose c).
Definition set_enableZeroLogs (v : bool) (c : server_conf_t) : server_conf_t :=
  mk_conf (filename c) (fd c) (port c) (logname c) (ld c) (enableKeepAlive c)
          v (enableLoopBack c) (enableVerbose c).
Definition set_enableVerbose (v : bool) (c : server_conf_t) : server_conf_t :=
  mk_conf (filename c) (fd c) (port c) (logname c) (ld c) (enableKeepAlive c)
          (enableZeroLogs c) (enableLoopBack c) v.

(** What [getopt] answers at a call that finds an option: the character it
    returns, with [optarg] and [optopt]. *)
Record getopt_ret := mk_opt { opt_c : ascii; opt_arg : string; opt_opt : ascii }.

(** What the system answers to [kill_daemon]. *)
Record daemon := mk_daemon {
  kd_open : Z;                 (* open(): descriptor or -1 *)
  kd_lock_pid : Z;             (* is_write_lock_blocked() *)
  kd_kill : Z                  (* kill() *)
}.

Inductive cmd_event :=
| CmdStdout (line : string)                (* printf(...) *)
| CmdStderr (line : string)                (* fprintf(stderr, ...) *)
| CmdOpen (path : string)                  (* open(path, O_RDONLY) *)
| CmdKill (pid : Z)                        (* kill(pid, SIGTERM) *)
| CmdClose (d : Z).                        (* close(d) *)

(** How a routine of the command line ends: it returns, or the process
    exits, through [exit] or through [err_msg]. *)
Inductive cmd_result :=
| Returns (conf : server_conf_t)
| Exits (code : Z)
| Fails (msg : string).

(** A double quote. *)
Definition dq : string := String "034"%char EmptyString.

Section CmdLine.

(** [DEFAULT_SERVER_CONF], [DEFAULT_CONMAN_PORT], [PACKAGE], [VERSION] and
    [FEATURES] come from headers outside this file. *)
Variable DEFAULT_SERVER_CONF : string.
Variable DEFAULT_CONMAN_PORT : Z.
Variable PACKAGE VERSION FEATURES : string.

(** [create_server_conf]; the list [objs] is not kept in [server_conf_t],
    the consoles it receives are the [NewConsole] events. *)
Definition create_server_conf : server_conf_t :=
  mk_conf DEFAULT_SERVER_CONF (-1) 0 None (-1) true false false false.

(** [destroy_server_conf]: the descriptors it closes. *)
Definition destroy_server_conf (conf : option server_conf_t) : list cmd_event :=
  match conf with
  | None => []
  | Some conf =>
    (if fd conf >=? 0 then [CmdClose (fd conf)] else [])
    ++ (if ld conf >=? 0 then [CmdClose (ld conf)] else [])
  end.

Definition display_server_help (prog : string) : list cmd_event :=
  [ CmdStdout ("Usage: " ++ prog ++ " [OPTIONS]" ++ nl);
    CmdStdout nl;
    CmdStdout ("  -c FILE   Specify alternate configuration (default: "
               ++ DEFAULT_SERVER_CONF ++ ")." ++ nl);
    CmdStdout ("  -h        Display this help." ++ nl);
    CmdStdout ("  -k        Kill daemon running with specified configuration." ++ nl);
    CmdStdout ("  -p PORT   Specify alternate port number (default: "
               ++ fmt_d DEFAULT_CONMAN_PORT ++ ")." ++ nl);
    CmdStdout ("  -v        Be verbose." ++ nl);
    CmdStdout ("  -V        Display version information." ++ nl);
    CmdStdout ("  -z        Zero console log files." ++ nl);
    CmdStdout nl ]%string.

(** [kill_daemon]: what it does, and how it ends; it does not return. *)
Definition kill_daemon (dm : daemon) (conf : server_conf_t)
  : list cmd_event * cmd_result :=
  let conf := set_fd (kd_open dm) conf in
  let out := [CmdOpen (filename conf)] in
  if fd conf <? 0 then (out, Fails "Unable to open") else
  let pid := kd_lock_pid dm in
  if pid =? 0 then
    let out :=
      out ++ (if enableVerbose conf
              then [CmdStdout ("Configuration " ++ dq ++ filename conf ++ dq
                               ++ " is not active." ++ nl)%string]
              else []) in
    (out ++ destroy_server_conf (Some conf), Exits 0)
  else
    let out := out ++ [CmdKill pid] in
    if kd_kill dm <? 0 then (out, Fails "Unable to send SIGTERM") else
    let out :=
      out ++ (if enableVerbose conf
              then [CmdStdout ("Configuration " ++ dq ++ filename conf ++ dq
                               ++ " (pid " ++ fmt_d pid ++ ") terminated." ++ nl)%string]
              else []) in
    (out ++ destroy_server_conf (Some conf), Exits 0).

(** The loop [while ((c = getopt(...)) != -1) switch (c) ...]: [opts] are
    the answers of [getopt] until it gives -1.  The loop ends with the
    configuration and [killDaemon], or with the code given to [exit]. *)
Fixpoint getopt_loop (prog : string) (opts : list getopt_ret)
    (conf : server_conf_t) (killDaemon : bool) (out : list cmd_event)
  : list cmd_event * (server_conf_t * bool + Z) :=
  match opts with
  | [] => (out, inl (conf, killDaemon))
  | o :: opts =>
    let c := opt_c o in
    if Ascii.eqb c "c" then
      getopt_loop prog opts (set_filename (opt_arg o) conf) killDaemon out
    else if Ascii.eqb c "h" then (out ++ display_server_help prog, inr 0)
    else if Ascii.eqb c "k" then getopt_loop prog opts conf true out
    else if Ascii.eqb c "p" then
      let n := atoi (opt_arg o) in
      if n <=? 0 then
        getopt_loop prog opts conf killDaemon
          (out ++ [CmdStderr ("WARNING: Ignoring invalid port " ++ dq ++ fmt_d n
                              ++ dq ++ "." ++ nl)%string])
      else getopt_loop prog opts (set_port n conf) killDaemon out
    else if Ascii.eqb c "v" then
      getopt_loop prog opts (set_enableVerbose true conf) killDaemon out
    else if Ascii.eqb c "V" then
      (out ++ [CmdStdout (PACKAGE ++ "-" ++ VERSION ++ FEATURES ++ nl)%string], inr 0)
    else if Ascii.eqb c "z" then
      getopt_loop prog opts (set_enableZeroLogs true conf) killDaemon out
    else if Ascii.eqb c "?" then
      (out ++ [CmdStderr ("ERROR: Invalid option " ++ dq
                          ++ String (opt_opt o) EmptyString ++ dq ++ "." ++ nl)%string],
       inr 1)
    else
      (out ++ [CmdStderr ("ERROR: Option " ++ dq ++ String c EmptyString ++ dq
                          ++ " not implemented." ++ nl)%string],
       inr 1)
  end.

(** [process_server_cmd_line(argc, argv, conf)], [prog] being [argv[0]]. *)
Definition process_server_cmd_line (prog : string) (opts : list getopt_ret)
    (dm : daemon) (conf : server_conf_t) : list cmd_event * cmd_result :=
  match getopt_loop prog opts conf false [] with
  | (out, inr code) => (out, Exits code)
  | (out, inl (conf, killDaemon)) =>
    if killDaemon then
      let '(out', r) := kill_daemon dm conf in
      (out ++ out', match r with Returns _ => Exits 0 | _ => r end)
    else (out, Returns conf)
  end.

End CmdLine.

(** The files named by [-c] and the ports given by [-p] that were accepted,
    in the order of the command line. *)
Definition cmd_files (opts : list getopt_ret) : list string :=
  omap (fun o => if Ascii.eqb (opt_c o) "c" then Some (opt_arg o) else None) opts.

Definition cmd_ports (opts : list getopt_ret) : list Z :=
  omap (fun o => if Ascii.eqb (opt_c o) "p" && (0 <? atoi (opt_arg o))
                 then Some (atoi (opt_arg o)) else None) opts.

(** The options that let the loop go on. *)
Definition opt_goes_on (o : getopt_ret) : bool :=
  existsb (Ascii.eqb (opt_c o)) ["c"; "k"; "p"; "v"; "z"]%char.

Definition is_warning (e : cmd_event) : Prop := exists line, e = CmdStderr line.

End ServerConf.

(** ** Concrete objects and files used in the examples *)

Definition bytes (s : string) : list ascii := list_ascii_of_string s.

(** A socket's buffer of 8 bytes holding "ABCDEFG": it is full. *)
Definition full8 : obj_t :=
  mk_obj "u@h" 4 false (bytes "ABCDEFG.") 7 0 None [] SOCKET.

(** An empty buffer of 8 bytes. *)
Definition empty8 : obj_t :=
  mk_obj "u@h" 4 false (bytes "........") 0 0 None [] SOCKET.

(** A buffer of 8 bytes whose data "FG12345" wraps round the end. *)
Definition wrapped8 : obj_t :=
  mk_obj "u@h" 4 false (bytes "2345EFG1") 4 5 None [] SOCKET.

(** A console [c1] (at 1) read and written by the socket [u@h] (at 2) and
    logged to [c1.log] (at 3); a second client [v@h] (at 4) not yet linked.
    Buffers are 8 bytes long and empty. *)
Definition pC : ptr := 1%positive.
Definition pS1 : ptr := 2%positive.
Definition pL : ptr := 3%positive.
Definition pS2 : ptr := 4%positive.

Definition objC : obj_t :=
  mk_obj "c1" 5 false (bytes "........") 0 0 (Some pS1) [pL; pS1] CONSOLE.
Definition objS1 : obj_t :=
  mk_obj "u@h" 6 false (bytes "........") 0 0 (Some pC) [pC] SOCKET.
Definition objL : obj_t :=
  mk_obj "c1.log" 7 false (bytes "........") 0 0 (Some pC) [] LOGFILE.
Definition objS2 : obj_t :=
  mk_obj "v@h" 8 false (bytes "........") 0 0 None [] SOCKET.

Definition session_heap : gmap ptr obj_t :=
  <[pC := objC]> (<[pS1 := objS1]> (<[pL := objL]> (<[pS2 := objS2]> ∅))).

Definition session : world := mk_world session_heap [] [].

(** ** Relating the world before and after a routine *)

(** [m] takes every world to one related to it by [R], however it ends. *)
Definition respects {A : Type} (R : relation world) (m : M A) : Prop :=
  forall w, R w (fst (m w)).

(** [m] fails no assertion and never exits the process. *)
Definition no_abort {A : Type} (m : M A) : Prop :=
  forall w msg, snd (m w) <> Abort msg.

(** The trace only grows, by events that satisfy [G]. *)
Definition grows_by (G : event -> Prop) (w w' : world) : Prop :=
  exists tr, trace w' = trace w ++ tr /\ Forall G tr.

(** [destroy_obj] entered with an empty buffer and no descriptor. *)
Definition drained_destroy (e : event) : Prop :=
  match e with
  | EvDestroyObj _ o => bufInPtr o = bufOutPtr o /\ fd o < 0
  | _ => True
  end.

(** No object appears, and an object that had no descriptor still has
    none. *)
Definition fd_stays_closed (w w' : world) : Prop :=
  forall p o', heap w' !! p = Some o' ->
    exists o, heap w !! p = Some o /\ (fd o < 0 -> fd o' < 0).

(** The same objects are live, with the links they had; only the object at
    [obj] may have another descriptor. *)
Definition links_stay (obj : ptr) (w w' : world) : Prop :=
  (forall p o', heap w' !! p = Some o' ->
     exists o, heap w !! p = Some o /\
       writer o' = writer o /\ readers o' = readers o /\
       (p <> obj -> fd o' = fd o)) /\
  (forall p o, heap w !! p = Some o -> is_Some (heap w' !! p)).

Definition any_event (e : event) : Prop := True.

(** Every live object has its indices within bounds. *)
Definition heap_bounds (MAX_BUF_SIZE : Z) (w : world) : Prop :=
  forall p o, heap w !! p = Some o -> buf_inv MAX_BUF_SIZE o.

Definition keeps_bounds (MAX_BUF_SIZE : Z) (w w' : world) : Prop :=
  heap_bounds MAX_BUF_SIZE w -> heap_bounds MAX_BUF_SIZE w'.

(** The session above with a time stamp and an [open(2)] that gives 9. *)
Definition a_time : string := "Thu Aug 16 2001".
Definition open9 (path : string) : Z := 9.

(** Configuration files as their tokens. *)
Definition kw (k : ServerConf.server_conf_toks) (line : Z) : ServerConf.lexeme :=
  ServerConf.mk_lexeme (ServerConf.LEX_TOK k) (ServerConf.server_conf_strs k) line.
Definition chr (c : ascii) (line : Z) : ServerConf.lexeme :=
  ServerConf.mk_lexeme (ServerConf.LEX_CHR c) (String c EmptyString) line.
Definition int (text : string) (line : Z) : ServerConf.lexeme :=
  ServerConf.mk_lexeme ServerConf.LEX_INT text line.
Definition str (text : string) (line : Z) : ServerConf.lexeme :=
  ServerConf.mk_lexeme ServerConf.LEX_STR text line.
Definition eol (line : Z) : ServerConf.lexeme :=
  ServerConf.mk_lexeme ServerConf.LEX_EOL nl line.

(** The file [PORT=7777] followed by [SERVER PORT 7777]: a keyword outside
    a directive, then a directive lacking its [=]. *)
Definition stray_port : list ServerConf.lexeme :=
  [ kw ServerConf.SERVER_CONF_PORT 1; chr "=" 1; int "7777" 1; eol 1;
    kw ServerConf.SERVER_CONF_SERVER 2; kw ServerConf.SERVER_CONF_PORT 2;
    int "7777" 2; eol 2 ].

(** A readable file of the given tokens, locked by nobody. *)
Definition readable (toks : list ServerConf.lexeme) : ServerConf.conf_file :=
  ServerConf.mk_conf_file 3 0 0 0 64 64 toks.

(** The configuration [create_server_conf] makes, for [conman.conf]. *)
Definition fresh_conf : ServerConf.server_conf_t :=
  ServerConf.mk_conf "conman.conf" (-1) 0 None (-1) true false false false.

(** The file
      CONSOLE NAME="c1" DEV="/dev/ttyS0" BPS=9600
      SERVER PORT=7777 *)
Definition config_echo : list ServerConf.lexeme :=
  [ kw ServerConf.SERVER_CONF_CONSOLE 1;
    kw ServerConf.SERVER_CONF_NAME 1; chr "=" 1; str "c1" 1;
    kw ServerConf.SERVER_CONF_DEV 1; chr "=" 1; str "/dev/ttyS0" 1;
    kw ServerConf.SERVER_CONF_BPS 1; chr "=" 1; int "9600" 1; eol 1;
    kw ServerConf.SERVER_CONF_SERVER 2;
    kw ServerConf.SERVER_CONF_PORT 2; chr "=" 1; int "7777" 2; eol 2 ].

(** A console with no link left and three bytes "abc" still to be written
    to its descriptor 5; [write(2)] will take them all. *)
Definition draining : world :=
  mk_world
    {[ pC := mk_obj "c1" 5 false (bytes "abc.....") 3 0 None [] CONSOLE ]}
    [] [mk_ret 3 EINTR].

(** The console of [draining] once [close_obj] has put the teardown off:
    [gotEOF] is set, the descriptor is open and the three bytes are still to
    be written. *)
Definition draining_eof : world :=
  mk_world
    {[ pC := mk_obj "c1" 5 true (bytes "abc.....") 3 0 None [] CONSOLE ]}
    [EvCloseObj pC] [mk_ret 3 EINTR].

(** The session with one byte waiting in the socket's buffer: the notice of
    a steal, cut to 7 bytes, brings it to exactly 8. *)
Definition session_ahead : world :=
  mk_world
    (<[pS1 := mk_obj "u@h" 6 false (bytes "x.......") 1 0 (Some pC) [pC] SOCKET]>
       session_heap) [] [].

(** The session after the client left: [close_obj] on the socket has freed
    it, and the console still names it as its writer. *)
Definition session_left : world :=
  mk_world (delete pS1 (<[pC := set_readers [pL] objC]> session_heap))
           [EvCloseObj pS1; EvSysClose 6; EvDestroyObj pS1 (set_fd (-1) (set_writer None (set_readers [] objS1)))] [].

(** ** More relations and examples *)

(** [close_obj] leaves names, types and buffers alone; a descriptor is kept
    or given up. *)
Definition closes_only (w w' : world) : Prop :=
  forall p o', heap w' !! p = Some o' ->
    exists o, heap w !! p = Some o /\
      name o' = name o /\ type o' = type o /\ buf o' = buf o /\
      bufInPtr o' = bufInPtr o /\ bufOutPtr o' = bufOutPtr o /\
      (fd o' = fd o \/ fd o' = -1).

Definition closing_event (e : event) : Prop :=
  match e with
  | EvCloseObj _ | EvDestroyObj _ _ | EvSysClose _ => True
  | _ => False
  end.

(** No link appears: an object keeps its writer or loses it, and its readers
    afterwards are among those before, in the same order. *)
Definition unlinks_only (w w' : world) : Prop :=
  forall p o', heap w' !! p = Some o' ->
    exists o, heap w !! p = Some o /\
      (writer o' = writer o \/ writer o' = None) /\
      sublist (readers o') (readers o).

(** The descriptors given to [close(2)] in a trace, in order. *)
Definition closed_fds (tr : list event) : list Z :=
  omap (fun e => match e with EvSysClose d => Some d | _ => None end) tr.

(** Descriptors are owned exclusively: no two live objects hold the same
    open descriptor. *)
Definition fds_exclusive (w : world) : Prop :=
  forall p q o o', heap w !! p = Some o -> heap w !! q = Some o' ->
    0 <= fd o -> fd o = fd o' -> p = q.

(** The object at [p] holds no descriptor: it is gone, or its [fd] is
    negative. *)
Definition fd_given_up (w : world) (p : ptr) : Prop :=
  forall o, heap w !! p = Some o -> fd o < 0.

(** How [close_obj] deals with descriptors.  No object appears, and an
    object keeps its type and its descriptor, which only an object that is
    no socket may lose and stay; [close(2)] is called on the descriptors
    given up and on no other, once each when they are owned exclusively;
    and every [destroy_obj] is entered on a live socket with an empty
    buffer and [fd < 0], directly after the [close(2)] of the descriptor
    the socket had, when it had one, and frees it. *)
Definition closes_once (w w' : world) : Prop :=
  (forall p o', heap w' !! p = Some o' ->
     exists o, heap w !! p = Some o /\ type o' = type o /\
       (fd o' = fd o \/ (0 <= fd o /\ fd o' < 0 /\ type o <> SOCKET))) /\
  exists tr, trace w' = trace w ++ tr /\
    (forall d, In d (closed_fds tr) <->
       exists p o, heap w !! p = Some o /\ fd o = d /\ 0 <= d /\ fd_given_up w' p) /\
    (fds_exclusive w -> NoDup (closed_fds tr)) /\
    (forall pre p o' post, tr = pre ++ EvDestroyObj p o' :: post ->
       bufInPtr o' = bufOutPtr o' /\ fd o' < 0 /\
       exists o, heap w !! p = Some o /\ type o = SOCKET /\ heap w' !! p = None /\
         (0 <= fd o -> exists pre', pre = pre' ++ [EvSysClose (fd o)])).

(** The answer of a system call that was interrupted. *)
Definition interrupted (r : sys_ret) : Prop := ret_n r < 0 /\ ret_errno r = EINTR.

(** The session with the console's logfile at end of file: data read from
    the console goes to the socket only. *)
Definition session_log_eof : world :=
  mk_world (<[pL := set_gotEOF true objL]> session_heap) [] [].

(** The first line [open_obj] puts in a logfile. *)
Definition log_header (now cname : string) : string :=
  ("* Console [" ++ cname ++ "] log started on " ++ now ++ "." ++ nl ++ nl)%string.

(** A console and its logfile, not yet linked; the logfile is not open. *)
Definition lone_console : obj_t :=
  mk_obj "c1" 5 false (bytes "........") 0 0 None [] CONSOLE.
Definition lone_logfile : obj_t :=
  mk_obj "c1.log" (-1) false (bytes "........") 0 0 None [] LOGFILE.

Definition unlinked : world :=
  mk_world (<[pC := lone_console]> (<[pL := lone_logfile]> ∅)) [] [].

(** An [open(2)] that fails. *)
Definition open_fails (path : string) : Z := -1.

(** The options [-c conman.test -p 0 -k] as [getopt] gives them. *)
Definition opts_kill : list ServerConf.getopt_ret :=
  [ ServerConf.mk_opt "c" "conman.test" "000";
    ServerConf.mk_opt "p" "0" "000";
    ServerConf.mk_opt "k" "" "000" ].

(** The options [-p 0 -p 4294967297 -z]: the second port is one more than
    2^32. *)
Definition opts_wide : list ServerConf.getopt_ret :=
  [ ServerConf.mk_opt "p" "0" "000";
    ServerConf.mk_opt "p" "4294967297" "000";
    ServerConf.mk_opt "z" "" "000" ].

(** A daemon holds the lock on the configuration as process 4242. *)
Definition daemon_4242 : ServerConf.daemon := ServerConf.mk_daemon 3 4242 0.

(** The parser just after the keyword CONSOLE of
    [CONSOLE NAME="c1" DEV="/dev/ttyS0" BPS=9600]. *)
Definition after_console_keyword : ServerConf.pstate :=
  ServerConf.mk_pstate
    (snd (ServerConf.lex_next (ServerConf.lex_create config_echo))) fresh_conf [].
(** * Properties *)

(** ** Tactics for the comparisons of the C code *)

Ltac zbool :=
  repeat match goal with
  | H : (_ <=? _) = true |- _ => apply Z.leb_le in H
  | H : (_ <=? _) = false |- _ => apply Z.leb_gt in H
  | H : (_ <? _) = true |- _ => apply Z.ltb_lt in H
  | H : (_ <? _) = false |- _ => apply Z.ltb_ge in H
  | H : (_ =? _) = true |- _ => apply Z.eqb_eq in H
  | H : (_ =? _) = false |- _ => apply Z.eqb_neq in H
  | H : (_ >? _) = _ |- _ => rewrite Z.gtb_ltb in H
  | H : (_ >=? _) = _ |- _ => rewrite Z.geb_leb in H
  end.

Ltac split_if :=
  match goal with
  | |- context [if ?c then _ else _] => destruct c eqn:?
  end.

Ltac split_ifs := repeat (split_if; simpl in *; zbool; try lia).

Section BufferFacts.

Variable MAX_BUF_SIZE : Z.


Lemma assert_bounds_ok obj : buf_inv MAX_BUF_SIZE obj -> assert_bounds MAX_BUF_SIZE obj = Ok tt.
Proof.
  intros [[? ?] [? ?]]. unfold assert_bounds, assert.
  rewrite (proj2 (Z.leb_le _ _)), (proj2 (Z.ltb_lt _ _)) by lia. simpl.
  rewrite (proj2 (Z.leb_le _ _)), (proj2 (Z.ltb_lt _ _)) by lia. reflexivity.
Qed.

Lemma assert_bounds_inv obj u : assert_bounds MAX_BUF_SIZE obj = Ok u -> buf_inv MAX_BUF_SIZE obj.
Proof.
  unfold assert_bounds, assert, buf_inv.
  destruct (0 <=? bufInPtr obj) eqn:?; simpl; try discriminate.
  destruct (bufInPtr obj <? MAX_BUF_SIZE) eqn:?; simpl; try discriminate.
  destruct (0 <=? bufOutPtr obj) eqn:?; simpl; try discriminate.
  destruct (bufOutPtr obj <? MAX_BUF_SIZE) eqn:?; simpl; try discriminate.
  zbool. lia.
Qed.

(** Whenever [write_obj_data] returns, the indices are within bounds (its
    last assertions) and the count returned is the clamped length. *)
Lemma write_obj_data_returns_inv obj src len obj' n evs :
  buf_inv MAX_BUF_SIZE obj ->
  write_obj_data MAX_BUF_SIZE obj src len = Ok (obj', n, evs) -> buf_inv MAX_BUF_SIZE obj'.
Proof.
  intros Hinv. unfold write_obj_data.
  destruct src as [src|]; [|intros [= <- _ _]; exact Hinv].
  destruct (len <=? 0); [intros [= <- _ _]; exact Hinv|].
  rewrite (assert_bounds_ok _ Hinv). simpl.
  repeat (split_if; simpl);
    match goal with
    | |- obind (assert_bounds MAX_BUF_SIZE ?o) _ = _ -> _ =>
      destruct (assert_bounds MAX_BUF_SIZE o) as [[]| | |] eqn:Hb; simpl; try discriminate;
      intros [= <- _ _]; exact (assert_bounds_inv _ _ Hb)
    end.
Qed.

(** The bound assertions of [write_obj_data] never fail on an object within
    bounds: the call returns. *)
Lemma write_obj_data_total obj src len :
  buf_inv MAX_BUF_SIZE obj ->
  exists obj' n evs, write_obj_data MAX_BUF_SIZE obj src len = Ok (obj', n, evs).
Proof.
  intros Hinv. unfold write_obj_data.
  destruct src as [src|]; [|eauto].
  destruct (len <=? 0) eqn:Hlen; [eauto|].
  rewrite (assert_bounds_ok _ Hinv). simpl.
  destruct Hinv as [[? ?] [? ?]]. zbool.
  repeat (split_if; simpl in *; zbool);
    (rewrite assert_bounds_ok; [simpl; eauto | unfold buf_inv; simpl; lia]).
Qed.

Lemma write_again_in rets obj avail obj' evs rets' :
  write_again MAX_BUF_SIZE rets obj avail = Ok (obj', evs, rets') ->
  bufInPtr obj' = bufInPtr obj \/ bufInPtr obj' = 0.
Proof.
  revert obj' evs rets'. induction rets as [|r rets IH]; simpl; [discriminate|].
  intros obj' evs rets'.
  destruct (ret_n r <? 0).
  - destruct (ret_errno r); try discriminate.
    + destruct (write_again MAX_BUF_SIZE rets obj avail) as [[[o1 e1] r1]| | |]; simpl; try discriminate.
      intros [= <- _ _]. eauto.
    + intros [= <- _ _]. simpl. auto.
    + intros [= <- _ _]. auto.
    + intros [= <- _ _]. auto.
  - destruct (ret_n r >? 0); intros [= <- _ _]; auto.
    simpl. destruct (_ =? _); simpl; auto.
Qed.

Lemma write_again_inv rets obj avail :
  buf_inv MAX_BUF_SIZE obj -> 0 < avail -> bufOutPtr obj + avail <= MAX_BUF_SIZE ->
  Forall (posix_write avail) rets ->
  match write_again MAX_BUF_SIZE rets obj avail with
  | Ok (obj', _, _) => buf_inv MAX_BUF_SIZE obj'
  | Abort msg => msg = "write error"%string
  | Fault => False
  | OutOfFuel => True
  end.
Proof.
  intros Hinv Hav Hrun Hall. induction Hall as [|r rets Hr Hall IH]; simpl; [exact I|].
  unfold posix_write in Hr. destruct Hinv as [[? ?] [? ?]].
  destruct (ret_n r <? 0) eqn:Hneg.
  - destruct (ret_errno r); try reflexivity.
    + destruct (write_again MAX_BUF_SIZE rets obj avail) as [[[o1 e1] r1]| | |]; simpl; auto.
    + unfold buf_inv; simpl; lia.
    + unfold buf_inv; lia.
    + unfold buf_inv; lia.
  - destruct (ret_n r >? 0) eqn:Hposn; [|unfold buf_inv; lia].
    zbool. simpl. destruct (_ =? _) eqn:Hw; zbool; unfold buf_inv; simpl; lia.
Qed.

Lemma write_again_fuel rets obj avail :
  write_again MAX_BUF_SIZE rets obj avail = OutOfFuel ->
  Forall (fun r => ret_n r < 0 /\ ret_errno r = EINTR) rets.
Proof.
  induction rets as [|r rets IH]; simpl; [constructor|].
  destruct (ret_n r <? 0) eqn:Hneg; zbool.
  - destruct (ret_errno r) eqn:He; try discriminate.
    destruct (write_again MAX_BUF_SIZE rets obj avail) as [[[o2 e2] r2]| | |]; simpl; try discriminate.
    intros _. constructor; auto.
  - destruct (ret_n r >? 0); discriminate.
Qed.

Lemma write_avail_run obj :
  buf_inv MAX_BUF_SIZE obj -> bufOutPtr obj + write_avail MAX_BUF_SIZE obj <= MAX_BUF_SIZE.
Proof.
  intros [[? ?] [? ?]]. unfold write_avail.
  destruct (_ >=? _) eqn:?; zbool; lia.
Qed.

Lemma write_avail_pos obj :
  buf_inv MAX_BUF_SIZE obj -> bufInPtr obj <> bufOutPtr obj -> 0 < write_avail MAX_BUF_SIZE obj.
Proof.
  intros [[? ?] [? ?]] Hne. unfold write_avail.
  destruct (_ >=? _) eqn:?; zbool; lia.
Qed.

(** Whenever the locked region of [write_to_obj] is left normally, the
    indices are within bounds, whatever [write(2)] answered. *)
Lemma write_to_obj_locked_returns_inv rets obj obj' evs rets' :
  write_to_obj_locked MAX_BUF_SIZE rets obj = Ok (obj', evs, rets') -> buf_inv MAX_BUF_SIZE obj'.
Proof.
  unfold write_to_obj_locked.
  destruct (assert_bounds MAX_BUF_SIZE obj) as [[]| | |] eqn:Hb; simpl; try discriminate.
  apply assert_bounds_inv in Hb.
  destruct (if write_avail MAX_BUF_SIZE obj >? 0 then _ else _) as [[[o1 e1] r1]| | |] eqn:Hrun;
    simpl; try discriminate.
  unfold assert.
  destruct (0 <=? bufOutPtr o1) eqn:H1; simpl; try discriminate.
  destruct (bufOutPtr o1 <? MAX_BUF_SIZE) eqn:H2; simpl; try discriminate.
  intros [= <- _ _]. zbool.
  assert (Hin : bufInPtr o1 = bufInPtr obj \/ bufInPtr o1 = 0).
  { destruct (write_avail MAX_BUF_SIZE obj >? 0).
    - eapply write_again_in; eauto.
    - injection Hrun as <- _ _. auto. }
  destruct Hb as [[? ?] [? ?]]. unfold buf_inv. lia.
Qed.

(** With [write(2)] keeping to its contract, no bound assertion of
    [write_to_obj] fails: the region is left normally, or the process exits
    on a write error, or the system keeps answering [EINTR]. *)
Lemma write_to_obj_locked_inv rets obj :
  buf_inv MAX_BUF_SIZE obj -> Forall (posix_write (write_avail MAX_BUF_SIZE obj)) rets ->
  match write_to_obj_locked MAX_BUF_SIZE rets obj with
  | Ok (obj', _, _) => buf_inv MAX_BUF_SIZE obj'
  | Abort msg => msg = "write error"%string
  | Fault => False
  | OutOfFuel => Forall (fun r => ret_n r < 0 /\ ret_errno r = EINTR) rets
  end.
Proof.
  intros Hinv Hall.
  destruct (write_to_obj_locked MAX_BUF_SIZE rets obj) as [[[o1 e1] r1]|msg| |] eqn:Hw.
  - eapply write_to_obj_locked_returns_inv; eauto.
  - revert Hw. unfold write_to_obj_locked.
    rewrite (assert_bounds_ok _ Hinv). simpl.
    destruct (write_avail MAX_BUF_SIZE obj >? 0) eqn:Hav; zbool.
    + pose proof (write_again_inv rets obj _ Hinv Hav (write_avail_run _ Hinv) Hall) as Hr.
      destruct (write_again MAX_BUF_SIZE rets obj (write_avail MAX_BUF_SIZE obj)) as [[[o2 e2] r2]| | |]; simpl;
        try discriminate.
      * destruct Hr as [_ [? ?]]. unfold assert.
        rewrite (proj2 (Z.leb_le _ _)), (proj2 (Z.ltb_lt _ _)) by lia. discriminate.
      * intros [= <-]. exact Hr.
    + simpl. destruct Hinv as [_ [? ?]]. unfold assert.
      rewrite (proj2 (Z.leb_le _ _)), (proj2 (Z.ltb_lt _ _)) by lia. discriminate.
  - revert Hw. unfold write_to_obj_locked.
    rewrite (assert_bounds_ok _ Hinv). simpl.
    destruct (write_avail MAX_BUF_SIZE obj >? 0) eqn:Hav; zbool.
    + pose proof (write_again_inv rets obj _ Hinv Hav (write_avail_run _ Hinv) Hall) as Hr.
      destruct (write_again MAX_BUF_SIZE rets obj (write_avail MAX_BUF_SIZE obj)) as [[[o2 e2] r2]| | |]; simpl;
        try discriminate; try contradiction.
      destruct Hr as [_ [? ?]]. unfold assert.
      rewrite (proj2 (Z.leb_le _ _)), (proj2 (Z.ltb_lt _ _)) by lia. discriminate.
    + simpl. destruct Hinv as [_ [? ?]]. unfold assert.
      rewrite (proj2 (Z.leb_le _ _)), (proj2 (Z.ltb_lt _ _)) by lia. discriminate.
  - revert Hw. unfold write_to_obj_locked.
    rewrite (assert_bounds_ok _ Hinv). simpl.
    destruct (write_avail MAX_BUF_SIZE obj >? 0) eqn:Hav; zbool.
    + destruct (write_again MAX_BUF_SIZE rets obj (write_avail MAX_BUF_SIZE obj)) as [[[o2 e2] r2]| | |] eqn:Hag;
        simpl; try (unfold assert; split_ifs; discriminate).
      intros _. eapply write_again_fuel; eauto.
    + simpl. unfold assert; split_ifs; discriminate.
Qed.

Lemma buf_used_facts obj :
  buf_inv MAX_BUF_SIZE obj ->
  (buf_used MAX_BUF_SIZE obj = 0 <-> bufInPtr obj = bufOutPtr obj) /\
  0 <= buf_used MAX_BUF_SIZE obj <= MAX_BUF_SIZE - 1.
Proof.
  intros [[? ?] [? ?]]. unfold buf_used.
  destruct (_ >=? _) eqn:?; zbool; lia.
Qed.

Lemma reachable_inv obj :
  0 < MAX_BUF_SIZE -> reachable MAX_BUF_SIZE obj -> buf_inv MAX_BUF_SIZE obj.
Proof.
  intros Hpos. induction 1 as [raw nm ty|obj src len obj' n evs _ IH Hw
                 |obj rets obj' evs rets' _ IH Hw|obj obj' _ IH Hin Hout].
  - unfold buf_inv; simpl; lia.
  - eapply write_obj_data_returns_inv; eauto.
  - eapply write_to_obj_locked_returns_inv; eauto.
  - unfold buf_inv in *. rewrite Hin, Hout. exact IH.
Qed.

End BufferFacts.

(** ** The circular buffer: the claims *)

(** C9: when [src] is null or [len <= 0], [write_obj_data] returns 0 and
    leaves the object as it is ([buf], [bufInPtr], [bufOutPtr], [gotEOF] and
    all the rest), and it does so before taking the buffer lock: nothing is
    locked, logged or asserted. *)
Theorem write_obj_data_degenerate (MAX_BUF_SIZE : Z) (obj : obj_t)
    (src : option (list ascii)) (len : Z) :
  src = None \/ len <= 0 ->
  write_obj_data MAX_BUF_SIZE obj src len = Ok (obj, 0, []).
Proof.
  intros H. unfold write_obj_data. destruct src as [src|]; [|reflexivity].
  destruct H as [H|H]; [discriminate|].
  rewrite (proj2 (Z.leb_le _ _) H). reflexivity.
Qed.

Lemma write_obj_data_degenerate_witness :
  write_obj_data 8 (create_obj [] "u@h" SOCKET) (Some ["x"%char]) 0
  = Ok (create_obj [] "u@h" SOCKET, 0, []).
Proof. apply write_obj_data_degenerate. right. lia. Defined.

(** C6: with the descriptor open and bytes to write, [write_to_obj] offers
    [write(2)] the run from [bufOutPtr] up to [bufInPtr], or up to the end of
    the buffer when the data wraps, and then: on [EINTR] it issues the same
    call again; on [EPIPE] it sets [gotEOF] and empties the buffer
    ([bufInPtr = bufOutPtr = 0]); on [EAGAIN] and [EWOULDBLOCK] it changes
    nothing; on any other error the process exits; on a count [n > 0] it
    advances [bufOutPtr] by [n] modulo [MAX_BUF_SIZE] and leaves [bufInPtr]
    and the bytes alone. *)
Theorem write_to_obj_dispatch (MAX_BUF_SIZE : Z) (obj : obj_t) (r : sys_ret)
    (rets : list sys_ret) :
  buf_inv MAX_BUF_SIZE obj -> fd obj >= 0 -> bufInPtr obj <> bufOutPtr obj ->
  let avail := write_avail MAX_BUF_SIZE obj in
  let ev := SysWrite (fd obj) (bufOutPtr obj) avail in
  0 < avail /\
  (bufInPtr obj >= bufOutPtr obj -> bufOutPtr obj + avail = bufInPtr obj) /\
  (bufInPtr obj < bufOutPtr obj -> bufOutPtr obj + avail = MAX_BUF_SIZE) /\
  (ret_n r < 0 -> ret_errno r = EINTR ->
   write_to_obj_locked MAX_BUF_SIZE (r :: rets) obj =
   obind (write_to_obj_locked MAX_BUF_SIZE rets obj)
         (fun '(o, evs, rs) => Ok (o, MutexLock :: ev :: tail evs, rs))) /\
  (ret_n r < 0 -> ret_errno r = EPIPE ->
   write_to_obj_locked MAX_BUF_SIZE (r :: rets) obj =
   Ok (set_bufInPtr 0 (set_bufOutPtr 0 (set_gotEOF true obj)),
       [MutexLock; ev; MutexUnlock], rets)) /\
  (ret_n r < 0 -> ret_errno r = EAGAIN \/ ret_errno r = EWOULDBLOCK ->
   write_to_obj_locked MAX_BUF_SIZE (r :: rets) obj =
   Ok (obj, [MutexLock; ev; MutexUnlock], rets)) /\
  (ret_n r < 0 -> forall code, ret_errno r = EOTHER code ->
   write_to_obj_locked MAX_BUF_SIZE (r :: rets) obj = Abort "write error") /\
  (0 < ret_n r <= avail ->
   write_to_obj_locked MAX_BUF_SIZE (r :: rets) obj =
   Ok (set_bufOutPtr ((bufOutPtr obj + ret_n r) mod MAX_BUF_SIZE) obj,
       [MutexLock; ev; MutexUnlock], rets)).
Proof.
  intros Hinv Hfd Hne avail ev.
  pose proof (write_avail_pos _ _ Hinv Hne) as Hav. fold avail in Hav.
  pose proof (write_avail_run _ _ Hinv) as Hrun. fold avail in Hrun.
  assert (Hgt : (avail >? 0) = true) by (rewrite Z.gtb_ltb; apply Z.ltb_lt; exact Hav).
  destruct Hinv as [[Hi0 Hi1] [Ho0 Ho1]].
  assert (Hinv : buf_inv MAX_BUF_SIZE obj) by (unfold buf_inv; lia).
  split; [exact Hav|]. split.
  { intros Hge. subst avail. unfold write_avail in *.
    destruct (_ >=? _) eqn:?; zbool; lia. }
  split.
  { intros Hlt. subst avail. unfold write_avail in *.
    destruct (_ >=? _) eqn:?; zbool; lia. }
  unfold write_to_obj_locked. rewrite (assert_bounds_ok _ _ Hinv). simpl obind.
  fold avail. rewrite Hgt.
  split; [|split; [|split; [|split]]].
  - intros Hneg He. simpl write_again.
    rewrite (proj2 (Z.ltb_lt _ _) Hneg), He.
    destruct (write_again MAX_BUF_SIZE rets obj avail) as [[[o1 e1] r1]| | |];
      simpl; try reflexivity.
    unfold assert.
    destruct (0 <=? bufOutPtr o1); simpl; [|reflexivity].
    destruct (bufOutPtr o1 <? MAX_BUF_SIZE); simpl; reflexivity.
  - intros Hneg He. simpl write_again.
    rewrite (proj2 (Z.ltb_lt _ _) Hneg), He. simpl. unfold assert.
    rewrite (proj2 (Z.ltb_lt 0 MAX_BUF_SIZE)) by lia. reflexivity.
  - intros Hneg He. simpl write_again. rewrite (proj2 (Z.ltb_lt _ _) Hneg).
    destruct He as [He|He]; rewrite He; simpl; unfold assert;
      rewrite (proj2 (Z.leb_le _ _)), (proj2 (Z.ltb_lt _ _)) by lia; reflexivity.
  - intros Hneg code He. simpl write_again.
    rewrite (proj2 (Z.ltb_lt _ _) Hneg), He. reflexivity.
  - intros [Hn0 Hn1]. simpl write_again.
    rewrite (proj2 (Z.ltb_ge _ _)) by lia.
    assert (Hp : (ret_n r >? 0) = true) by (rewrite Z.gtb_ltb; apply Z.ltb_lt; lia).
    rewrite Hp. simpl.
    destruct (bufOutPtr obj + ret_n r =? MAX_BUF_SIZE) eqn:Hw; zbool.
    + rewrite Hw, Z_mod_same_full. simpl. unfold assert.
      rewrite (proj2 (Z.ltb_lt 0 MAX_BUF_SIZE)) by lia. reflexivity.
    + rewrite Z.mod_small by lia. simpl. unfold assert.
      rewrite (proj2 (Z.leb_le _ _)), (proj2 (Z.ltb_lt _ _)) by lia. reflexivity.
Qed.

Lemma write_to_obj_dispatch_witness :
  write_to_obj_locked 8 [mk_ret 3 EINTR] wrapped8
  = Ok (set_bufOutPtr 0 wrapped8,
        [MutexLock; SysWrite 4 5 3; MutexUnlock], []).
Proof.
  assert (H1 : buf_inv 8 wrapped8) by (unfold buf_inv; simpl; lia).
  assert (H2 : fd wrapped8 >= 0) by (simpl; lia).
  assert (H3 : bufInPtr wrapped8 <> bufOutPtr wrapped8) by (simpl; lia).
  pose proof (write_to_obj_dispatch 8 wrapped8 (mk_ret 3 EINTR) [] H1 H2 H3) as H.
  simpl in H. apply H. unfold write_avail. simpl. lia.
Defined.

(** C1 (the code departs from it): a write that fills the buffer to exactly
    [MAX_BUF_SIZE] bytes, one more than it can hold, goes unnoticed:
    [avail] counts the free slots without keeping one back, so nothing is
    logged, [bufOutPtr] stays, and [bufInPtr] comes round to [bufOutPtr]; the
    buffer then reads as empty, with every byte lost, where the claim has
    [MAX_BUF_SIZE - 1] bytes held and one byte reported overwritten. *)
Theorem write_obj_data_exact_fill (MAX_BUF_SIZE : Z) (obj : obj_t)
    (src : list ascii) (len : Z) :
  buf_inv MAX_BUF_SIZE obj ->
  bufInPtr obj <> bufOutPtr obj ->
  1 <= len <= MAX_BUF_SIZE - 1 ->
  buf_used MAX_BUF_SIZE obj + len = MAX_BUF_SIZE ->
  exists obj',
    write_obj_data MAX_BUF_SIZE obj (Some src) len
    = Ok (obj', len, [MutexLock; MutexUnlock]) /\
    bufInPtr obj' = bufOutPtr obj' /\
    bufOutPtr obj' = bufOutPtr obj /\
    buf_used MAX_BUF_SIZE obj' = 0 /\
    buf_content MAX_BUF_SIZE obj' = [].
Proof.
  intros Hinv Hne Hlen Hfill. unfold write_obj_data.
  rewrite (proj2 (Z.leb_gt _ _)) by lia.
  rewrite Z.geb_leb, (proj2 (Z.leb_gt _ _)) by lia.
  rewrite (assert_bounds_ok _ _ Hinv). simpl obind.
  destruct Hinv as [[Hi0 Hi1] [Ho0 Ho1]]. unfold buf_used in Hfill.
  assert (Hfin : forall o : obj_t, bufInPtr o = bufOutPtr obj -> bufOutPtr o = bufOutPtr obj ->
            buf_used MAX_BUF_SIZE o = 0 /\ buf_content MAX_BUF_SIZE o = []).
  { intros o Hi Ho. unfold buf_used, buf_content. rewrite Hi, Ho.
    rewrite Z.geb_leb, Z.leb_refl, Nat.sub_diag. split; [lia|reflexivity]. }
  destruct (bufInPtr obj >=? bufOutPtr obj) eqn:Hcmp; zbool;
  repeat (split_if; simpl in *; zbool; try lia);
    (rewrite assert_bounds_ok; [|unfold buf_inv; simpl; lia]);
    simpl; eexists; (split; [reflexivity|]); simpl;
    (split; [lia|]); (split; [lia|]); apply Hfin; simpl; lia.
Qed.

Lemma write_obj_data_exact_fill_witness :
  exists obj',
    write_obj_data 8 full8 (Some (bytes "1")) 1
    = Ok (obj', 1, [MutexLock; MutexUnlock]) /\
    bufInPtr obj' = bufOutPtr obj' /\
    bufOutPtr obj' = bufOutPtr full8 /\
    buf_used 8 obj' = 0 /\
    buf_content 8 obj' = [].
Proof.
  apply write_obj_data_exact_fill.
  - unfold buf_inv; simpl; lia.
  - simpl; lia.
  - lia.
  - reflexivity.
Defined.

(** X2: away from the exact fill the indices are as the claim has them: the
    buffer then holds [min (P + len) (MAX_BUF_SIZE - 1)] bytes, [bufInPtr]
    has advanced by [len] round the buffer, and a notice is logged exactly
    when [P + len] exceeds [MAX_BUF_SIZE], [bufOutPtr] then being one past
    [bufInPtr].  The notice counts [P + len - MAX_BUF_SIZE] bytes, one less
    than were lost. *)
Lemma write_obj_data_occupancy (MAX_BUF_SIZE : Z) (obj : obj_t)
    (src : list ascii) (len : Z) :
  buf_inv MAX_BUF_SIZE obj ->
  1 <= len <= MAX_BUF_SIZE - 1 ->
  buf_used MAX_BUF_SIZE obj + len <> MAX_BUF_SIZE ->
  exists obj',
    write_obj_data MAX_BUF_SIZE obj (Some src) len
    = Ok (obj', len,
          [MutexLock]
          ++ (if buf_used MAX_BUF_SIZE obj + len >? MAX_BUF_SIZE
              then [LogMsg 10 ("[" ++ name obj ++ "] overwrote "
                               ++ fmt_d (buf_used MAX_BUF_SIZE obj + len - MAX_BUF_SIZE)
                               ++ " bytes")%string]
              else [])
          ++ [MutexUnlock]) /\
    buf_used MAX_BUF_SIZE obj'
    = Z.min (buf_used MAX_BUF_SIZE obj + len) (MAX_BUF_SIZE - 1) /\
    bufInPtr obj' = (bufInPtr obj + len) mod MAX_BUF_SIZE /\
    bufOutPtr obj'
    = (if buf_used MAX_BUF_SIZE obj + len >? MAX_BUF_SIZE
       then (bufInPtr obj' + 1) mod MAX_BUF_SIZE
       else bufOutPtr obj).
Proof.
  intros Hinv Hlen Hfill. unfold write_obj_data.
  rewrite (proj2 (Z.leb_gt _ _)) by lia.
  rewrite Z.geb_leb, (proj2 (Z.leb_gt _ _)) by lia.
  rewrite (assert_bounds_ok _ _ Hinv). simpl obind.
  destruct Hinv as [[Hi0 Hi1] [Ho0 Ho1]].
  destruct obj as [nm d eof b i o wr rd ty]. unfold buf_used in *. simpl in *.
  assert (Hwrap : forall x, MAX_BUF_SIZE <= x < 2 * MAX_BUF_SIZE ->
                            x mod MAX_BUF_SIZE = x - MAX_BUF_SIZE).
  { intros x Hx. symmetry. apply (Z.mod_unique_pos x MAX_BUF_SIZE 1); lia. }
  destruct (Z.min_spec len (MAX_BUF_SIZE - i)) as [[Hm1 Hm]|[Hm1 Hm]]; rewrite !Hm;
  destruct (i >=? o) eqn:Hcmp; zbool;
  destruct (o =? i) eqn:Heq; zbool;
  destruct (o >? i) eqn:Hgt; zbool; try lia;
  repeat (split_if; simpl in *; zbool; try lia);
    (rewrite assert_bounds_ok; [|unfold buf_inv; simpl; lia]);
    simpl; eexists;
    (split; [apply f_equal; apply f_equal2;
             [reflexivity
             |first [reflexivity
                    |match goal with
                     | |- ?l = ?r =>
                       match l with
                       | context [fmt_d ?a] =>
                         match r with
                         | context [fmt_d ?b] => replace a with b by lia; reflexivity
                         end
                       end
                     end]]|]); simpl;
    rewrite ?Z.geb_leb;
    repeat (split_if; simpl in *; zbool; try lia);
    repeat split;
    first [ lia
          | rewrite Z.mod_small by lia; lia
          | rewrite Hwrap by lia; lia
          | rewrite Z_mod_same_full; lia
          | idtac ].
Qed.

Lemma write_obj_data_occupancy_witness :
  exists obj',
    write_obj_data 8 wrapped8 (Some (bytes "xyz")) 3
    = Ok (obj', 3,
          [MutexLock]
          ++ (if buf_used 8 wrapped8 + 3 >? 8
              then [LogMsg 10 ("[" ++ name wrapped8 ++ "] overwrote "
                               ++ fmt_d (buf_used 8 wrapped8 + 3 - 8)
                               ++ " bytes")%string]
              else [])
          ++ [MutexUnlock]) /\
    buf_used 8 obj' = Z.min (buf_used 8 wrapped8 + 3) (8 - 1) /\
    bufInPtr obj' = (bufInPtr wrapped8 + 3) mod 8 /\
    bufOutPtr obj'
    = (if buf_used 8 wrapped8 + 3 >? 8
       then (bufInPtr obj' + 1) mod 8
       else bufOutPtr wrapped8).
Proof.
  apply write_obj_data_occupancy.
  - unfold buf_inv; simpl; lia.
  - lia.
  - vm_compute; discriminate.
Defined.

(** *** The bytes held, away from the exact fill *)

Lemma lookup_app_dec (l1 l2 : list ascii) (k : nat) :
  (l1 ++ l2) !! k
  = if decide (k < length l1)%nat then l1 !! k else l2 !! (k - length l1)%nat.
Proof.
  case_decide.
  - apply lookup_app_l. assumption.
  - apply lookup_app_r. lia.
Qed.

(** Lengths of slices, without [min]. *)
Ltac len_norm :=
  repeat first
    [ rewrite length_app | rewrite length_drop
    | rewrite length_take_le by (len_norm; lia)
    | rewrite length_take_ge by (len_norm; lia) ].

(** The byte at a position of a list made of slices. *)
Ltac lookup_norm :=
  repeat first
    [ rewrite lookup_app_dec | rewrite lookup_take | rewrite lookup_drop
    | progress len_norm ].

Ltac lookup_leaf :=
  first
    [ reflexivity
    | exfalso; lia
    | f_equal; lia
    | symmetry; apply lookup_ge_None_2; lia
    | apply lookup_ge_None_2; lia ].

Ltac prune := repeat (case_decide; try (exfalso; lia)).

(** Offsets as natural numbers. *)
Ltac z2n e :=
  lazymatch e with
  | Z.of_nat ?n => n
  | (?a + ?b)%Z => let a' := z2n a in let b' := z2n b in constr:((a' + b')%nat)
  | (?a - ?b)%Z => let a' := z2n a in let b' := z2n b in constr:((a' - b')%nat)
  | 0%Z => constr:(O)
  | 1%Z => constr:(1%nat)
  end.

Ltac to_nat_goal :=
  repeat match goal with
  | |- context [Z.to_nat ?e] =>
    let e' := z2n e in replace (Z.to_nat e) with e' by lia
  end.

(** Away from the exact fill the bytes are as the claim has them: read in
    FIFO order, the buffer gives the last [MAX_BUF_SIZE - 1] bytes of what
    it held followed by the [len] bytes written. *)
Lemma write_obj_data_fifo (MAX_BUF_SIZE : Z) (obj : obj_t) (src : list ascii)
    (len : Z) :
  buf_inv MAX_BUF_SIZE obj ->
  length (buf obj) = Z.to_nat MAX_BUF_SIZE ->
  1 <= len <= MAX_BUF_SIZE - 1 ->
  (Z.to_nat len <= length src)%nat ->
  buf_used MAX_BUF_SIZE obj + len <> MAX_BUF_SIZE ->
  exists obj' evs,
    write_obj_data MAX_BUF_SIZE obj (Some src) len = Ok (obj', len, evs) /\
    buf_content MAX_BUF_SIZE obj'
    = last_bytes (MAX_BUF_SIZE - 1)
        (buf_content MAX_BUF_SIZE obj ++ take (Z.to_nat len) src) /\
    length (buf obj') = Z.to_nat MAX_BUF_SIZE.
Proof.
  intros Hinv Hlenb Hlen Hsrc Hfill. unfold write_obj_data.
  rewrite (proj2 (Z.leb_gt _ _)) by lia.
  rewrite Z.geb_leb, (proj2 (Z.leb_gt _ _)) by lia.
  rewrite (assert_bounds_ok _ _ Hinv). simpl obind.
  destruct Hinv as [[Hi0 Hi1] [Ho0 Ho1]].
  destruct obj as [nm d eof b i o wr rd ty]. simpl in *.
  unfold buf_used in Hfill. simpl in Hfill.
  destruct (Z_of_nat_complete i Hi0) as [i' ->].
  destruct (Z_of_nat_complete o Ho0) as [o' ->].
  destruct (Z_of_nat_complete len ltac:(lia)) as [L' ->].
  destruct (Z_of_nat_complete MAX_BUF_SIZE ltac:(lia)) as [N ->].
  rewrite !Nat2Z.id in *.
  destruct (Z.min_spec (Z.of_nat L') (Z.of_nat N - Z.of_nat i')) as [[Hm1 Hm]|[Hm1 Hm]];
    rewrite !Hm;
  destruct (Z.of_nat i' >=? Z.of_nat o') eqn:Hcmp; zbool;
  destruct (Z.of_nat o' =? Z.of_nat i') eqn:Heq; zbool;
  destruct (Z.of_nat o' >? Z.of_nat i') eqn:Hgt; zbool; try lia;
  repeat (split_if; simpl in *; zbool; try lia);
    (rewrite assert_bounds_ok; [|unfold buf_inv; simpl; lia]);
    simpl; eexists; eexists; (split; [reflexivity|]); simpl.
  all: unfold buf_used, buf_content, last_bytes, memcpy; simpl.
  all: rewrite ?Z.geb_leb.
  all: repeat (split_if; simpl in *; zbool; try lia).
  all: to_nat_goal.
  all: split; [|len_norm; lia].
  all: apply list_eq; intros k; lookup_norm.
  all: prune.
  all: lookup_leaf.
Qed.

(** The circular overwrite of the specification, on a buffer of 8 bytes:
    "ABCDEFG" fills the empty buffer and is read back whole; "12345" on top of
    it logs 4 bytes overwritten (5 were lost) and leaves "FG12345". *)
Example circular_overwrite :
  exists o1 o2,
    write_obj_data 8 empty8 (Some (bytes "ABCDEFG")) 7
    = Ok (o1, 7, [MutexLock; MutexUnlock]) /\
    buf_content 8 o1 = bytes "ABCDEFG" /\
    write_obj_data 8 o1 (Some (bytes "12345")) 5
    = Ok (o2, 5, [MutexLock; LogMsg 10 "[u@h] overwrote 4 bytes"; MutexUnlock]) /\
    buf_content 8 o2 = bytes "FG12345".
Proof. do 2 eexists. repeat split; vm_compute; reflexivity. Qed.

(** ** The object graph: the claims *)

(** C3 (the code departs from it): [close_obj] on the console of a running
    session.  The loop over the readers compares ([==]) where it should
    assign, so it pops the first reader, finds it different from [reader]
    and stops: the second reader stays on the list, and both the logfile and
    the socket still name the console as their writer. *)
Theorem close_obj_keeps_readers (junk : option ptr) :
  exists w', close_obj junk 2 pC session = (w', Ok tt) /\
    readers <$> heap w' !! pC = Some [pS1] /\
    writer <$> heap w' !! pL = Some (Some pC) /\
    writer <$> heap w' !! pS1 = Some (Some pC).
Proof.
  eexists. split; [vm_compute; reflexivity|].
  repeat split; vm_compute; reflexivity.
Qed.

Lemma close_obj_teardown_eq (w : world) (obj : ptr) (o : obj_t) :
  heap w !! obj = Some o ->
  close_obj_teardown obj w =
  if negb (bufInPtr o =? bufOutPtr o) then
    (set_heap (<[obj := set_gotEOF true o]> (heap w)) w, Ok tt)
  else
    (mk_world
       (match type o with
        | SOCKET => delete obj (heap w)
        | _ => <[obj := torn_down o]> (heap w)
        end)
       (trace w ++ (if fd o >=? 0 then [EvSysClose (fd o)] else [])
                ++ (match type o with
                    | SOCKET => [EvDestroyObj obj (torn_down o)]
                    | _ => []
                    end))
       (writes w), Ok tt).
Proof.
  intros Hobj. unfold close_obj_teardown, bind, deref. rewrite Hobj.
  destruct (bufInPtr o =? bufOutPtr o) eqn:Hempty; simpl.
  - unfold store at 1. rewrite Hobj. simpl.
    unfold torn_down, destroy_obj, bind, deref, store, emit, free, ret, lift, assert.
    destruct (fd o >=? 0) eqn:Hfd; destruct (type o) eqn:Hty; simpl;
      rewrite ?lookup_insert_eq; simpl;
      rewrite ?lookup_insert_eq; simpl;
      rewrite ?Hempty, ?Hfd; simpl;
      rewrite ?lookup_insert_eq; simpl;
      unfold set_heap, add_trace; simpl;
      rewrite ?insert_insert_eq, ?delete_insert_eq, ?app_nil_r, <- ?app_assoc;
      try reflexivity.
  - unfold store. rewrite Hobj. reflexivity.
Qed.

(** ** Reasoning on routines *)

Lemma bind_ok {A B : Type} (m : M A) (k : A -> M B) (w w' : world) (b : B) :
  bind m k w = (w', Ok b) ->
  exists a w1, m w = (w1, Ok a) /\ k a w1 = (w', Ok b).
Proof.
  unfold bind. destruct (m w) as [w1 [a|msg| |]]; try discriminate. eauto.
Qed.

Section Respects.

Context (R : relation world) `{!PreOrder R}.

Lemma respects_ret {A : Type} (a : A) : respects R (ret a).
Proof. intros w. simpl. reflexivity. Qed.

Lemma respects_lift {A : Type} (r : outcome A) : respects R (lift r).
Proof. intros w. simpl. reflexivity. Qed.

Lemma respects_bind {A B : Type} (m : M A) (k : A -> M B) :
  respects R m -> (forall a, respects R (k a)) -> respects R (bind m k).
Proof.
  intros Hm Hk w. unfold bind. specialize (Hm w).
  destruct (m w) as [w1 [a|msg| |]]; simpl in *; try exact Hm.
  etransitivity; [exact Hm|apply Hk].
Qed.

Lemma respects_deref (p : ptr) : respects R (deref p).
Proof. intros w. unfold deref. destruct (heap w !! p); simpl; reflexivity. Qed.

Lemma respects_deref_opt (p : option ptr) : respects R (deref_opt p).
Proof. destruct p; [apply respects_deref|apply respects_lift]. Qed.

Lemma respects_emit (evs : list event) :
  (forall w, R w (add_trace evs w)) -> respects R (emit evs).
Proof. intros H w. apply H. Qed.

Lemma respects_store (p : ptr) (f : obj_t -> obj_t) :
  (forall w o, heap w !! p = Some o -> R w (set_heap (<[p := f o]> (heap w)) w)) ->
  respects R (store p f).
Proof.
  intros H w. unfold store. destruct (heap w !! p) eqn:Hp; simpl; [auto|reflexivity].
Qed.

Lemma respects_free (p : ptr) :
  (forall w o, heap w !! p = Some o -> R w (set_heap (delete p (heap w)) w)) ->
  respects R (free p).
Proof.
  intros H w. unfold free. destruct (heap w !! p) eqn:Hp; simpl; [eauto|reflexivity].
Qed.

End Respects.

Lemma no_abort_ret {A : Type} (a : A) : no_abort (ret a).
Proof. intros w msg. discriminate. Qed.

Lemma no_abort_bind {A B : Type} (m : M A) (k : A -> M B) :
  no_abort m -> (forall a, no_abort (k a)) -> no_abort (bind m k).
Proof.
  intros Hm Hk w msg. unfold bind. specialize (Hm w).
  destruct (m w) as [w1 [a|msg'| |]]; simpl in *; try discriminate.
  - apply Hk.
  - exfalso. eapply Hm. reflexivity.
Qed.

Lemma no_abort_deref (p : ptr) : no_abort (deref p).
Proof. intros w msg. unfold deref. destruct (heap w !! p); discriminate. Qed.

Lemma no_abort_deref_opt (p : option ptr) : no_abort (deref_opt p).
Proof. destruct p; [apply no_abort_deref|intros w msg; discriminate]. Qed.

Lemma no_abort_store (p : ptr) (f : obj_t -> obj_t) : no_abort (store p f).
Proof. intros w msg. unfold store. destruct (heap w !! p); discriminate. Qed.

Lemma no_abort_emit (evs : list event) : no_abort (emit evs).
Proof. intros w msg. discriminate. Qed.

Lemma no_abort_fault {A : Type} : no_abort (@lift A Fault).
Proof. intros w msg. discriminate. Qed.

Lemma no_abort_fuel {A : Type} : no_abort (@lift A OutOfFuel).
Proof. intros w msg. discriminate. Qed.

#[local] Instance grows_by_preorder (G : event -> Prop) : PreOrder (grows_by G).
Proof.
  split.
  - intros w. exists []. rewrite app_nil_r. auto.
  - intros w1 w2 w3 (t1 & H1 & G1) (t2 & H2 & G2). exists (t1 ++ t2).
    rewrite H2, H1, app_assoc. split; [reflexivity|]. apply Forall_app; auto.
Qed.

#[local] Instance fd_stays_closed_preorder : PreOrder fd_stays_closed.
Proof.
  split.
  - intros w p o Hp. eauto.
  - intros w1 w2 w3 H12 H23 p o3 Hp.
    destruct (H23 p o3 Hp) as (o2 & Hp2 & Hfd2).
    destruct (H12 p o2 Hp2) as (o1 & Hp1 & Hfd1). eauto.
Qed.

#[local] Instance links_stay_preorder (obj : ptr) : PreOrder (links_stay obj).
Proof.
  split.
  - intros w. split; intros p o Hp; eauto.
  - intros w1 w2 w3 [H12 L12] [H23 L23]. split.
    + intros p o3 Hp.
      destruct (H23 p o3 Hp) as (o2 & Hp2 & Hw2 & Hr2 & Hfd2).
      destruct (H12 p o2 Hp2) as (o1 & Hp1 & Hw1 & Hr1 & Hfd1).
      exists o1. repeat split; try congruence.
      intros Hne. rewrite Hfd2, Hfd1; auto.
    + intros p o1 Hp. destruct (L12 p o1 Hp) as [o2 Hp2]. eauto.
Qed.

Ltac respects_step :=
  first
    [ apply respects_ret; typeclasses eauto
    | apply respects_lift; typeclasses eauto
    | apply respects_deref; typeclasses eauto
    | apply respects_deref_opt; typeclasses eauto
    | apply respects_bind; [typeclasses eauto| |intros ?] ].

Ltac no_abort_step :=
  first
    [ apply no_abort_ret | apply no_abort_fault | apply no_abort_fuel
    | apply no_abort_deref | apply no_abort_deref_opt | apply no_abort_store
    | apply no_abort_emit
    | apply no_abort_bind; [|intros ?] ].

(** *** Every [destroy_obj] of [close_obj] finds the object drained *)

Lemma grows_by_heap (G : event -> Prop) (w : world) (h : gmap ptr obj_t) :
  grows_by G w (set_heap h w).
Proof. exists []. simpl. rewrite app_nil_r. auto. Qed.

Lemma grows_by_emit (G : event -> Prop) (evs : list event) :
  Forall G evs -> respects (grows_by G) (emit evs).
Proof. intros H w. exists evs. auto. Qed.

Lemma grows_by_store (G : event -> Prop) (p : ptr) (f : obj_t -> obj_t) :
  respects (grows_by G) (store p f).
Proof. apply respects_store; [typeclasses eauto|]. intros. apply grows_by_heap. Qed.

Lemma torn_down_fd (o : obj_t) : fd (torn_down o) < 0.
Proof. unfold torn_down. simpl. destruct (fd o >=? 0) eqn:H; simpl; zbool; lia. Qed.

Lemma torn_down_indices (o : obj_t) :
  bufInPtr (torn_down o) = bufInPtr o /\ bufOutPtr (torn_down o) = bufOutPtr o.
Proof. unfold torn_down. simpl. destruct (fd o >=? 0); auto. Qed.

Lemma teardown_drained (obj : ptr) :
  respects (grows_by drained_destroy) (close_obj_teardown obj).
Proof.
  intros w. destruct (heap w !! obj) as [o|] eqn:Hobj.
  - rewrite (close_obj_teardown_eq _ _ _ Hobj).
    destruct (bufInPtr o =? bufOutPtr o) eqn:Hempty; simpl.
    + eexists. split; [reflexivity|]. apply Forall_app. split.
      * destruct (fd o >=? 0); repeat constructor.
      * destruct (type o); repeat constructor.
        -- destruct (torn_down_indices o) as [-> ->]. zbool. exact Hempty.
        -- apply torn_down_fd.
    + apply grows_by_heap.
  - unfold close_obj_teardown, bind, deref. rewrite Hobj. simpl. reflexivity.
Qed.

Lemma teardown_no_abort (obj : ptr) : no_abort (close_obj_teardown obj).
Proof.
  intros w msg. destruct (heap w !! obj) as [o|] eqn:Hobj.
  - rewrite (close_obj_teardown_eq _ _ _ Hobj). destruct (negb _); discriminate.
  - unfold close_obj_teardown, bind, deref. rewrite Hobj. discriminate.
Qed.

Lemma readers_drained (close_rec : ptr -> M unit) (fuel : nat)
    (reader : option ptr) (obj : ptr) :
  (forall p, respects (grows_by drained_destroy) (close_rec p)) ->
  respects (grows_by drained_destroy) (close_obj_readers close_rec fuel reader obj).
Proof.
  intros Hrec. induction fuel as [|fuel IH]; simpl; [apply respects_lift; typeclasses eauto|].
  repeat respects_step; try apply grows_by_store.
  destruct (opt_ptr_eqb reader _); [|apply respects_ret; typeclasses eauto].
  repeat respects_step; try exact IH.
  destruct (opt_ptr_eqb _ _); [|apply respects_ret; typeclasses eauto].
  destruct reader as [rp|]; [|apply respects_lift; typeclasses eauto].
  repeat respects_step; try apply grows_by_store.
  destruct (list_is_empty _); [apply Hrec|apply respects_ret; typeclasses eauto].
Qed.

Lemma readers_no_abort (close_rec : ptr -> M unit) (fuel : nat)
    (reader : option ptr) (obj : ptr) :
  (forall p, no_abort (close_rec p)) ->
  no_abort (close_obj_readers close_rec fuel reader obj).
Proof.
  intros Hrec. induction fuel as [|fuel IH]; simpl; [apply no_abort_fuel|].
  repeat no_abort_step.
  destruct (opt_ptr_eqb reader _); [|apply no_abort_ret].
  repeat no_abort_step; try exact IH.
  destruct (opt_ptr_eqb _ _); [|apply no_abort_ret].
  destruct reader as [rp|]; [|apply no_abort_fault].
  repeat no_abort_step.
  destruct (list_is_empty _); [apply Hrec|apply no_abort_ret].
Qed.

Lemma links_drained (junk : option ptr) (close_rec : ptr -> M unit)
    (fuel : nat) (obj : ptr) :
  (forall p, respects (grows_by drained_destroy) (close_rec p)) ->
  respects (grows_by drained_destroy) (close_obj_links junk close_rec fuel obj).
Proof.
  intros Hrec. unfold close_obj_links.
  apply respects_bind; [typeclasses eauto|apply grows_by_emit; repeat constructor|intros _].
  apply respects_bind; [typeclasses eauto|apply respects_deref; typeclasses eauto|intros o].
  apply respects_bind; [typeclasses eauto| |intros reader; apply readers_drained; exact Hrec].
  destruct (writer o) as [wp|]; [|apply respects_ret; typeclasses eauto].
  apply respects_bind; [typeclasses eauto|apply respects_deref; typeclasses eauto|intros wo].
  destruct (list_delete_first obj (readers wo)); [|apply respects_ret; typeclasses eauto].
  repeat respects_step; try apply grows_by_store.
  destruct (_ && _); [apply Hrec|apply respects_ret; typeclasses eauto].
Qed.

Lemma links_no_abort (junk : option ptr) (close_rec : ptr -> M unit)
    (fuel : nat) (obj : ptr) :
  (forall p, no_abort (close_rec p)) ->
  no_abort (close_obj_links junk close_rec fuel obj).
Proof.
  intros Hrec. unfold close_obj_links.
  apply no_abort_bind; [apply no_abort_emit|intros _].
  apply no_abort_bind; [apply no_abort_deref|intros o].
  apply no_abort_bind; [|intros reader; apply readers_no_abort; exact Hrec].
  destruct (writer o) as [wp|]; [|apply no_abort_ret].
  apply no_abort_bind; [apply no_abort_deref|intros wo].
  destruct (list_delete_first obj (readers wo)); [|apply no_abort_ret].
  repeat no_abort_step.
  destruct (_ && _); [apply Hrec|apply no_abort_ret].
Qed.

Lemma close_obj_drained (junk : option ptr) (fuel : nat) (obj : ptr) :
  respects (grows_by drained_destroy) (close_obj junk fuel obj).
Proof.
  revert obj. induction fuel as [|fuel IH]; intros obj; simpl.
  - apply respects_lift; typeclasses eauto.
  - apply respects_bind; [typeclasses eauto| |intros _; apply teardown_drained].
    apply links_drained. exact IH.
Qed.

Lemma close_obj_no_abort (junk : option ptr) (fuel : nat) (obj : ptr) :
  no_abort (close_obj junk fuel obj).
Proof.
  revert obj. induction fuel as [|fuel IH]; intros obj; simpl.
  - apply no_abort_fuel.
  - apply no_abort_bind; [|intros _; apply teardown_no_abort].
    apply links_no_abort. exact IH.
Qed.

(** *** What the routines leave alone *)

(** [write_obj_data] changes the buffer and its indices only. *)
Lemma write_obj_data_fields (MAX_BUF_SIZE : Z) (obj : obj_t)
    (src : option (list ascii)) (len : Z) (obj' : obj_t) (n : Z)
    (evs : list obj_event) :
  write_obj_data MAX_BUF_SIZE obj src len = Ok (obj', n, evs) ->
  name obj' = name obj /\ fd obj' = fd obj /\ gotEOF obj' = gotEOF obj /\
  writer obj' = writer obj /\ readers obj' = readers obj /\ type obj' = type obj.
Proof.
  unfold write_obj_data.
  destruct src as [src|]; [|intros [= <- _ _]; auto 10].
  destruct (len <=? 0); [intros [= <- _ _]; auto 10|].
  destruct (assert_bounds MAX_BUF_SIZE obj) as [[]| | |]; simpl; try discriminate.
  repeat (split_if; simpl);
    match goal with
    | |- obind (assert_bounds _ ?o) _ = _ -> _ =>
      destruct (assert_bounds MAX_BUF_SIZE o) as [[]| | |]; simpl; try discriminate;
      intros [= <- _ _]; simpl; auto 10
    end.
Qed.

Lemma Forall_any (evs : list event) : Forall any_event evs.
Proof. induction evs; constructor; unfold any_event; auto. Qed.

Lemma grows_weaken (G : event -> Prop) (w w' : world) :
  grows_by G w w' -> grows_by any_event w w'.
Proof. intros (tr & Htr & _). exists tr. split; [exact Htr|apply Forall_any]. Qed.

Lemma write_obj_data_at_grows (MAX_BUF_SIZE : Z) (obj : ptr)
    (src : option (list ascii)) (len : Z) :
  respects (grows_by any_event) (write_obj_data_at MAX_BUF_SIZE obj src len).
Proof.
  unfold write_obj_data_at.
  repeat respects_step; try apply grows_by_store; apply grows_by_emit, Forall_any.
Qed.

Lemma write_obj_data_at_heap (MAX_BUF_SIZE : Z) (obj : ptr)
    (src : option (list ascii)) (len : Z) (w : world) :
  heap (fst (write_obj_data_at MAX_BUF_SIZE obj src len w)) = heap w \/
  exists o o' n evs,
    heap w !! obj = Some o /\
    write_obj_data MAX_BUF_SIZE o src len = Ok (o', n, evs) /\
    heap (fst (write_obj_data_at MAX_BUF_SIZE obj src len w)) = <[obj := o']> (heap w).
Proof.
  unfold write_obj_data_at, bind, emit, deref, lift, store, ret. simpl.
  destruct (heap w !! obj) as [o|] eqn:Ho; simpl; [|auto].
  destruct (write_obj_data MAX_BUF_SIZE o src len) as [[[o' n] evs]| | |] eqn:Hw;
    simpl; auto.
  rewrite Ho. simpl. right. exists o, o', n, evs. auto.
Qed.

Lemma write_obj_data_at_fd (MAX_BUF_SIZE : Z) (obj : ptr)
    (src : option (list ascii)) (len : Z) :
  respects fd_stays_closed (write_obj_data_at MAX_BUF_SIZE obj src len).
Proof.
  intros w p o2 Hp.
  destruct (write_obj_data_at_heap MAX_BUF_SIZE obj src len w)
    as [Hh|(o & o' & n & evs & Ho & Hw & Hh)]; rewrite Hh in Hp; [eauto|].
  destruct (decide (p = obj)) as [->|Hne].
  - rewrite lookup_insert_eq in Hp. injection Hp as <-.
    exists o. split; [exact Ho|].
    destruct (write_obj_data_fields _ _ _ _ _ _ _ Hw) as (_ & -> & _). auto.
  - rewrite lookup_insert_ne in Hp by congruence. eauto.
Qed.

Lemma write_obj_data_at_links (MAX_BUF_SIZE : Z) (obj x : ptr)
    (src : option (list ascii)) (len : Z) :
  respects (links_stay x) (write_obj_data_at MAX_BUF_SIZE obj src len).
Proof.
  intros w.
  destruct (write_obj_data_at_heap MAX_BUF_SIZE obj src len w)
    as [Hh|(o & o' & n & evs & Ho & Hw & Hh)]; unfold links_stay; rewrite Hh.
  { split; intros p o2 Hp; eauto 10. }
  split; intros p o2 Hp.
  - destruct (decide (p = obj)) as [->|Hne].
    + rewrite lookup_insert_eq in Hp. injection Hp as <-.
      exists o. split; [exact Ho|].
      destruct (write_obj_data_fields _ _ _ _ _ _ _ Hw) as (_ & -> & _ & -> & -> & _).
      auto.
    + rewrite lookup_insert_ne in Hp by congruence. eauto 10.
  - destruct (decide (p = obj)) as [->|Hne].
    + rewrite lookup_insert_eq. eauto.
    + rewrite lookup_insert_ne by congruence. eauto.
Qed.

Lemma fd_stays_closed_emit (evs : list event) : respects fd_stays_closed (emit evs).
Proof. intros w p o Hp. simpl in Hp. eauto. Qed.

Lemma fd_stays_closed_store (p : ptr) (f : obj_t -> obj_t) :
  (forall o, fd o < 0 -> fd (f o) < 0) ->
  respects fd_stays_closed (store p f).
Proof.
  intros Hf. apply respects_store; [typeclasses eauto|].
  intros w o Ho q o2 Hq. simpl in Hq.
  destruct (decide (q = p)) as [->|Hne].
  - rewrite lookup_insert_eq in Hq. injection Hq as <-. eauto.
  - rewrite lookup_insert_ne in Hq by congruence. eauto.
Qed.

Lemma fd_stays_closed_free (p : ptr) : respects fd_stays_closed (free p).
Proof.
  apply respects_free; [typeclasses eauto|].
  intros w o Ho q o2 Hq. simpl in Hq.
  apply lookup_delete_Some in Hq as [_ Hq]. eauto.
Qed.

Lemma links_stay_emit (x : ptr) (evs : list event) : respects (links_stay x) (emit evs).
Proof. intros w. split; intros p o Hp; simpl in *; eauto 10. Qed.

Lemma links_stay_set_fd (x : ptr) (v : Z) : respects (links_stay x) (store x (set_fd v)).
Proof.
  apply respects_store; [typeclasses eauto|].
  intros w o Ho. split; intros q o2 Hq; simpl in *.
  - destruct (decide (q = x)) as [->|Hne].
    + rewrite lookup_insert_eq in Hq. injection Hq as <-.
      exists o. simpl. repeat split; auto. congruence.
    + rewrite lookup_insert_ne in Hq by congruence. eauto 10.
  - destruct (decide (q = x)) as [->|Hne].
    + rewrite lookup_insert_eq. eauto.
    + rewrite lookup_insert_ne by congruence. eauto.
Qed.

Ltac respects_case :=
  match goal with
  | |- respects _ (if ?c then _ else _) => destruct c
  | |- respects _ (match ?x with _ => _ end) => destruct x
  end.

Ltac fd_step :=
  first
    [ respects_step
    | respects_case
    | apply fd_stays_closed_emit
    | apply fd_stays_closed_free
    | apply fd_stays_closed_store; intros ?; simpl; lia ].

Lemma destroy_obj_fd (obj : ptr) : respects fd_stays_closed (destroy_obj obj).
Proof. unfold destroy_obj. repeat fd_step. Qed.

Lemma teardown_fd (obj : ptr) : respects fd_stays_closed (close_obj_teardown obj).
Proof.
  unfold close_obj_teardown. repeat first [fd_step | apply destroy_obj_fd].
Qed.

Lemma readers_fd (close_rec : ptr -> M unit) (fuel : nat)
    (reader : option ptr) (obj : ptr) :
  (forall p, respects fd_stays_closed (close_rec p)) ->
  respects fd_stays_closed (close_obj_readers close_rec fuel reader obj).
Proof.
  intros Hrec. induction fuel as [|fuel IH]; simpl;
    repeat first [exact IH | apply Hrec | fd_step].
Qed.

Lemma links_fd (junk : option ptr) (close_rec : ptr -> M unit)
    (fuel : nat) (obj : ptr) :
  (forall p, respects fd_stays_closed (close_rec p)) ->
  respects fd_stays_closed (close_obj_links junk close_rec fuel obj).
Proof.
  intros Hrec. unfold close_obj_links.
  repeat first [apply readers_fd; exact Hrec | apply Hrec | fd_step].
Qed.

Lemma close_obj_fd (junk : option ptr) (fuel : nat) (obj : ptr) :
  respects fd_stays_closed (close_obj junk fuel obj).
Proof.
  revert obj. induction fuel as [|fuel IH]; intros obj; simpl; [repeat fd_step|].
  apply respects_bind; [typeclasses eauto| |intros _; apply teardown_fd].
  apply links_fd. exact IH.
Qed.

Lemma open_obj_links (MAX_BUF_SIZE : Z) (now : string) (sys_open : string -> Z)
    (obj : ptr) :
  respects (links_stay obj) (open_obj MAX_BUF_SIZE now sys_open obj).
Proof.
  unfold open_obj.
  repeat first [ apply write_obj_data_at_links | apply links_stay_emit
               | apply links_stay_set_fd | respects_step | respects_case ].
Qed.

(** A call of [close_obj] that returns has first recorded itself. *)
Lemma close_obj_first_event (junk : option ptr) (fuel : nat) (obj : ptr)
    (w w' : world) :
  close_obj junk fuel obj w = (w', Ok tt) ->
  exists tr, trace w' = trace w ++ EvCloseObj obj :: tr.
Proof.
  destruct fuel as [|fuel]; simpl; [discriminate|].
  intros H. apply bind_ok in H as ([] & w2 & Hlinks & Htear).
  unfold close_obj_links in Hlinks.
  apply bind_ok in Hlinks as ([] & w1 & Hemit & Hrest).
  injection Hemit as <-.
  match type of Hrest with
  | ?tail _ = _ =>
    assert (Htail : respects (grows_by drained_destroy) tail)
  end.
  { repeat first [ apply readers_drained; apply close_obj_drained
                 | apply close_obj_drained | apply grows_by_store
                 | respects_step | respects_case ]. }
  destruct (Htail (add_trace [EvCloseObj obj] w)) as (t1 & Ht1 & _).
  rewrite Hrest in Ht1. simpl in Ht1.
  destruct (teardown_drained obj w2) as (t2 & Ht2 & _).
  rewrite Htear in Ht2. simpl in Ht2.
  exists (t1 ++ t2). rewrite Ht2, Ht1, <- !app_assoc. reflexivity.
Qed.

(** A call of [open_obj] records itself first. *)
Lemma open_obj_first_event (MAX_BUF_SIZE : Z) (now : string)
    (sys_open : string -> Z) (obj : ptr) (w : world) :
  exists tr,
    trace (fst (open_obj MAX_BUF_SIZE now sys_open obj w))
    = trace w ++ EvOpenObj obj :: tr.
Proof.
  unfold open_obj.
  match goal with
  | |- context [bind (emit ?e) ?k] => set (tail := k)
  end.
  assert (Htail : forall u, respects (grows_by any_event) (tail u)).
  { intros u. subst tail. cbv beta.
    repeat first [ apply write_obj_data_at_grows | apply grows_by_store
                 | apply grows_by_emit, Forall_any
                 | respects_step | respects_case ]. }
  unfold bind, emit. cbv beta iota.
  destruct (Htail tt (add_trace [EvOpenObj obj] w)) as (t1 & Ht1 & _).
  exists t1. rewrite Ht1. simpl. rewrite <- app_assoc. reflexivity.
Qed.

(** *** Taking a returned call apart *)

Lemma deref_ok (p : ptr) (w w' : world) (o : obj_t) :
  deref p w = (w', Ok o) -> w' = w /\ heap w !! p = Some o.
Proof.
  unfold deref. destruct (heap w !! p); [|discriminate]. intros [= <- <-]. auto.
Qed.

Lemma store_ok (p : ptr) (f : obj_t -> obj_t) (w w' : world) (u : unit) :
  store p f w = (w', Ok u) ->
  exists o, heap w !! p = Some o /\ w' = set_heap (<[p := f o]> (heap w)) w.
Proof.
  unfold store. destruct (heap w !! p) as [o|]; [|discriminate].
  intros [= <-]. eauto.
Qed.

Lemma lift_ok {A : Type} (r : outcome A) (w w' : world) (a : A) :
  lift r w = (w', Ok a) -> w' = w /\ r = Ok a.
Proof. unfold lift. intros [= <- <-]. auto. Qed.

Lemma write_obj_data_at_ok (MAX_BUF_SIZE : Z) (obj : ptr)
    (src : option (list ascii)) (len : Z) (w w1 : world) (n : Z) :
  write_obj_data_at MAX_BUF_SIZE obj src len w = (w1, Ok n) ->
  exists o o' evs,
    heap w !! obj = Some o /\
    write_obj_data MAX_BUF_SIZE o src len = Ok (o', n, evs) /\
    w1 = mk_world (<[obj := o']> (heap w))
                  (trace w ++ EvWriteObjData obj src len :: map (EvObj obj) evs)
                  (writes w).
Proof.
  unfold write_obj_data_at, bind, emit, deref, lift, store, ret. simpl.
  destruct (heap w !! obj) as [o|] eqn:Ho; simpl; [|discriminate].
  destruct (write_obj_data MAX_BUF_SIZE o src len) as [[[o' n'] evs]| | |] eqn:Hw;
    simpl; try discriminate.
  rewrite Ho. simpl. intros [= <- <-]. exists o, o', evs.
  repeat split; auto. unfold add_trace, set_heap. simpl.
  rewrite <- app_assoc. reflexivity.
Qed.

Lemma open_if_ok (MAX_BUF_SIZE : Z) (now : string) (sys_open : string -> Z)
    (c : bool) (obj : ptr) (w w' : world) :
  (if c then open_obj MAX_BUF_SIZE now sys_open obj ;; ret tt else ret tt) w
  = (w', Ok tt) ->
  links_stay obj w w' /\
  exists t, trace w' = trace w ++ t /\ (c = true -> In (EvOpenObj obj) t).
Proof.
  destruct c.
  - intros H. apply bind_ok in H as (z & w1 & Hopen & Hret).
    injection Hret as <-.
    pose proof (open_obj_links MAX_BUF_SIZE now sys_open obj w) as Hl.
    destruct (open_obj_first_event MAX_BUF_SIZE now sys_open obj w) as (t & Ht).
    rewrite Hopen in Hl, Ht. simpl in Hl, Ht.
    split; [exact Hl|]. exists (EvOpenObj obj :: t). split; [exact Ht|].
    intros _. left. reflexivity.
  - intros [= <-]. split; [reflexivity|]. exists []. rewrite app_nil_r.
    split; [reflexivity|discriminate].
Qed.

(** The EOF drain of the specification: closing a console that still holds
    bytes sets [gotEOF] and keeps the descriptor; the next [write_to_obj],
    having written them, closes it and clears [gotEOF].  The console has no
    writer, so [reader] is read unassigned: the run below has it hold some
    address [p]; had it held [NULL], [close_obj] would have gone on to
    dereference it. *)
Example eof_drain (p : ptr) :
  exists w1 w2,
    close_obj (Some p) 2 pC draining = (w1, Ok tt) /\
    (gotEOF <$> heap w1 !! pC) = Some true /\
    (fd <$> heap w1 !! pC) = Some 5 /\
    trace w1 = [EvCloseObj pC] /\
    write_to_obj 8 (Some p) 2 pC w1 = (w2, Ok tt) /\
    (gotEOF <$> heap w2 !! pC) = Some false /\
    (fd <$> heap w2 !! pC) = Some (-1) /\
    trace w2 = [ EvCloseObj pC;
                 EvObj pC MutexLock; EvObj pC (SysWrite 5 0 3); EvObj pC MutexUnlock;
                 EvCloseObj pC; EvSysClose 5 ].
Proof. do 2 eexists. repeat split; vm_compute; reflexivity. Qed.

Example eof_drain_null :
  snd (close_obj None 2 pC draining) = Fault.
Proof. vm_compute. reflexivity. Qed.

(** *** A steal in a running session returns *)

Lemma list_delete_first_in (x : ptr) (l : list ptr) :
  In x l -> exists rest, list_delete_first x l = Some rest.
Proof.
  induction l as [|y l IH]; simpl; [tauto|].
  intros [->|Hin].
  - rewrite Pos.eqb_refl. eauto.
  - destruct (Pos.eqb y x); [eauto|].
    destruct (IH Hin) as [rest ->]. simpl. eauto.
Qed.

Ltac run_heap :=
  cbn [heap add_trace set_heap trace writes fst snd writer readers fd type
       set_readers set_writer set_gotEOF set_fd opt_ptr_eqb andb list_pop
       list_is_empty].

Lemma close_obj_links_session (junk : option ptr) (close_rec : ptr -> M unit)
    (fuel : nat) (W dst : ptr) (wo d : obj_t) (w : world) :
  heap w !! W = Some wo -> heap w !! dst = Some d -> W <> dst ->
  writer wo = Some dst -> writer d = Some W -> In W (readers d) ->
  head (readers wo) <> Some W ->
  exists w',
    close_obj_links junk close_rec (S fuel) W w = (w', Ok tt) /\
    (forall p, p <> W -> p <> dst -> heap w' !! p = heap w !! p) /\
    (exists d', heap w' !! dst = Some d' /\ type d' = type d /\ fd d' = fd d) /\
    is_Some (heap w' !! W).
Proof.
  intros HW Hdst Hne Hwr Hdw Hin Hhead.
  destruct (list_delete_first_in _ _ Hin) as [rest Hrest].
  unfold close_obj_links. cbn [close_obj_readers].
  unfold bind, emit, deref, store, ret, lift.
  repeat progress (run_heap;
    rewrite ?lookup_insert_eq, ?HW, ?Hwr, ?Hdst, ?Hrest, ?Hdw;
    rewrite ?lookup_insert_ne by congruence).
  assert (Hpop : match head (readers wo) with
                 | Some y => (W =? y)%positive
                 | None => false
                 end = false).
  { destruct (head (readers wo)) as [y|]; [|reflexivity].
    apply Pos.eqb_neq. congruence. }
  rewrite Hpop. eexists. split; [reflexivity|]. run_heap.
  split; [|split].
  - intros p HpW Hpd. rewrite !lookup_insert_ne by congruence. reflexivity.
  - exists (set_readers rest d). rewrite !lookup_insert_ne by congruence.
    rewrite lookup_insert_eq. auto.
  - rewrite lookup_insert_eq. eauto.
Qed.

Lemma close_obj_teardown_returns (obj : ptr) (w : world) :
  is_Some (heap w !! obj) ->
  exists w', close_obj_teardown obj w = (w', Ok tt) /\
    forall p, p <> obj -> heap w' !! p = heap w !! p.
Proof.
  intros [o Hobj]. rewrite (close_obj_teardown_eq _ _ _ Hobj).
  destruct (negb _); eexists; (split; [reflexivity|]); intros p Hne; run_heap.
  - rewrite lookup_insert_ne by congruence. reflexivity.
  - destruct (type o);
      rewrite ?lookup_insert_ne, ?lookup_delete_ne by congruence; reflexivity.
Qed.

Lemma close_obj_session (junk : option ptr) (fuel : nat) (W dst : ptr)
    (wo d : obj_t) (w : world) :
  heap w !! W = Some wo -> heap w !! dst = Some d -> W <> dst ->
  writer wo = Some dst -> writer d = Some W -> In W (readers d) ->
  head (readers wo) <> Some W ->
  exists w',
    close_obj junk (S (S fuel)) W w = (w', Ok tt) /\
    (forall p, p <> W -> p <> dst -> heap w' !! p = heap w !! p) /\
    (exists d', heap w' !! dst = Some d' /\ type d' = type d /\ fd d' = fd d).
Proof.
  intros HW Hdst Hne Hwr Hdw Hin Hhead.
  change (close_obj junk (S (S fuel)) W)
    with (close_obj_links junk (close_obj junk (S fuel)) (S fuel) W ;;
          close_obj_teardown W).
  destruct (close_obj_links_session junk (close_obj junk (S fuel)) fuel W dst wo d w)
    as (w1 & Hlinks & Hframe & (d' & Hd' & Hty & Hfd) & Hlive); auto.
  destruct (close_obj_teardown_returns W w1 Hlive) as (w2 & Htear & Hframe2).
  exists w2. unfold bind. rewrite Hlinks, Htear. split; [reflexivity|]. split.
  - intros p HpW Hpd. rewrite Hframe2 by congruence. auto.
  - exists d'. rewrite Hframe2 by congruence. auto.
Qed.

Lemma open_obj_no_file (MAX_BUF_SIZE : Z) (now : string) (sys_open : string -> Z)
    (obj : ptr) (o : obj_t) (w : world) :
  heap w !! obj = Some o -> type o <> LOGFILE ->
  (if fd o <? 0 then open_obj MAX_BUF_SIZE now sys_open obj ;; ret tt else ret tt) w
  = (add_trace (if fd o <? 0 then [EvOpenObj obj] else []) w, Ok tt).
Proof.
  intros Hobj Hty. destruct (fd o <? 0) eqn:Hfd.
  - unfold open_obj, bind, emit, deref, lift, assert, ret. run_heap.
    rewrite Hobj, Hfd. rewrite Z.geb_leb.
    zbool. rewrite (proj2 (Z.leb_gt 0 (fd o))) by lia.
    destruct (type o); try reflexivity. congruence.
  - unfold ret, add_trace. rewrite app_nil_r. destruct w; reflexivity.
Qed.

(** X11: a steal in a running session returns.  Where the displaced socket
    [W] reads from the console [dst] it writes to, and is not the first of
    its own readers, [create_obj_link] from another socket fails no
    assertion, follows no dangling pointer and comes back. *)
Lemma steal_in_session_returns (MAX_BUF_SIZE : Z) (junk : option ptr)
    (now : string) (sys_open : string -> Z) (fuel : nat) (src dst W : ptr)
    (s d wo : obj_t) (w : world) :
  heap w !! src = Some s -> heap w !! dst = Some d -> heap w !! W = Some wo ->
  type s = SOCKET -> type d = CONSOLE -> type wo = SOCKET ->
  src <> W -> buf_inv MAX_BUF_SIZE wo ->
  writer d = Some W -> writer wo = Some dst -> In W (readers d) ->
  head (readers wo) <> Some W ->
  exists w',
    create_obj_link MAX_BUF_SIZE junk now sys_open (S (S fuel)) src dst w
    = (w', Ok tt).
Proof.
  intros Hs Hd HW Tys Tyd Tyw Hsw Hinv Hdw Hwr Hin Hhead.
  assert (HWd : W <> dst) by (intros ->; congruence).
  assert (Hsd : src <> dst) by (intros ->; congruence).
  destruct (write_obj_data_total MAX_BUF_SIZE wo
              (Some (list_ascii_of_string (stolen_notice now (name d) (name s))))
              (strlen (stolen_notice now (name d) (name s))) Hinv)
    as (wo' & n & evs & Hw).
  destruct (write_obj_data_fields _ _ _ _ _ _ _ Hw) as (_ & _ & _ & Hwr' & Hrd' & _).
  unfold create_obj_link.
  unfold bind at 1, deref at 1. rewrite Hd, Hdw.
  unfold bind at 1.
  assert (Hsteal : exists w2,
    (s0 <- deref src ;;
     lift (assert (obj_type_eqb (type s0) SOCKET) "src->type == SOCKET") ;;
     lift (assert (obj_type_eqb (type d) CONSOLE) "dst->type == CONSOLE") ;;
     wo0 <- deref W ;;
     lift (assert (obj_type_eqb (type wo0) SOCKET) "dst->writer->type == SOCKET") ;;
     write_obj_data_at MAX_BUF_SIZE W
       (Some (list_ascii_of_string (stolen_notice now (name d) (name s0))))
       (strlen (stolen_notice now (name d) (name s0))) ;;
     close_obj junk (S (S fuel)) W) w = (w2, Ok tt) /\
    heap w2 !! src = Some s /\
    exists d', heap w2 !! dst = Some d' /\ type d' = CONSOLE /\ fd d' = fd d).
  { unfold bind at 1, deref at 1. rewrite Hs.
    unfold bind at 1, lift at 1, assert at 1. rewrite Tys. cbn [obj_type_eqb].
    unfold bind at 1, lift at 1, assert at 1. rewrite Tyd. cbn [obj_type_eqb].
    unfold bind at 1, deref at 1. rewrite HW.
    unfold bind at 1, lift at 1, assert at 1. rewrite Tyw. cbn [obj_type_eqb].
    unfold bind at 1.
    unfold write_obj_data_at, bind, emit, deref, lift, store, ret. run_heap.
    rewrite HW, Hw. run_heap. rewrite HW.
    match goal with
    | |- context [close_obj junk (S (S fuel)) W ?w1] =>
      destruct (close_obj_session junk fuel W dst wo' d w1)
        as (w2 & Hclose & Hframe & (d' & Hd' & Hty & Hfd))
    end; run_heap;
      rewrite ?lookup_insert_eq, ?lookup_insert_ne by congruence;
      try congruence.
    exists w2. split; [exact Hclose|]. split.
    - rewrite Hframe by congruence. run_heap.
      rewrite lookup_insert_ne by congruence. exact Hs.
    - exists d'. split; [exact Hd'|]. split; congruence. }
  destruct Hsteal as (w2 & -> & Hs2 & d' & Hd2 & Tyd' & Hfd').
  unfold bind at 1, store at 1. rewrite Hd2.
  unfold bind at 1, deref at 1. run_heap.
  rewrite lookup_insert_ne by congruence. rewrite Hs2.
  unfold bind at 1, store at 1. run_heap.
  rewrite lookup_insert_ne by congruence. rewrite Hs2.
  unfold bind at 1, deref at 1. run_heap. rewrite lookup_insert_eq.
  unfold bind at 1.
  erewrite open_obj_no_file;
    [|run_heap; apply lookup_insert_eq|simpl; congruence].
  unfold bind at 1, deref at 1. run_heap.
  rewrite lookup_insert_ne by congruence. rewrite lookup_insert_eq.
  erewrite open_obj_no_file; [eauto| |simpl; congruence].
  run_heap. rewrite lookup_insert_ne by congruence. apply lookup_insert_eq.
Qed.

Lemma steal_in_session_returns_witness :
  exists w', create_obj_link 8 None a_time open9 (S (S 0)) pS2 pC session = (w', Ok tt).
Proof.
  apply (steal_in_session_returns 8 None a_time open9 0 pS2 pC pS1 objS2 objC objS1);
    try reflexivity.
  - discriminate.
  - unfold buf_inv; simpl; lia.
  - simpl. right. left. reflexivity.
  - simpl. discriminate.
Defined.

(** *** The indices of every live object stay within bounds *)

Section HeapBounds.

Variable MAX_BUF_SIZE : Z.

#[local] Instance keeps_bounds_preorder : PreOrder (keeps_bounds MAX_BUF_SIZE).
Proof. split; unfold keeps_bounds; [intros w; auto|intros a b c; auto]. Qed.

Lemma keeps_bounds_emit (evs : list event) :
  respects (keeps_bounds MAX_BUF_SIZE) (emit evs).
Proof. intros w Hb p o Hp. simpl in Hp. eauto. Qed.

Lemma keeps_bounds_store (p : ptr) (f : obj_t -> obj_t) :
  (forall o, bufInPtr (f o) = bufInPtr o /\ bufOutPtr (f o) = bufOutPtr o) ->
  respects (keeps_bounds MAX_BUF_SIZE) (store p f).
Proof.
  intros Hf. apply respects_store; [typeclasses eauto|].
  intros w o Ho Hb q o2 Hq. simpl in Hq.
  destruct (decide (q = p)) as [->|Hne].
  - rewrite lookup_insert_eq in Hq. injection Hq as <-.
    unfold buf_inv. destruct (Hf o) as [-> ->]. exact (Hb _ _ Ho).
  - rewrite lookup_insert_ne in Hq by congruence. eauto.
Qed.

Lemma keeps_bounds_free (p : ptr) : respects (keeps_bounds MAX_BUF_SIZE) (free p).
Proof.
  apply respects_free; [typeclasses eauto|].
  intros w o Ho Hb q o2 Hq. simpl in Hq.
  apply lookup_delete_Some in Hq as [_ Hq]. eauto.
Qed.

Lemma write_obj_data_at_bounds (obj : ptr) (src : option (list ascii)) (len : Z) :
  respects (keeps_bounds MAX_BUF_SIZE) (write_obj_data_at MAX_BUF_SIZE obj src len).
Proof.
  intros w Hb p o2 Hp.
  destruct (write_obj_data_at_heap MAX_BUF_SIZE obj src len w)
    as [Hh|(o & o' & n & evs & Ho & Hw & Hh)]; rewrite Hh in Hp; [eauto|].
  destruct (decide (p = obj)) as [->|Hne].
  - rewrite lookup_insert_eq in Hp. injection Hp as <-.
    eapply write_obj_data_returns_inv; eauto.
  - rewrite lookup_insert_ne in Hp by congruence. eauto.
Qed.

Ltac bounds_step :=
  first
    [ apply write_obj_data_at_bounds
    | apply keeps_bounds_emit
    | apply keeps_bounds_free
    | apply keeps_bounds_store; intros ?; split; reflexivity
    | respects_step
    | respects_case ].

Lemma close_obj_readers_bounds (close_rec : ptr -> M unit) (fuel : nat)
    (reader : option ptr) (obj : ptr) :
  (forall p, respects (keeps_bounds MAX_BUF_SIZE) (close_rec p)) ->
  respects (keeps_bounds MAX_BUF_SIZE) (close_obj_readers close_rec fuel reader obj).
Proof.
  intros Hrec. induction fuel as [|fuel IH]; simpl;
    repeat first [exact IH | apply Hrec | bounds_step].
Qed.

Lemma close_obj_bounds (junk : option ptr) (fuel : nat) (obj : ptr) :
  respects (keeps_bounds MAX_BUF_SIZE) (close_obj junk fuel obj).
Proof.
  revert obj. induction fuel as [|fuel IH]; intros obj; simpl; [repeat bounds_step|].
  unfold close_obj_links, close_obj_teardown, destroy_obj.
  repeat first [apply close_obj_readers_bounds; exact IH | apply IH | bounds_step].
Qed.

Lemma open_obj_bounds (now : string) (sys_open : string -> Z) (obj : ptr) :
  respects (keeps_bounds MAX_BUF_SIZE) (open_obj MAX_BUF_SIZE now sys_open obj).
Proof. unfold open_obj. repeat bounds_step. Qed.

Lemma create_obj_link_bounds (junk : option ptr) (now : string)
    (sys_open : string -> Z) (fuel : nat) (src dst : ptr) :
  respects (keeps_bounds MAX_BUF_SIZE)
           (create_obj_link MAX_BUF_SIZE junk now sys_open fuel src dst).
Proof.
  unfold create_obj_link.
  repeat first [apply close_obj_bounds | apply open_obj_bounds | bounds_step].
Qed.

Lemma write_to_obj_bounds (junk : option ptr) (fuel : nat) (obj : ptr) :
  respects (keeps_bounds MAX_BUF_SIZE) (write_to_obj MAX_BUF_SIZE junk fuel obj).
Proof.
  intros w Hb. unfold write_to_obj, bind at 1, deref.
  destruct (heap w !! obj) as [o|] eqn:Ho; [|exact Hb].
  unfold bind at 1, lift, assert.
  destruct (fd o >=? 0); [|exact Hb].
  destruct (fd o <? 0); [exact Hb|].
  unfold bind at 1.
  destruct (write_to_obj_locked MAX_BUF_SIZE (writes w) o) as [[[o' evs] rets']| | |] eqn:Hl;
    try exact Hb.
  unfold bind at 1. cbn [fst snd].
  unfold bind at 1, store. cbn [heap set_writes]. rewrite Ho.
  match goal with
  | |- heap_bounds _ (fst (bind (emit ?e) ?k ?w1)) =>
    assert (Hk : respects (keeps_bounds MAX_BUF_SIZE) (bind (emit e) k));
      [|apply (Hk w1)]
  end.
  - repeat first [apply close_obj_bounds | bounds_step].
  - intros q o2 Hq. cbn [heap set_heap] in Hq.
    destruct (decide (q = obj)) as [->|Hne].
    + rewrite lookup_insert_eq in Hq. injection Hq as <-.
      eapply write_to_obj_locked_returns_inv; eauto.
    + rewrite lookup_insert_ne in Hq by congruence. eauto.
Qed.

End HeapBounds.

(** C2: in every reachable state of an object both indices lie in
    [0, MAX_BUF_SIZE), the buffer holds no byte exactly when
    [bufInPtr = bufOutPtr], hence at most [MAX_BUF_SIZE - 1] bytes;
    [write_obj_data] returns on every input with the indices within bounds;
    [write_to_obj] leaves its locked region with the indices within bounds
    whatever [write(2)] answers, none of its bound assertions failing when
    [write(2)] reports no more than it was given; and on the object graph
    [write_obj_data], [write_to_obj], [close_obj] and [create_obj_link] keep
    the indices of every live object within bounds, however they end. *)
Theorem buffer_bounds (MAX_BUF_SIZE : Z) :
  0 < MAX_BUF_SIZE ->
  (forall obj, reachable MAX_BUF_SIZE obj ->
     buf_inv MAX_BUF_SIZE obj /\
     (buf_used MAX_BUF_SIZE obj = 0 <-> bufInPtr obj = bufOutPtr obj) /\
     buf_used MAX_BUF_SIZE obj <= MAX_BUF_SIZE - 1) /\
  (forall obj src len, buf_inv MAX_BUF_SIZE obj ->
     exists obj' n evs,
       write_obj_data MAX_BUF_SIZE obj src len = Ok (obj', n, evs) /\
       buf_inv MAX_BUF_SIZE obj') /\
  (forall obj rets, buf_inv MAX_BUF_SIZE obj ->
     (forall obj' evs rets',
        write_to_obj_locked MAX_BUF_SIZE rets obj = Ok (obj', evs, rets') ->
        buf_inv MAX_BUF_SIZE obj') /\
     (Forall (posix_write (write_avail MAX_BUF_SIZE obj)) rets ->
      match write_to_obj_locked MAX_BUF_SIZE rets obj with
      | Ok (obj', _, _) => buf_inv MAX_BUF_SIZE obj'
      | Abort msg => msg = "write error"%string
      | Fault => False
      | OutOfFuel => Forall (fun r => ret_n r < 0 /\ ret_errno r = EINTR) rets
      end)) /\
  (forall junk now sys_open fuel p q src len w,
     heap_bounds MAX_BUF_SIZE w ->
     heap_bounds MAX_BUF_SIZE (fst (write_obj_data_at MAX_BUF_SIZE p src len w)) /\
     heap_bounds MAX_BUF_SIZE (fst (write_to_obj MAX_BUF_SIZE junk fuel p w)) /\
     heap_bounds MAX_BUF_SIZE (fst (close_obj junk fuel p w)) /\
     heap_bounds MAX_BUF_SIZE
       (fst (create_obj_link MAX_BUF_SIZE junk now sys_open fuel p q w))).
Proof.
  intros Hpos. split; [|split; [|split]].
  - intros obj Hr. pose proof (reachable_inv MAX_BUF_SIZE obj Hpos Hr) as Hinv.
    destruct (buf_used_facts _ _ Hinv) as [Hiff [_ Hle]]. auto.
  - intros obj src len Hinv.
    destruct (write_obj_data_total MAX_BUF_SIZE obj src len Hinv) as (obj' & n & evs & Hw).
    exists obj', n, evs. split; [exact Hw|].
    eapply write_obj_data_returns_inv; eauto.
  - intros obj rets Hinv. split.
    + intros obj' evs rets'. apply write_to_obj_locked_returns_inv.
    + apply write_to_obj_locked_inv; assumption.
  - intros junk now sys_open fuel p q src len w Hb. split; [|split; [|split]].
    + apply (write_obj_data_at_bounds MAX_BUF_SIZE p src len w Hb).
    + apply (write_to_obj_bounds MAX_BUF_SIZE junk fuel p w Hb).
    + apply (close_obj_bounds MAX_BUF_SIZE junk fuel p w Hb).
    + apply (create_obj_link_bounds MAX_BUF_SIZE junk now sys_open fuel p q w Hb).
Qed.

Lemma buffer_bounds_witness :
  buf_inv 8 (create_obj [] "u@h" SOCKET).
Proof.
  apply (proj1 (buffer_bounds 8 ltac:(lia))). apply reach_create.
Defined.

(** ** Further properties of the objects *)

(** *** The buffer as a queue *)

Lemma write_obj_data_clamp (MAX_BUF_SIZE : Z) (obj : obj_t) (src : list ascii)
    (len : Z) :
  2 <= MAX_BUF_SIZE -> MAX_BUF_SIZE <= len ->
  write_obj_data MAX_BUF_SIZE obj (Some src) len
  = write_obj_data MAX_BUF_SIZE obj (Some src) (MAX_BUF_SIZE - 1).
Proof.
  intros Hmax Hlen. unfold write_obj_data.
  rewrite !(proj2 (Z.leb_gt _ _)) by lia.
  rewrite !Z.geb_leb.
  rewrite (proj2 (Z.leb_le MAX_BUF_SIZE len)) by lia.
  rewrite (proj2 (Z.leb_gt MAX_BUF_SIZE (MAX_BUF_SIZE - 1))) by lia.
  reflexivity.
Qed.

(** X1: [write_obj_data] keeps the newest bytes.  It takes the first
    [min len (MAX_BUF_SIZE - 1)] bytes of [src], returns that count, and
    afterwards the buffer, read in FIFO order, gives the last
    [MAX_BUF_SIZE - 1] bytes of what it held followed by the bytes taken:
    nothing is lost while there is room, and the oldest bytes go first when
    there is not.  (The write that brings the buffer to exactly
    [MAX_BUF_SIZE] bytes is the exception.) *)
Theorem write_obj_data_keeps_newest (MAX_BUF_SIZE : Z) (obj : obj_t)
    (src : list ascii) (len : Z) :
  buf_inv MAX_BUF_SIZE obj ->
  length (buf obj) = Z.to_nat MAX_BUF_SIZE ->
  2 <= MAX_BUF_SIZE -> 1 <= len ->
  (Z.to_nat (Z.min len (MAX_BUF_SIZE - 1)) <= length src)%nat ->
  buf_used MAX_BUF_SIZE obj + Z.min len (MAX_BUF_SIZE - 1) <> MAX_BUF_SIZE ->
  exists obj' evs,
    write_obj_data MAX_BUF_SIZE obj (Some src) len
    = Ok (obj', Z.min len (MAX_BUF_SIZE - 1), evs) /\
    buf_content MAX_BUF_SIZE obj'
    = last_bytes (MAX_BUF_SIZE - 1)
        (buf_content MAX_BUF_SIZE obj
         ++ take (Z.to_nat (Z.min len (MAX_BUF_SIZE - 1))) src) /\
    length (buf obj') = Z.to_nat MAX_BUF_SIZE.
Proof.
  intros Hinv Hbuf Hmax Hlen Hsrc Hfill.
  destruct (Z_lt_le_dec len MAX_BUF_SIZE) as [Hlt|Hge].
  - rewrite Z.min_l in * by lia. apply write_obj_data_fifo; auto; lia.
  - rewrite Z.min_r in * by lia. rewrite write_obj_data_clamp by lia.
    apply write_obj_data_fifo; auto; lia.
Qed.

Lemma write_obj_data_keeps_newest_witness :
  exists obj' evs,
    write_obj_data 8 wrapped8 (Some (bytes "abcdefghijk")) 11
    = Ok (obj', Z.min 11 (8 - 1), evs) /\
    buf_content 8 obj'
    = last_bytes (8 - 1)
        (buf_content 8 wrapped8 ++ take (Z.to_nat (Z.min 11 (8 - 1))) (bytes "abcdefghijk")) /\
    length (buf obj') = Z.to_nat 8.
Proof.
  apply write_obj_data_keeps_newest.
  - unfold buf_inv; simpl; lia.
  - reflexivity.
  - lia.
  - lia.
  - simpl; lia.
  - vm_compute; discriminate.
Defined.

(** X3: [write_to_obj] hands the oldest bytes to [write(2)] and forgets
    exactly those it took.  When the call answers [n] with
    [0 < n <= avail], the run offered is the beginning of the buffer's
    contents in FIFO order, the contents afterwards are the former ones
    without their first [n] bytes, and no byte of [buf] is changed. *)
Theorem write_to_obj_takes_oldest (MAX_BUF_SIZE : Z) (obj : obj_t)
    (r : sys_ret) (rets : list sys_ret) :
  buf_inv MAX_BUF_SIZE obj ->
  length (buf obj) = Z.to_nat MAX_BUF_SIZE ->
  0 < ret_n r <= write_avail MAX_BUF_SIZE obj ->
  exists obj',
    write_to_obj_locked MAX_BUF_SIZE (r :: rets) obj
    = Ok (obj',
          [MutexLock;
           SysWrite (fd obj) (bufOutPtr obj) (write_avail MAX_BUF_SIZE obj);
           MutexUnlock],
          rets) /\
    take (Z.to_nat (write_avail MAX_BUF_SIZE obj))
         (drop (Z.to_nat (bufOutPtr obj)) (buf obj))
    = take (Z.to_nat (write_avail MAX_BUF_SIZE obj)) (buf_content MAX_BUF_SIZE obj) /\
    buf_content MAX_BUF_SIZE obj'
    = drop (Z.to_nat (ret_n r)) (buf_content MAX_BUF_SIZE obj) /\
    buf_used MAX_BUF_SIZE obj' = buf_used MAX_BUF_SIZE obj - ret_n r /\
    buf obj' = buf obj.
Proof.
  intros Hinv Hbuf Hn. unfold write_to_obj_locked.
  rewrite (assert_bounds_ok _ _ Hinv). simpl obind.
  rewrite Z.gtb_ltb, (proj2 (Z.ltb_lt _ _)) by lia.
  cbn [write_again].
  rewrite (proj2 (Z.ltb_ge _ _)) by lia.
  rewrite Z.gtb_ltb, (proj2 (Z.ltb_lt 0 (ret_n r))) by lia.
  destruct Hinv as [[Hi0 Hi1] [Ho0 Ho1]].
  destruct obj as [nm d eof b i o wr rd ty]. destruct r as [n e].
  unfold write_avail, buf_used, buf_content in *. simpl in *.
  destruct (Z_of_nat_complete i Hi0) as [i' ->].
  destruct (Z_of_nat_complete o Ho0) as [o' ->].
  destruct (Z_of_nat_complete n ltac:(lia)) as [n' ->].
  destruct (Z_of_nat_complete MAX_BUF_SIZE ltac:(lia)) as [N ->].
  rewrite !Nat2Z.id in *.
  destruct (Z.of_nat i' >=? Z.of_nat o') eqn:Hcmp; zbool;
  repeat (split_if; simpl in *; zbool; try lia);
    unfold assert;
    repeat (split_if; simpl in *; zbool; try lia);
    eexists; (split; [reflexivity|]); simpl;
    rewrite ?Z.geb_leb;
    repeat (split_if; simpl in *; zbool; try lia).
  all: to_nat_goal.
  all: split; [|split; [|split; [lia|reflexivity]]].
  all: apply list_eq; intros k; lookup_norm.
  all: prune.
  all: lookup_leaf.
Qed.

Lemma write_to_obj_takes_oldest_witness :
  exists obj',
    write_to_obj_locked 8 (mk_ret 2 EINTR :: []) wrapped8
    = Ok (obj',
          [MutexLock; SysWrite (fd wrapped8) (bufOutPtr wrapped8) (write_avail 8 wrapped8);
           MutexUnlock], []) /\
    take (Z.to_nat (write_avail 8 wrapped8))
         (drop (Z.to_nat (bufOutPtr wrapped8)) (buf wrapped8))
    = take (Z.to_nat (write_avail 8 wrapped8)) (buf_content 8 wrapped8) /\
    buf_content 8 obj' = drop (Z.to_nat (ret_n (mk_ret 2 EINTR))) (buf_content 8 wrapped8) /\
    buf_used 8 obj' = buf_used 8 wrapped8 - ret_n (mk_ret 2 EINTR) /\
    buf obj' = buf wrapped8.
Proof.
  apply write_to_obj_takes_oldest.
  - unfold buf_inv; simpl; lia.
  - reflexivity.
  - vm_compute. split; [reflexivity|discriminate].
Defined.

(** X4: two calls of [write_to_obj] are enough to empty a buffer.  When
    [write(2)] takes all it is offered, the first call leaves the buffer
    empty or with the part that had wrapped round, the second call empties
    it, and the two runs offered add up to the bytes the buffer held. *)
Theorem write_to_obj_drains (MAX_BUF_SIZE : Z) (obj : obj_t)
    (e1 e2 : errno_t) (rets : list sys_ret) :
  buf_inv MAX_BUF_SIZE obj ->
  bufInPtr obj <> bufOutPtr obj ->
  exists obj1 evs1,
    write_to_obj_locked MAX_BUF_SIZE
      (mk_ret (write_avail MAX_BUF_SIZE obj) e1 :: rets) obj
    = Ok (obj1, evs1, rets) /\
    write_avail MAX_BUF_SIZE obj + write_avail MAX_BUF_SIZE obj1
    = buf_used MAX_BUF_SIZE obj /\
    (bufInPtr obj1 = bufOutPtr obj1 \/
     exists obj2 evs2,
       write_to_obj_locked MAX_BUF_SIZE
         (mk_ret (write_avail MAX_BUF_SIZE obj1) e2 :: rets) obj1
       = Ok (obj2, evs2, rets) /\
       bufInPtr obj2 = bufOutPtr obj2).
Proof.
  intros Hinv Hne.
  pose proof (write_avail_pos _ _ Hinv Hne) as Hpos.
  unfold write_to_obj_locked.
  rewrite (assert_bounds_ok _ _ Hinv). simpl obind.
  rewrite Z.gtb_ltb, (proj2 (Z.ltb_lt _ _) Hpos).
  cbn [write_again ret_n].
  rewrite (proj2 (Z.ltb_ge _ _)) by lia.
  destruct Hinv as [[Hi0 Hi1] [Ho0 Ho1]].
  destruct obj as [nm d eof b i o wr rd ty].
  unfold write_avail, buf_used in *. simpl in *.
  destruct (i >=? o) eqn:Hcmp; zbool.
  - (* no wrap: one call empties the buffer *)
    repeat (split_if; simpl in *; zbool; try lia).
    unfold assert.
    repeat (split_if; simpl in *; zbool; try lia).
    do 2 eexists. split; [reflexivity|]. simpl.
    rewrite ?Z.geb_leb.
    repeat (split_if; simpl in *; zbool; try lia).
  - (* the data wraps: the first call takes it to the end of the buffer *)
    rewrite (proj2 (Z.eqb_eq (o + (MAX_BUF_SIZE - o)) MAX_BUF_SIZE)) by lia.
    simpl. unfold assert. simpl.
    rewrite (proj2 (Z.ltb_lt 0 MAX_BUF_SIZE)) by lia. simpl.
    do 2 eexists. split; [reflexivity|]. simpl.
    rewrite Z.geb_leb, (proj2 (Z.leb_le 0 i)) by lia.
    split; [lia|].
    destruct (Z.eq_dec i 0) as [->|Hi]; [left; reflexivity|right].
    unfold assert_bounds, assert. simpl.
    rewrite (proj2 (Z.leb_le 0 i)), (proj2 (Z.ltb_lt i MAX_BUF_SIZE)),
            (proj2 (Z.ltb_lt 0 MAX_BUF_SIZE)) by lia.
    simpl.
    rewrite Z.gtb_ltb, (proj2 (Z.ltb_lt 0 (i - 0))) by lia.
    cbn [write_again ret_n].
    rewrite (proj2 (Z.ltb_ge (i - 0) 0)) by lia.
    rewrite (proj2 (Z.eqb_neq (0 + (i - 0)) MAX_BUF_SIZE)) by lia. simpl.
    rewrite (proj2 (Z.leb_le 0 (0 + (i - 0)))),
            (proj2 (Z.ltb_lt (0 + (i - 0)) MAX_BUF_SIZE)) by lia.
    simpl. do 2 eexists. split; [reflexivity|]. simpl. lia.
Qed.

Lemma write_to_obj_drains_witness :
  exists obj1 evs1,
    write_to_obj_locked 8 (mk_ret (write_avail 8 wrapped8) EINTR :: []) wrapped8
    = Ok (obj1, evs1, []) /\
    write_avail 8 wrapped8 + write_avail 8 obj1 = buf_used 8 wrapped8 /\
    (bufInPtr obj1 = bufOutPtr obj1 \/
     exists obj2 evs2,
       write_to_obj_locked 8 (mk_ret (write_avail 8 obj1) EINTR :: []) obj1
       = Ok (obj2, evs2, []) /\
       bufInPtr obj2 = bufOutPtr obj2).
Proof.
  apply write_to_obj_drains.
  - unfold buf_inv; simpl; lia.
  - simpl; lia.
Defined.

(** *** Reading from an object *)

Lemma elem_of_cons_ne (p q : ptr) (rs : list ptr) :
  p <> q -> bool_decide (p ∈ q :: rs) = bool_decide (p ∈ rs).
Proof.
  intros Hne. apply bool_decide_ext. rewrite elem_of_cons.
  split; [intros [?|?]; [contradiction|assumption]|auto].
Qed.

Lemma read_from_obj_entered (MAX_BUF_SIZE : Z) (junk : option ptr)
    (sys_time : Z) (fuel : nat) (reads : list read_ret) (obj : ptr)
    (o : obj_t) (w : world) :
  heap w !! obj = Some o -> 0 <= fd o ->
  read_from_obj MAX_BUF_SIZE junk sys_time fuel reads obj w
  = read_again MAX_BUF_SIZE junk sys_time fuel reads obj w.
Proof.
  intros Ho Hfd. unfold read_from_obj, bind, deref, lift, assert. rewrite Ho.
  rewrite Z.geb_leb, (proj2 (Z.leb_le 0 (fd o)) Hfd).
  rewrite (proj2 (Z.ltb_ge (fd o) 0)) by lia. reflexivity.
Qed.

Lemma read_from_obj_readers_feeds (MAX_BUF_SIZE : Z) (data : list ascii) (n : Z)
    (rs : list ptr) (w : world) :
  heap_bounds MAX_BUF_SIZE w -> NoDup rs ->
  Forall (fun p => is_Some (heap w !! p)) rs ->
  exists w',
    read_from_obj_readers MAX_BUF_SIZE rs data n w = (w', Ok tt) /\
    (forall p x, heap w !! p = Some x ->
       if bool_decide (p ∈ rs) && negb (gotEOF x)
       then exists x' n' evs,
              write_obj_data MAX_BUF_SIZE x (Some data) n = Ok (x', n', evs) /\
              heap w' !! p = Some x'
       else heap w' !! p = Some x) /\
    (forall p, heap w !! p = None -> heap w' !! p = None).
Proof.
  revert w. induction rs as [|reader rs IH]; intros w Hb Hnd Hlive.
  { exists w. split; [reflexivity|]. split; [|auto].
    intros p x Hp. rewrite bool_decide_eq_false_2 by apply not_elem_of_nil. exact Hp. }
  apply NoDup_cons in Hnd as [Hnotin Hnd].
  apply Forall_cons in Hlive as [[r0 Hr0] Hlive].
  cbn [read_from_obj_readers]. unfold bind at 1. unfold deref at 1. rewrite Hr0.
  destruct (gotEOF r0) eqn:Heof; cbn [negb].
  - (* the reader has got EOF: it is passed over *)
    unfold bind at 1. unfold ret at 1.
    destruct (IH w Hb Hnd Hlive) as (w' & Hrun & Hfed & Hnone).
    exists w'. split; [exact Hrun|]. split; [|exact Hnone].
    intros p x Hp. destruct (decide (p = reader)) as [->|Hne].
    + assert (x = r0) as -> by congruence.
      rewrite Heof, andb_false_r.
      specialize (Hfed reader r0 Hp).
      rewrite bool_decide_eq_false_2 in Hfed by exact Hnotin. exact Hfed.
    + specialize (Hfed p x Hp).
      rewrite elem_of_cons_ne by exact Hne.
      exact Hfed.
  - destruct (write_obj_data_total MAX_BUF_SIZE r0 (Some data) n (Hb _ _ Hr0))
      as (x' & n' & evs & Hw).
    assert (Hat : write_obj_data_at MAX_BUF_SIZE reader (Some data) n w
                  = (mk_world (<[reader := x']> (heap w))
                       (trace w ++ EvWriteObjData reader (Some data) n
                                :: map (EvObj reader) evs)
                       (writes w), Ok n')).
    { unfold write_obj_data_at, bind, emit, deref, lift, store, ret.
      cbn [heap add_trace]. rewrite Hr0, Hw. cbn [heap add_trace fst snd].
      rewrite Hr0. unfold add_trace, set_heap. cbn [heap trace writes].
      rewrite <- app_assoc. reflexivity. }
    unfold bind at 1. unfold bind at 1. rewrite Hat. unfold ret at 1.
    match goal with
    | |- context [read_from_obj_readers _ _ _ _ ?w1] => set (w1' := w1)
    end.
    assert (Hb1 : heap_bounds MAX_BUF_SIZE w1').
    { intros p x Hp. subst w1'. simpl in Hp.
      destruct (decide (p = reader)) as [->|Hne].
      - rewrite lookup_insert_eq in Hp. injection Hp as <-.
        eapply write_obj_data_returns_inv; [exact (Hb _ _ Hr0)|exact Hw].
      - rewrite lookup_insert_ne in Hp by congruence. eauto. }
    assert (Hlive1 : Forall (fun p => is_Some (heap w1' !! p)) rs).
    { eapply Forall_impl; [exact Hlive|]. intros p Hp. subst w1'. simpl.
      destruct (decide (p = reader)) as [->|Hne].
      - rewrite lookup_insert_eq. eauto.
      - rewrite lookup_insert_ne by congruence. exact Hp. }
    destruct (IH w1' Hb1 Hnd Hlive1) as (w' & Hrun & Hfed & Hnone).
    exists w'. split; [exact Hrun|]. split.
    + intros p x Hp. destruct (decide (p = reader)) as [->|Hne].
      * assert (x = r0) as -> by congruence.
        rewrite Heof, bool_decide_eq_true_2 by (apply elem_of_cons; left; reflexivity). simpl.
        exists x', n', evs. split; [exact Hw|].
        assert (Hx' : heap w1' !! reader = Some x')
          by (subst w1'; simpl; apply lookup_insert_eq).
        specialize (Hfed reader x' Hx').
        rewrite bool_decide_eq_false_2 in Hfed by exact Hnotin. exact Hfed.
      * assert (Hx : heap w1' !! p = Some x)
          by (subst w1'; simpl; rewrite lookup_insert_ne by congruence; exact Hp).
        specialize (Hfed p x Hx).
        rewrite elem_of_cons_ne by exact Hne.
        exact Hfed.
    + intros p Hp. apply Hnone. subst w1'. simpl.
      destruct (decide (p = reader)) as [->|Hne]; [congruence|].
      rewrite lookup_insert_ne by congruence. exact Hp.
Qed.

(** X5: data read from an object goes to each of its readers once.  When
    [read(2)] gives [n > 0] bytes, [read_from_obj] returns, every reader
    that has not got EOF has had exactly one [write_obj_data] of those bytes,
    and the readers that have got EOF, the object read from and all other
    objects are as they were. *)
Theorem read_from_obj_fan_out (MAX_BUF_SIZE : Z) (junk : option ptr)
    (sys_time : Z) (fuel : nat) (r : read_ret) (reads : list read_ret)
    (obj : ptr) (o : obj_t) (w : world) :
  heap w !! obj = Some o -> 0 <= fd o ->
  (type o = SOCKET -> sys_time <> -1) ->
  0 < ret_n (rd_ret r) ->
  heap_bounds MAX_BUF_SIZE w -> NoDup (readers o) ->
  Forall (fun p => is_Some (heap w !! p)) (readers o) ->
  exists w',
    read_from_obj MAX_BUF_SIZE junk sys_time fuel (r :: reads) obj w = (w', Ok tt) /\
    (forall p x, heap w !! p = Some x ->
       if bool_decide (p ∈ readers o) && negb (gotEOF x)
       then exists x' n' evs,
              write_obj_data MAX_BUF_SIZE x (Some (rd_data r)) (ret_n (rd_ret r))
              = Ok (x', n', evs) /\
              heap w' !! p = Some x'
       else heap w' !! p = Some x) /\
    (forall p, heap w !! p = None -> heap w' !! p = None).
Proof.
  intros Ho Hfd Htime Hn Hb Hnd Hlive.
  rewrite (read_from_obj_entered _ _ _ _ _ _ _ _ Ho Hfd).
  cbn [read_again].
  rewrite (proj2 (Z.ltb_ge _ _)) by lia.
  rewrite (proj2 (Z.eqb_neq _ _)) by lia.
  unfold bind at 1. unfold deref at 1. rewrite Ho.
  assert (Hlen : (if obj_type_eqb (type o) SOCKET
                  then if sys_time =? -1
                       then lift (Abort "time() failed -- What time is it?")
                       else ret (parse_buf_for_control (Some (rd_data r))
                                   (ret_n (rd_ret r)))
                  else ret (ret_n (rd_ret r))) w
                 = (w, Ok (ret_n (rd_ret r)))).
  { destruct (type o) eqn:Hty; simpl; try reflexivity.
    rewrite (proj2 (Z.eqb_neq _ _)) by auto.
    unfold parse_buf_for_control. destruct (_ <=? _); reflexivity. }
  unfold bind at 1. rewrite Hlen.
  unfold bind at 1. unfold deref at 1. rewrite Ho.
  apply read_from_obj_readers_feeds; assumption.
Qed.

Lemma read_from_obj_fan_out_witness :
  exists w',
    read_from_obj 8 None 1000 2 (mk_read (mk_ret 3 EINTR) (bytes "abc") :: []) pC
      session_log_eof = (w', Ok tt) /\
    (forall p x, heap session_log_eof !! p = Some x ->
       if bool_decide (p ∈ readers objC) && negb (gotEOF x)
       then exists x' n' evs,
              write_obj_data 8 x (Some (rd_data (mk_read (mk_ret 3 EINTR) (bytes "abc"))))
                (ret_n (rd_ret (mk_read (mk_ret 3 EINTR) (bytes "abc"))))
              = Ok (x', n', evs) /\
              heap w' !! p = Some x'
       else heap w' !! p = Some x) /\
    (forall p, heap session_log_eof !! p = None -> heap w' !! p = None).
Proof.
  apply read_from_obj_fan_out.
  - reflexivity.
  - simpl; lia.
  - discriminate.
  - simpl; lia.
  - intros p x Hp. unfold session_log_eof, session_heap in Hp. simpl in Hp.
    repeat (apply lookup_insert_Some in Hp as [[_ <-]|[_ Hp]];
            [unfold buf_inv; simpl; lia|]).
    rewrite lookup_empty in Hp. discriminate.
  - simpl. apply NoDup_cons. split; [|apply NoDup_singleton].
    rewrite list_elem_of_singleton. discriminate.
  - simpl. repeat constructor; vm_compute; eauto.
Defined.

Lemma read_again_interrupted (MAX_BUF_SIZE : Z) (junk : option ptr)
    (sys_time : Z) (fuel : nat) (ints reads : list read_ret) (obj : ptr) :
  Forall (fun r => interrupted (rd_ret r)) ints ->
  read_again MAX_BUF_SIZE junk sys_time fuel (ints ++ reads) obj
  = read_again MAX_BUF_SIZE junk sys_time fuel reads obj.
Proof.
  induction 1 as [|r ints [Hn He] _ IH]; [reflexivity|].
  simpl. rewrite (proj2 (Z.ltb_lt _ _) Hn), He. exact IH.
Qed.

(** X6: what [read_from_obj] does when [read(2)] gives no data.  It asks
    again for as long as the call is interrupted; then, on [EAGAIN] or
    [EWOULDBLOCK] it returns and nothing has changed, on any other error the
    process exits, and at end of file (a count of 0) it does what
    [close_obj] does on the object.  On an object without a descriptor the
    first assertion fails. *)
Theorem read_from_obj_no_data (MAX_BUF_SIZE : Z) (junk : option ptr)
    (sys_time : Z) (fuel : nat) (ints : list read_ret) (r : read_ret)
    (reads : list read_ret) (obj : ptr) (o : obj_t) (w : world) :
  heap w !! obj = Some o ->
  Forall (fun r => interrupted (rd_ret r)) ints ->
  let run := read_from_obj MAX_BUF_SIZE junk sys_time fuel (ints ++ r :: reads) obj w in
  let n := ret_n (rd_ret r) in
  let e := ret_errno (rd_ret r) in
  (fd o < 0 -> run = (w, Abort "obj->fd >= 0")) /\
  (0 <= fd o -> n < 0 -> e = EAGAIN \/ e = EWOULDBLOCK -> run = (w, Ok tt)) /\
  (0 <= fd o -> n < 0 -> e = EPIPE \/ (exists c, e = EOTHER c) ->
   run = (w, Abort "read error")) /\
  (0 <= fd o -> n = 0 -> run = close_obj junk fuel obj w).
Proof.
  intros Ho Hints run n e. subst run n e.
  split; [|split; [|split]].
  - intros Hfd. unfold read_from_obj, bind, deref, lift, assert. rewrite Ho.
    rewrite Z.geb_leb, (proj2 (Z.leb_gt 0 (fd o))) by lia. reflexivity.
  - intros Hfd Hn He. rewrite (read_from_obj_entered _ _ _ _ _ _ _ _ Ho Hfd).
    rewrite read_again_interrupted by exact Hints.
    cbn [read_again]. rewrite (proj2 (Z.ltb_lt _ _) Hn).
    destruct He as [-> | ->]; reflexivity.
  - intros Hfd Hn He. rewrite (read_from_obj_entered _ _ _ _ _ _ _ _ Ho Hfd).
    rewrite read_again_interrupted by exact Hints.
    cbn [read_again]. rewrite (proj2 (Z.ltb_lt _ _) Hn).
    destruct He as [-> | [c ->]]; reflexivity.
  - intros Hfd Hn. rewrite (read_from_obj_entered _ _ _ _ _ _ _ _ Ho Hfd).
    rewrite read_again_interrupted by exact Hints.
    cbn [read_again]. rewrite Hn. reflexivity.
Qed.

Lemma read_from_obj_no_data_witness :
  let run := read_from_obj 8 None 1000 2
               ([mk_read (mk_ret (-1) EINTR) []] ++ mk_read (mk_ret 0 EINTR) [] :: [])
               pS2 session in
  let n := ret_n (rd_ret (mk_read (mk_ret 0 EINTR) [])) in
  let e := ret_errno (rd_ret (mk_read (mk_ret 0 EINTR) [])) in
  (fd objS2 < 0 -> run = (session, Abort "obj->fd >= 0")) /\
  (0 <= fd objS2 -> n < 0 -> e = EAGAIN \/ e = EWOULDBLOCK -> run = (session, Ok tt)) /\
  (0 <= fd objS2 -> n < 0 -> e = EPIPE \/ (exists c, e = EOTHER c) ->
   run = (session, Abort "read error")) /\
  (0 <= fd objS2 -> n = 0 -> run = close_obj None 2 pS2 session).
Proof.
  apply (read_from_obj_no_data 8 None 1000 2 [mk_read (mk_ret (-1) EINTR) []]
           (mk_read (mk_ret 0 EINTR) []) [] pS2 objS2 session).
  - reflexivity.
  - repeat constructor; simpl; lia.
Defined.

(** *** From [read_from_obj] to [write_to_obj] *)

Ltac split_inner_if :=
  match goal with
  | |- context [if ?c then _ else _] =>
    lazymatch c with
    | context [if _ then _ else _] => fail
    | _ => destruct c eqn:?
    end
  end.

(** Bytes put in an empty buffer come out first and in order. *)
Lemma through_empty_buffer (MAX_BUF_SIZE : Z) (r0 : obj_t) (data : list ascii)
    (n : Z) (e : errno_t) (rest : list sys_ret) :
  buf_inv MAX_BUF_SIZE r0 -> length (buf r0) = Z.to_nat MAX_BUF_SIZE ->
  bufInPtr r0 = bufOutPtr r0 ->
  1 <= n <= MAX_BUF_SIZE - 1 -> length data = Z.to_nat n ->
  exists r1 r2,
    write_obj_data MAX_BUF_SIZE r0 (Some data) n
    = Ok (r1, n, [MutexLock; MutexUnlock]) /\
    write_to_obj_locked MAX_BUF_SIZE
      (mk_ret (Z.min n (MAX_BUF_SIZE - bufOutPtr r0)) e :: rest) r1
    = Ok (r2,
          [MutexLock;
           SysWrite (fd r0) (bufOutPtr r0) (Z.min n (MAX_BUF_SIZE - bufOutPtr r0));
           MutexUnlock],
          rest) /\
    take (Z.to_nat (Z.min n (MAX_BUF_SIZE - bufOutPtr r0)))
         (drop (Z.to_nat (bufOutPtr r0)) (buf r1))
    = take (Z.to_nat (Z.min n (MAX_BUF_SIZE - bufOutPtr r0))) data /\
    buf_content MAX_BUF_SIZE r2
    = drop (Z.to_nat (Z.min n (MAX_BUF_SIZE - bufOutPtr r0))) data /\
    fd r1 = fd r0 /\ gotEOF r2 = gotEOF r0.
Proof.
  intros Hinv Hbuf Hempty Hn Hdata. unfold write_obj_data.
  rewrite (proj2 (Z.leb_gt _ _)) by lia.
  rewrite Z.geb_leb, (proj2 (Z.leb_gt _ _)) by lia.
  rewrite (assert_bounds_ok _ _ Hinv). simpl obind.
  destruct Hinv as [[Hi0 Hi1] [Ho0 Ho1]].
  destruct r0 as [nm d eof b i o wr rd ty]. simpl in *. subst i.
  destruct (Z_of_nat_complete o Ho0) as [o' ->].
  destruct (Z_of_nat_complete n ltac:(lia)) as [n' ->].
  destruct (Z_of_nat_complete MAX_BUF_SIZE ltac:(lia)) as [N ->].
  rewrite !Nat2Z.id in *.
  rewrite Z.eqb_refl.
  destruct (Z.min_spec (Z.of_nat n') (Z.of_nat N - Z.of_nat o')) as [[Hm1 Hm]|[Hm1 Hm]];
    rewrite !Hm;
  repeat (rewrite ?Z.gtb_ltb, ?Z.geb_leb; split_if; simpl in *; zbool; try lia);
    (rewrite assert_bounds_ok; [|unfold buf_inv; simpl; lia]);
    simpl; eexists; eexists; (split; [reflexivity|]);
    unfold write_to_obj_locked;
    (rewrite assert_bounds_ok; [|unfold buf_inv; simpl; lia]);
    unfold write_avail; cbn [bufInPtr bufOutPtr set_bufInPtr set_bufOutPtr set_buf obind];
    repeat (rewrite ?Z.gtb_ltb, ?Z.geb_leb; split_inner_if; zbool; try lia);
    cbn [write_again ret_n obind];
    repeat (rewrite ?Z.gtb_ltb, ?Z.geb_leb; split_if; zbool; try lia);
    cbn [bufInPtr bufOutPtr set_bufInPtr set_bufOutPtr set_buf obind fd];
    unfold assert;
    repeat (rewrite ?Z.gtb_ltb, ?Z.geb_leb; split_if; cbn [bufInPtr bufOutPtr set_bufInPtr set_bufOutPtr set_buf obind fd] in *; zbool; try lia).
  all: try replace (Z.of_nat o' + Z.of_nat n' - Z.of_nat o') with (Z.of_nat n') by lia.
  all: (split; [reflexivity|]).
  all: unfold buf_content, memcpy; simpl; rewrite ?Z.geb_leb.
  all: repeat (split_if; simpl in *; zbool; try lia).
  all: to_nat_goal.
  all: split; [|split; [|split; reflexivity]].
  all: apply list_eq; intros k; lookup_norm.
  all: prune.
  all: lookup_leaf.
Qed.

Lemma read_from_obj_data (MAX_BUF_SIZE : Z) (junk : option ptr)
    (sys_time : Z) (fuel : nat) (r : read_ret) (reads : list read_ret)
    (obj : ptr) (o : obj_t) (w : world) :
  heap w !! obj = Some o -> 0 <= fd o ->
  (type o = SOCKET -> sys_time <> -1) ->
  0 < ret_n (rd_ret r) ->
  read_from_obj MAX_BUF_SIZE junk sys_time fuel (r :: reads) obj w
  = read_from_obj_readers MAX_BUF_SIZE (readers o) (rd_data r) (ret_n (rd_ret r)) w.
Proof.
  intros Ho Hfd Htime Hn.
  rewrite (read_from_obj_entered _ _ _ _ _ _ _ _ Ho Hfd).
  cbn [read_again].
  rewrite (proj2 (Z.ltb_ge _ _)) by lia.
  rewrite (proj2 (Z.eqb_neq _ _)) by lia.
  unfold bind at 1. unfold deref at 1. rewrite Ho.
  assert (Hlen : (if obj_type_eqb (type o) SOCKET
                  then if sys_time =? -1
                       then lift (Abort "time() failed -- What time is it?")
                       else ret (parse_buf_for_control (Some (rd_data r))
                                   (ret_n (rd_ret r)))
                  else ret (ret_n (rd_ret r))) w
                 = (w, Ok (ret_n (rd_ret r)))).
  { destruct (type o) eqn:Hty; simpl; try reflexivity.
    rewrite (proj2 (Z.eqb_neq _ _)) by auto.
    unfold parse_buf_for_control. destruct (_ <=? _); reflexivity. }
  unfold bind at 1. rewrite Hlen.
  unfold bind at 1. unfold deref at 1. rewrite Ho. reflexivity.
Qed.

(** X17: what is read from an object is what its reader writes next.
    Let [R] be a reader of [obj] with an empty buffer and no EOF, and let
    [read(2)] on [obj] give [n] bytes.  After [read_from_obj], the next
    [write_to_obj] on [R] offers to [write(2)], on [R]'s descriptor, the
    first bytes read, as many as fit before the end of the buffer; when they
    are all taken, [R]'s buffer holds just the bytes read that were not yet
    offered. *)
Theorem read_then_write (MAX_BUF_SIZE : Z) (junk : option ptr) (sys_time : Z)
    (fuel : nat) (rd : read_ret) (reads : list read_ret) (obj R : ptr)
    (o r0 : obj_t) (w : world) :
  heap w !! obj = Some o -> 0 <= fd o ->
  (type o = SOCKET -> sys_time <> -1) ->
  heap_bounds MAX_BUF_SIZE w -> NoDup (readers o) ->
  Forall (fun p => is_Some (heap w !! p)) (readers o) ->
  R ∈ readers o -> heap w !! R = Some r0 ->
  gotEOF r0 = false -> 0 <= fd r0 ->
  length (buf r0) = Z.to_nat MAX_BUF_SIZE -> bufInPtr r0 = bufOutPtr r0 ->
  1 <= ret_n (rd_ret rd) <= MAX_BUF_SIZE - 1 ->
  length (rd_data rd) = Z.to_nat (ret_n (rd_ret rd)) ->
  let run := Z.min (ret_n (rd_ret rd)) (MAX_BUF_SIZE - bufOutPtr r0) in
  exists w1 r1,
    read_from_obj MAX_BUF_SIZE junk sys_time fuel (rd :: reads) obj w = (w1, Ok tt) /\
    heap w1 !! R = Some r1 /\
    take (Z.to_nat run) (drop (Z.to_nat (bufOutPtr r0)) (buf r1))
    = take (Z.to_nat run) (rd_data rd) /\
    forall e rest, exists w2 r2,
      write_to_obj MAX_BUF_SIZE junk fuel R (set_writes (mk_ret run e :: rest) w1)
      = (w2, Ok tt) /\
      trace w2 = trace w1 ++ [EvObj R MutexLock;
                              EvObj R (SysWrite (fd r0) (bufOutPtr r0) run);
                              EvObj R MutexUnlock] /\
      writes w2 = rest /\
      heap w2 !! R = Some r2 /\
      buf_content MAX_BUF_SIZE r2 = drop (Z.to_nat run) (rd_data rd).
Proof.
  intros Ho Hfd Htime Hb Hnd Hlive HR Hr0 Heof Hfd0 Hbuf Hempty Hn Hdata run.
  rewrite (read_from_obj_data _ _ _ _ _ _ _ _ _ Ho Hfd Htime) by lia.
  destruct (read_from_obj_readers_feeds MAX_BUF_SIZE (rd_data rd) (ret_n (rd_ret rd))
              (readers o) w Hb Hnd Hlive) as (w1 & Hrun & Hfed & _).
  specialize (Hfed R r0 Hr0).
  rewrite bool_decide_eq_true_2, Heof in Hfed by exact HR. cbn [andb negb] in Hfed.
  destruct Hfed as (x' & n' & evs & Hw & Hx').
  assert (Hlocked : forall e rest, exists r1 r2,
            write_obj_data MAX_BUF_SIZE r0 (Some (rd_data rd)) (ret_n (rd_ret rd))
            = Ok (r1, ret_n (rd_ret rd), [MutexLock; MutexUnlock]) /\
            write_to_obj_locked MAX_BUF_SIZE (mk_ret run e :: rest) r1
            = Ok (r2, [MutexLock; SysWrite (fd r0) (bufOutPtr r0) run; MutexUnlock],
                  rest) /\
            take (Z.to_nat run) (drop (Z.to_nat (bufOutPtr r0)) (buf r1))
            = take (Z.to_nat run) (rd_data rd) /\
            buf_content MAX_BUF_SIZE r2 = drop (Z.to_nat run) (rd_data rd) /\
            fd r1 = fd r0 /\ gotEOF r2 = gotEOF r0).
  { intros e rest. apply through_empty_buffer; auto. exact (Hb _ _ Hr0). }
  exists w1, x'. split; [exact Hrun|]. split; [exact Hx'|]. split.
  { destruct (Hlocked EINTR []) as (r1 & r2 & Hw1 & _ & Htake & _).
    rewrite Hw in Hw1. injection Hw1 as <- _ _. exact Htake. }
  intros e rest.
  destruct (Hlocked e rest) as (r1 & r2 & Hw1 & Hlock & _ & Hcont & Hfd1 & Heof2).
  rewrite Hw in Hw1. injection Hw1 as <- _ _.
  unfold write_to_obj.
  unfold bind at 1, deref at 1. cbn [heap set_writes]. rewrite Hx'.
  unfold bind at 1, lift at 1, assert at 1.
  rewrite Hfd1, Z.geb_leb, (proj2 (Z.leb_le 0 (fd r0)) Hfd0).
  rewrite (proj2 (Z.ltb_ge (fd r0) 0)) by lia.
  unfold bind at 1. cbn [writes set_writes]. rewrite Hlock.
  unfold bind, store, emit, deref, ret.
  cbn [heap set_writes set_heap add_trace writes trace fst snd].
  rewrite Hx'. cbn [heap set_writes set_heap add_trace writes trace fst snd map].
  rewrite lookup_insert_eq. rewrite Heof2, Heof. cbn [andb].
  exists (mk_world (<[R := r2]> (heap w1))
            (trace w1 ++ [EvObj R MutexLock;
                          EvObj R (SysWrite (fd r0) (bufOutPtr r0) run);
                          EvObj R MutexUnlock]) rest), r2.
  split; [reflexivity|]. cbn [trace writes heap].
  split; [reflexivity|]. split; [reflexivity|].
  split; [apply lookup_insert_eq|exact Hcont].
Qed.

Lemma read_then_write_witness :
  let rd := mk_read (mk_ret 3 EINTR) (bytes "abc") in
  let run := Z.min (ret_n (rd_ret rd)) (8 - bufOutPtr objS1) in
  exists w1 r1,
    read_from_obj 8 None 1000 2 (rd :: []) pC session = (w1, Ok tt) /\
    heap w1 !! pS1 = Some r1 /\
    take (Z.to_nat run) (drop (Z.to_nat (bufOutPtr objS1)) (buf r1))
    = take (Z.to_nat run) (rd_data rd) /\
    forall e rest, exists w2 r2,
      write_to_obj 8 None 2 pS1 (set_writes (mk_ret run e :: rest) w1)
      = (w2, Ok tt) /\
      trace w2 = trace w1 ++ [EvObj pS1 MutexLock;
                              EvObj pS1 (SysWrite (fd objS1) (bufOutPtr objS1) run);
                              EvObj pS1 MutexUnlock] /\
      writes w2 = rest /\
      heap w2 !! pS1 = Some r2 /\
      buf_content 8 r2 = drop (Z.to_nat run) (rd_data rd).
Proof.
  apply (read_then_write 8 None 1000 2 (mk_read (mk_ret 3 EINTR) (bytes "abc")) []
           pC pS1 objC objS1 session); try reflexivity.
  - simpl; lia.
  - discriminate.
  - intros p x Hp. unfold session, session_heap in Hp. simpl in Hp.
    repeat (apply lookup_insert_Some in Hp as [[_ <-]|[_ Hp]];
            [unfold buf_inv; simpl; lia|]).
    rewrite lookup_empty in Hp. discriminate.
  - simpl. apply NoDup_cons. split; [|apply NoDup_singleton].
    rewrite list_elem_of_singleton. discriminate.
  - simpl. repeat constructor; vm_compute; eauto.
  - simpl. apply elem_of_cons. right. apply elem_of_cons. left. reflexivity.
  - simpl; lia.
  - simpl; lia.
Defined.

(** *** What [close_obj] never does *)

#[local] Instance closes_only_preorder : PreOrder closes_only.
Proof.
  split.
  - intros w p o Hp. exists o. auto 10.
  - intros a b c Hab Hbc p o3 Hp.
    destruct (Hbc p o3 Hp) as (o2 & Hp2 & Hn2 & Ht2 & Hb2 & Hi2 & Ho2 & Hf2).
    destruct (Hab p o2 Hp2) as (o1 & Hp1 & Hn1 & Ht1 & Hb1 & Hi1 & Ho1 & Hf1).
    exists o1. repeat split; try congruence.
    destruct Hf2 as [Hf2|Hf2]; [rewrite Hf2; exact Hf1|right; exact Hf2].
Qed.

Lemma closes_only_emit (evs : list event) : respects closes_only (emit evs).
Proof. intros w p o Hp. simpl in Hp. exists o. auto 10. Qed.

Lemma closes_only_store (p : ptr) (f : obj_t -> obj_t) :
  (forall o, name (f o) = name o /\ type (f o) = type o /\ buf (f o) = buf o /\
             bufInPtr (f o) = bufInPtr o /\ bufOutPtr (f o) = bufOutPtr o /\
             (fd (f o) = fd o \/ fd (f o) = -1)) ->
  respects closes_only (store p f).
Proof.
  intros Hf. apply respects_store; [typeclasses eauto|].
  intros w o Ho q o2 Hq. simpl in Hq.
  destruct (decide (q = p)) as [->|Hne].
  - rewrite lookup_insert_eq in Hq. injection Hq as <-. eauto.
  - rewrite lookup_insert_ne in Hq by congruence. exists o2. auto 10.
Qed.

Lemma closes_only_free (p : ptr) : respects closes_only (free p).
Proof.
  apply respects_free; [typeclasses eauto|].
  intros w o Ho q o2 Hq. simpl in Hq.
  apply lookup_delete_Some in Hq as [_ Hq]. exists o2. auto 10.
Qed.

Ltac closes_step :=
  first
    [ respects_step
    | respects_case
    | apply closes_only_emit
    | apply closes_only_free
    | apply closes_only_store; intros ?; simpl; auto 10 ].

Lemma destroy_obj_closes (obj : ptr) : respects closes_only (destroy_obj obj).
Proof. unfold destroy_obj. repeat closes_step. Qed.

Lemma teardown_closes (obj : ptr) : respects closes_only (close_obj_teardown obj).
Proof.
  unfold close_obj_teardown. repeat first [closes_step | apply destroy_obj_closes].
Qed.

Lemma readers_closes (close_rec : ptr -> M unit) (fuel : nat)
    (reader : option ptr) (obj : ptr) :
  (forall p, respects closes_only (close_rec p)) ->
  respects closes_only (close_obj_readers close_rec fuel reader obj).
Proof.
  intros Hrec. induction fuel as [|fuel IH]; simpl;
    repeat first [exact IH | apply Hrec | closes_step].
Qed.

Lemma links_closes (junk : option ptr) (close_rec : ptr -> M unit)
    (fuel : nat) (obj : ptr) :
  (forall p, respects closes_only (close_rec p)) ->
  respects closes_only (close_obj_links junk close_rec fuel obj).
Proof.
  intros Hrec. unfold close_obj_links.
  repeat first [apply readers_closes; exact Hrec | apply Hrec | closes_step].
Qed.

Lemma close_obj_closes (junk : option ptr) (fuel : nat) (obj : ptr) :
  respects closes_only (close_obj junk fuel obj).
Proof.
  revert obj. induction fuel as [|fuel IH]; intros obj; simpl; [repeat closes_step|].
  apply respects_bind; [typeclasses eauto| |intros _; apply teardown_closes].
  apply links_closes. exact IH.
Qed.

Ltac closing_step :=
  first
    [ respects_step
    | respects_case
    | apply grows_by_store
    | apply grows_by_emit; repeat constructor ].

Lemma free_closing (p : ptr) : respects (grows_by closing_event) (free p).
Proof.
  apply respects_free; [typeclasses eauto|].
  intros w o Ho. apply grows_by_heap.
Qed.

Lemma destroy_obj_closing (obj : ptr) :
  respects (grows_by closing_event) (destroy_obj obj).
Proof. unfold destroy_obj. repeat first [apply free_closing | closing_step]. Qed.

Lemma teardown_closing (obj : ptr) :
  respects (grows_by closing_event) (close_obj_teardown obj).
Proof.
  unfold close_obj_teardown. repeat first [apply destroy_obj_closing | closing_step].
Qed.

Lemma readers_closing (close_rec : ptr -> M unit) (fuel : nat)
    (reader : option ptr) (obj : ptr) :
  (forall p, respects (grows_by closing_event) (close_rec p)) ->
  respects (grows_by closing_event) (close_obj_readers close_rec fuel reader obj).
Proof.
  intros Hrec. induction fuel as [|fuel IH]; simpl;
    repeat first [exact IH | apply Hrec | closing_step].
Qed.

Lemma links_closing (junk : option ptr) (close_rec : ptr -> M unit)
    (fuel : nat) (obj : ptr) :
  (forall p, respects (grows_by closing_event) (close_rec p)) ->
  respects (grows_by closing_event) (close_obj_links junk close_rec fuel obj).
Proof.
  intros Hrec. unfold close_obj_links.
  repeat first [apply readers_closing; exact Hrec | apply Hrec | closing_step].
Qed.

Lemma close_obj_closing (junk : option ptr) (fuel : nat) (obj : ptr) :
  respects (grows_by closing_event) (close_obj junk fuel obj).
Proof.
  revert obj. induction fuel as [|fuel IH]; intros obj; simpl; [repeat closing_step|].
  apply respects_bind; [typeclasses eauto| |intros _; apply teardown_closing].
  apply links_closing. exact IH.
Qed.

(** X7: what [close_obj] never does, however it ends and whatever the
    links are.  It makes no object; it changes no name, no type, no byte of
    a buffer and no buffer index; a descriptor is kept or given up, never
    opened; and besides its own calls it only calls [destroy_obj] and
    [close(2)]: nothing is opened and nothing is written. *)
Theorem close_obj_only_closes (junk : option ptr) (fuel : nat) (obj : ptr)
    (w : world) :
  closes_only w (fst (close_obj junk fuel obj w)) /\
  grows_by closing_event w (fst (close_obj junk fuel obj w)).
Proof.
  split; [apply close_obj_closes|apply close_obj_closing].
Qed.

(** *** [close_obj] only removes links *)

#[local] Instance unlinks_only_preorder : PreOrder unlinks_only.
Proof.
  split.
  - intros w p o Hp. exists o. auto.
  - intros a b c Hab Hbc p o3 Hp.
    destruct (Hbc p o3 Hp) as (o2 & Hp2 & Hw2 & Hr2).
    destruct (Hab p o2 Hp2) as (o1 & Hp1 & Hw1 & Hr1).
    exists o1. split; [exact Hp1|]. split.
    + destruct Hw2 as [Hw2|Hw2]; [rewrite Hw2; exact Hw1|right; exact Hw2].
    + etransitivity; eassumption.
Qed.

Lemma unlinks_only_emit (evs : list event) : respects unlinks_only (emit evs).
Proof. intros w p o Hp. simpl in Hp. exists o. auto. Qed.

Lemma unlinks_only_heap (w : world) (p : ptr) (o x : obj_t) :
  heap w !! p = Some o ->
  (writer x = writer o \/ writer x = None) -> sublist (readers x) (readers o) ->
  unlinks_only w (set_heap (<[p := x]> (heap w)) w).
Proof.
  intros Ho Hw Hr q o2 Hq. simpl in Hq.
  destruct (decide (q = p)) as [->|Hne].
  - rewrite lookup_insert_eq in Hq. injection Hq as <-. eauto.
  - rewrite lookup_insert_ne in Hq by congruence. exists o2. auto.
Qed.

Lemma unlinks_only_store (p : ptr) (f : obj_t -> obj_t) :
  (forall o, (writer (f o) = writer o \/ writer (f o) = None) /\
             readers (f o) = readers o) ->
  respects unlinks_only (store p f).
Proof.
  intros Hf. apply respects_store; [typeclasses eauto|].
  intros w o Ho. destruct (Hf o) as [Hw Hr].
  apply (unlinks_only_heap w p o (f o) Ho Hw). rewrite Hr. reflexivity.
Qed.

Lemma unlinks_only_free (p : ptr) : respects unlinks_only (free p).
Proof.
  apply respects_free; [typeclasses eauto|].
  intros w o Ho q o2 Hq. simpl in Hq.
  apply lookup_delete_Some in Hq as [_ Hq]. exists o2. auto.
Qed.

Lemma list_delete_first_sublist (x : ptr) (l rest : list ptr) :
  list_delete_first x l = Some rest -> sublist rest l.
Proof.
  revert rest. induction l as [|y l IH]; simpl; [discriminate|]. intros rest.
  destruct (Pos.eqb y x).
  - intros [= <-]. apply sublist_cons. reflexivity.
  - destruct (list_delete_first x l) as [r|]; simpl; [|discriminate].
    intros [= <-]. apply sublist_skip. apply IH. reflexivity.
Qed.

Ltac unlinks_step :=
  first
    [ respects_step
    | respects_case
    | apply unlinks_only_emit
    | apply unlinks_only_free
    | apply unlinks_only_store; intros ?; simpl; auto ].

Lemma destroy_obj_unlinks (obj : ptr) : respects unlinks_only (destroy_obj obj).
Proof. unfold destroy_obj. repeat unlinks_step. Qed.

Lemma teardown_unlinks (obj : ptr) : respects unlinks_only (close_obj_teardown obj).
Proof.
  unfold close_obj_teardown. repeat first [unlinks_step | apply destroy_obj_unlinks].
Qed.

Lemma readers_unlinks (close_rec : ptr -> M unit) (fuel : nat)
    (reader : option ptr) (obj : ptr) :
  (forall p, respects unlinks_only (close_rec p)) ->
  respects unlinks_only (close_obj_readers close_rec fuel reader obj).
Proof.
  intros Hrec. induction fuel as [|fuel IH]; [simpl; repeat unlinks_step|].
  cbn [close_obj_readers]. intros w.
  unfold bind at 1. unfold deref at 1.
  destruct (heap w !! obj) as [o|] eqn:Ho; [|reflexivity].
  unfold bind at 1. unfold store at 1. rewrite Ho.
  match goal with
  | |- unlinks_only _ (fst (?k ?w1)) =>
    transitivity w1; [|assert (Hk : respects unlinks_only k); [|apply Hk]]
  end.
  - apply (unlinks_only_heap w obj o _ Ho); simpl; [auto|].
    unfold list_pop. simpl. destruct (readers o); [reflexivity|].
    apply sublist_cons. reflexivity.
  - repeat first [exact IH | apply Hrec | unlinks_step].
Qed.

Lemma links_unlinks (junk : option ptr) (close_rec : ptr -> M unit)
    (fuel : nat) (obj : ptr) :
  (forall p, respects unlinks_only (close_rec p)) ->
  respects unlinks_only (close_obj_links junk close_rec fuel obj).
Proof.
  intros Hrec. unfold close_obj_links.
  apply respects_bind; [typeclasses eauto|apply unlinks_only_emit|intros _].
  apply respects_bind; [typeclasses eauto|apply respects_deref; typeclasses eauto|intros o].
  apply respects_bind; [typeclasses eauto| |intros r; apply readers_unlinks; exact Hrec].
  destruct (writer o) as [wp|]; [|apply respects_ret; typeclasses eauto].
  intros w.
  unfold bind at 1. unfold deref at 1.
  destruct (heap w !! wp) as [wo|] eqn:Hwo; [|reflexivity].
  destruct (list_delete_first obj (readers wo)) as [rest|] eqn:Hdel; [|reflexivity].
  unfold bind at 1. unfold store at 1. rewrite Hwo.
  match goal with
  | |- unlinks_only _ (fst (?k ?w1)) =>
    transitivity w1; [|assert (Hk : respects unlinks_only k); [|apply Hk]]
  end.
  - apply (unlinks_only_heap w wp wo _ Hwo); simpl; [auto|].
    eapply list_delete_first_sublist; eassumption.
  - repeat first [apply Hrec | unlinks_step].
Qed.

Lemma close_obj_unlinks (junk : option ptr) (fuel : nat) (obj : ptr) :
  respects unlinks_only (close_obj junk fuel obj).
Proof.
  revert obj. induction fuel as [|fuel IH]; intros obj; simpl; [repeat unlinks_step|].
  apply respects_bind; [typeclasses eauto| |intros _; apply teardown_unlinks].
  apply links_unlinks. exact IH.
Qed.

(** X8: [close_obj] only removes links.  However it ends, every object
    still there has the writer it had or none, and its readers are among
    those it had, in the same order: no object gains a reader or a writer. *)
Theorem close_obj_only_unlinks (junk : option ptr) (fuel : nat) (obj : ptr)
    (w : world) (p : ptr) (o' : obj_t) :
  heap (fst (close_obj junk fuel obj w)) !! p = Some o' ->
  exists o, heap w !! p = Some o /\
    (writer o' = writer o \/ writer o' = None) /\
    sublist (readers o') (readers o).
Proof. apply close_obj_unlinks. Qed.

Lemma close_obj_only_unlinks_witness :
  exists o, heap session !! pC = Some o /\
    (writer (set_fd (-1) (set_writer None (set_readers [pS1] objC))) = writer o \/
     writer (set_fd (-1) (set_writer None (set_readers [pS1] objC))) = None) /\
    sublist (readers (set_fd (-1) (set_writer None (set_readers [pS1] objC))))
            (readers o).
Proof.
  apply (close_obj_only_unlinks None 2 pC session pC).
  vm_compute. reflexivity.
Defined.

(** ** Teardown, descriptors and steals: the claims *)

(** *** Descriptors are closed once, and before [destroy_obj] *)

Lemma closed_fds_app (a b : list event) :
  closed_fds (a ++ b) = closed_fds a ++ closed_fds b.
Proof. unfold closed_fds. apply omap_app. Qed.

Lemma event_in_app (e : event) (pre post l1 l2 : list event) :
  l1 ++ l2 = pre ++ e :: post ->
  (exists post1, l1 = pre ++ e :: post1 /\ post = post1 ++ l2) \/
  (exists pre2, l2 = pre2 ++ e :: post /\ pre = l1 ++ pre2).
Proof.
  revert pre. induction l1 as [|a l1 IH]; intros pre; simpl.
  - intros ->. right. exists pre. auto.
  - destruct pre as [|b pre]; simpl.
    + intros [= -> <-]. left. exists l1. auto.
    + intros [= -> H]. destruct (IH _ H) as [(post1 & -> & ->)|(pre2 & -> & ->)].
      * left. exists post1. auto.
      * right. exists pre2. auto.
Qed.

Lemma closes_once_exclusive (w w' : world) :
  closes_once w w' -> fds_exclusive w -> fds_exclusive w'.
Proof.
  intros [Hobj _] Hex p q o o' Hp Hq Hfd Heq.
  destruct (Hobj _ _ Hp) as (o1 & Hp1 & _ & Hfd1).
  destruct (Hobj _ _ Hq) as (o2 & Hq1 & _ & Hfd2).
  apply (Hex p q o1 o2 Hp1 Hq1); lia.
Qed.

Lemma closes_once_gone (w w' : world) (p : ptr) :
  closes_once w w' -> heap w !! p = None -> heap w' !! p = None.
Proof.
  intros [Hobj _] Hp. destruct (heap w' !! p) as [o'|] eqn:Hp'; [|reflexivity].
  destruct (Hobj _ _ Hp') as (o & Ho & _). congruence.
Qed.

Lemma closes_once_given_up (w w' : world) (p : ptr) :
  closes_once w w' -> fd_given_up w p -> fd_given_up w' p.
Proof.
  intros [Hobj _] Hp o' Hp'.
  destruct (Hobj _ _ Hp') as (o & Ho & _ & Hfd). specialize (Hp _ Ho). lia.
Qed.

#[local] Instance closes_once_preorder : PreOrder closes_once.
Proof.
  split.
  - intros w. split; [intros p o Hp; eauto|].
    exists []. rewrite app_nil_r. split; [reflexivity|]. split; [|split].
    + intros d. split; [intros []|].
      intros (p & o & Hp & Hfd & Hd & Hup). specialize (Hup _ Hp). lia.
    + intros _. constructor.
    + intros pre p o' post H. destruct pre; discriminate.
  - intros w1 w2 w3 H12 H23.
    pose proof (closes_once_exclusive _ _ H12) as Hex2.
    pose proof (closes_once_gone w2 w3) as Hgone.
    pose proof (closes_once_given_up w2 w3) as Hup.
    destruct H12 as [O12 (t1 & T1 & C1 & N1 & D1)].
    destruct H23 as [O23 (t2 & T2 & C2 & N2 & D2)].
    assert (H12 : closes_once w1 w2) by (split; [exact O12|exists t1; auto]).
    assert (H23 : closes_once w2 w3) by (split; [exact O23|exists t2; auto]).
    split.
    { intros p o3 Hp3.
      destruct (O23 _ _ Hp3) as (o2 & Hp2 & Hty2 & Hfd2).
      destruct (O12 _ _ Hp2) as (o1 & Hp1 & Hty1 & Hfd1).
      exists o1. split; [exact Hp1|]. split; [congruence|].
      destruct Hfd2 as [Hfd2|(? & ? & ?)], Hfd1 as [Hfd1|(? & ? & ?)];
        first [left; lia | right; repeat split; try lia; congruence]. }
    exists (t1 ++ t2). split; [rewrite T2, T1, app_assoc; reflexivity|].
    assert (Hclosed : forall d, In d (closed_fds (t1 ++ t2)) <->
              exists p o, heap w1 !! p = Some o /\ fd o = d /\ 0 <= d /\
                          fd_given_up w3 p).
    { intros d. rewrite closed_fds_app, in_app_iff, C1, C2. split.
      - intros [(p & o & Hp & Hfd & Hd & Hg)|(p & o & Hp & Hfd & Hd & Hg)].
        + exists p, o. repeat (split; [assumption|]). apply (Hup _ H23), Hg.
        + destruct (O12 _ _ Hp) as (o1 & Hp1 & _ & Hfd1).
          exists p, o1. repeat split; auto. lia.
      - intros (p & o & Hp & Hfd & Hd & Hg).
        destruct (heap w2 !! p) as [o2|] eqn:Hp2.
        + destruct (O12 _ _ Hp2) as (o1 & Hp1 & _ & Hfd1).
          rewrite Hp in Hp1. injection Hp1 as <-.
          destruct (Z_lt_le_dec (fd o2) 0) as [Hneg|Hpos].
          * left. exists p, o. repeat split; auto.
            intros o2' Hp2'. congruence.
          * right. exists p, o2. repeat split; auto; lia.
        + left. exists p, o. repeat split; auto. intros o2 Hp2'. congruence. }
    split; [exact Hclosed|]. split.
    { intros Hex. rewrite closed_fds_app. apply NoDup_app.
      split; [auto|]. split; [|auto].
      intros d Hd1 Hd2. apply list_elem_of_In in Hd1, Hd2.
      apply C1 in Hd1 as (p & o & Hp & Hfd & Hd & Hg).
      apply C2 in Hd2 as (q & o2 & Hq & Hfd2 & _ & _).
      destruct (O12 _ _ Hq) as (o1 & Hq1 & _ & Hfd1).
      assert (p = q) by (apply (Hex p q o o1 Hp Hq1); lia). subst q.
      specialize (Hg _ Hq). lia. }
    intros pre p o' post Htr.
    apply event_in_app in Htr as [(post1 & Ht1 & ->)|(pre2 & Ht2 & ->)].
    + destruct (D1 _ _ _ _ Ht1) as (Hbuf & Hfd & o & Hp & Hty & Hnone & Hpre).
      repeat (split; [assumption|]). exists o. repeat (split; [assumption|]).
      split; [apply (Hgone _ H23), Hnone|exact Hpre].
    + destruct (D2 _ _ _ _ Ht2) as (Hbuf & Hfd & o2 & Hp2 & Hty & Hnone & Hpre).
      repeat (split; [assumption|]).
      destruct (O12 _ _ Hp2) as (o1 & Hp1 & Hty1 & Hfd1).
      exists o1. split; [exact Hp1|]. split; [congruence|]. split; [exact Hnone|].
      assert (Hsame : fd o2 = fd o1).
      { destruct Hfd1 as [?|(_ & _ & Hns)]; [assumption|congruence]. }
      rewrite <- Hsame. intros Hpos. destruct (Hpre Hpos) as (pre' & ->).
      exists (t1 ++ pre'). rewrite app_assoc. reflexivity.
Qed.

(** A relation kept by the steps of [close_obj] is kept by [close_obj]. *)
Section CloseObjRespects.

Context (R : relation world) `{!PreOrder R}.
Variable junk : option ptr.
Hypothesis R_enter : forall p, respects R (emit [EvCloseObj p]).
Hypothesis R_readers : forall p l, respects R (store p (set_readers l)).
Hypothesis R_writer : forall p, respects R (store p (set_writer None)).
Hypothesis R_teardown : forall p, respects R (close_obj_teardown p).

Lemma close_obj_readers_respects (close_rec : ptr -> M unit) (fuel : nat)
    (reader : option ptr) (obj : ptr) :
  (forall p, respects R (close_rec p)) ->
  respects R (close_obj_readers close_rec fuel reader obj).
Proof.
  intros Hrec. induction fuel as [|fuel IH]; simpl; [apply respects_lift; typeclasses eauto|].
  repeat respects_step; try apply R_readers.
  destruct (opt_ptr_eqb reader _); [|apply respects_ret; typeclasses eauto].
  repeat respects_step; try exact IH.
  destruct (opt_ptr_eqb _ _); [|apply respects_ret; typeclasses eauto].
  destruct reader as [rp|]; [|apply respects_lift; typeclasses eauto].
  repeat respects_step; try apply R_writer.
  destruct (list_is_empty _); [apply Hrec|apply respects_ret; typeclasses eauto].
Qed.

Lemma close_obj_links_respects (close_rec : ptr -> M unit) (fuel : nat) (obj : ptr) :
  (forall p, respects R (close_rec p)) ->
  respects R (close_obj_links junk close_rec fuel obj).
Proof.
  intros Hrec. unfold close_obj_links.
  apply respects_bind; [typeclasses eauto|apply R_enter|intros _].
  apply respects_bind; [typeclasses eauto|apply respects_deref; typeclasses eauto|intros o].
  apply respects_bind;
    [typeclasses eauto| |intros reader; apply close_obj_readers_respects; exact Hrec].
  destruct (writer o) as [wp|]; [|apply respects_ret; typeclasses eauto].
  apply respects_bind; [typeclasses eauto|apply respects_deref; typeclasses eauto|intros wo].
  destruct (list_delete_first obj (readers wo)); [|apply respects_ret; typeclasses eauto].
  repeat respects_step; try apply R_readers; try apply R_writer.
  destruct (_ && _); [apply Hrec|apply respects_ret; typeclasses eauto].
Qed.

Lemma close_obj_respects (fuel : nat) (obj : ptr) :
  respects R (close_obj junk fuel obj).
Proof.
  revert obj. induction fuel as [|fuel IH]; intros obj; simpl.
  - apply respects_lift; typeclasses eauto.
  - apply respects_bind; [typeclasses eauto| |intros _; apply R_teardown].
    apply close_obj_links_respects. exact IH.
Qed.

End CloseObjRespects.

Lemma closes_once_update (w : world) (p : ptr) (o o' : obj_t) :
  heap w !! p = Some o -> type o' = type o -> fd o' = fd o ->
  closes_once w (set_heap (<[p := o']> (heap w)) w).
Proof.
  intros Hp Hty Hfd. split.
  - intros q oq. simpl. destruct (decide (q = p)) as [->|Hne].
    + rewrite lookup_insert_eq. intros [= <-]. exists o. auto.
    + rewrite lookup_insert_ne by congruence. intros Hq. exists oq. auto.
  - exists []. simpl. rewrite app_nil_r. split; [reflexivity|]. split; [|split].
    + intros d. split; [intros []|].
      intros (q & oq & Hq & Hfdq & Hd & Hup). exfalso.
      destruct (decide (q = p)) as [->|Hne].
      * rewrite Hp in Hq. injection Hq as <-.
        specialize (Hup o'). simpl in Hup. rewrite lookup_insert_eq in Hup.
        specialize (Hup eq_refl). lia.
      * specialize (Hup oq). simpl in Hup. rewrite lookup_insert_ne in Hup by congruence.
        specialize (Hup Hq). lia.
    + intros _. constructor.
    + intros pre q o1 post H. destruct pre; discriminate.
Qed.

Lemma closes_once_store (p : ptr) (f : obj_t -> obj_t) :
  (forall o, type (f o) = type o /\ fd (f o) = fd o) ->
  respects closes_once (store p f).
Proof.
  intros Hf. apply respects_store; [typeclasses eauto|].
  intros w o Hp. destruct (Hf o). eapply closes_once_update; eauto.
Qed.

Lemma closes_once_enter (p : ptr) : respects closes_once (emit [EvCloseObj p]).
Proof.
  intros w. split; [intros q o Hq; exists o; auto|].
  exists [EvCloseObj p]. split; [reflexivity|]. split; [|split].
  - intros d. split; [intros []|].
    intros (q & oq & Hq & Hfdq & Hd & Hup). specialize (Hup _ Hq). lia.
  - intros _. constructor.
  - intros pre q o1 post H. destruct pre as [|? [|]]; discriminate.
Qed.

Lemma teardown_closes_once (obj : ptr) : respects closes_once (close_obj_teardown obj).
Proof.
  intros w. destruct (heap w !! obj) as [o|] eqn:Hobj;
    [|unfold close_obj_teardown, bind, deref; rewrite Hobj; reflexivity].
  rewrite (close_obj_teardown_eq _ _ _ Hobj).
  destruct (bufInPtr o =? bufOutPtr o) eqn:Hempty; cbn [negb fst];
    [|apply (closes_once_update w obj o); auto].
  zbool.
  pose proof (torn_down_fd o) as Hneg.
  destruct (torn_down_indices o) as [Hin Hout].
  assert (Hty : type (torn_down o) = type o)
    by (unfold torn_down; simpl; destruct (fd o >=? 0); reflexivity).
  assert (Hfd : fd o < 0 -> fd (torn_down o) = fd o).
  { intros H. unfold torn_down. simpl.
    rewrite Z.geb_leb, (proj2 (Z.leb_gt 0 (fd o))) by lia. reflexivity. }
  set (h' := match type o with
             | SOCKET => delete obj (heap w)
             | _ => <[obj := torn_down o]> (heap w)
             end).
  assert (Hother : forall q, q <> obj -> h' !! q = heap w !! q).
  { intros q Hne. unfold h'.
    destruct (type o); rewrite ?lookup_insert_ne, ?lookup_delete_ne by congruence;
      reflexivity. }
  assert (Hself : forall o', h' !! obj = Some o' ->
            o' = torn_down o /\ type o <> SOCKET).
  { intros o'. unfold h'.
    destruct (type o); rewrite ?lookup_insert_eq, ?lookup_delete_eq;
      intros [= <-]; split; auto; discriminate. }
  split.
  { intros q oq. cbn [heap]. destruct (decide (q = obj)) as [->|Hne].
    - intros Hq. apply Hself in Hq as [-> Hns]. exists o.
      split; [exact Hobj|]. split; [exact Hty|].
      destruct (Z_lt_le_dec (fd o) 0); [left; auto|right; auto].
    - rewrite Hother by exact Hne. intros Hq. exists oq. auto. }
  eexists. cbn [trace]. split; [reflexivity|].
  assert (Hclosed : closed_fds
            ((if fd o >=? 0 then [EvSysClose (fd o)] else [])
             ++ match type o with
                | SOCKET => [EvDestroyObj obj (torn_down o)]
                | _ => []
                end)
            = if fd o >=? 0 then [fd o] else []).
  { rewrite closed_fds_app. destruct (fd o >=? 0), (type o); reflexivity. }
  rewrite Hclosed. split; [|split].
  - intros d. split.
    + intros Hd. exists obj, o.
      destruct (fd o >=? 0) eqn:Hge; [|destruct Hd]. zbool.
      destruct Hd as [<-|[]]. repeat (split; [auto; lia|]).
      intros o' Ho'. cbn [heap] in Ho'. apply Hself in Ho' as [-> _]. exact Hneg.
    + intros (q & oq & Hq & Hfdq & Hd & Hup).
      destruct (decide (q = obj)) as [->|Hne].
      * rewrite Hobj in Hq. injection Hq as <-.
        rewrite Z.geb_leb, (proj2 (Z.leb_le 0 (fd o))) by lia. left. exact Hfdq.
      * exfalso. specialize (Hup oq). cbn [heap] in Hup.
        rewrite Hother in Hup by exact Hne. specialize (Hup Hq). lia.
  - intros _. destruct (fd o >=? 0); repeat constructor. intros H. inversion H.
  - intros pre q o' post Htr.
    assert (Hev : type o = SOCKET /\ q = obj /\ o' = torn_down o /\
                  pre = if fd o >=? 0 then [EvSysClose (fd o)] else []).
    { destruct (fd o >=? 0), (type o); cbn in Htr;
        repeat (destruct pre as [|? pre]; try discriminate; cbn in Htr);
        injection Htr as; subst; auto. }
    destruct Hev as (Hsock & -> & -> & ->).
    split; [congruence|]. split; [exact Hneg|].
    exists o. split; [exact Hobj|]. split; [exact Hsock|]. split.
    + cbn [heap]. unfold h'. rewrite Hsock. apply lookup_delete_eq.
    + intros Hpos. exists []. rewrite Z.geb_leb, (proj2 (Z.leb_le 0 (fd o))) by lia.
      reflexivity.
Qed.

Lemma close_obj_closes_once (junk : option ptr) (fuel : nat) (obj : ptr) :
  respects closes_once (close_obj junk fuel obj).
Proof.
  apply close_obj_respects; [typeclasses eauto|..].
  - apply closes_once_enter.
  - intros p l. apply closes_once_store. auto.
  - intros p. apply closes_once_store. auto.
  - apply teardown_closes_once.
Qed.

(** C10: whatever [close_obj] goes through, every [destroy_obj] it reaches,
    at any depth of the recursion, is entered on a live socket with
    [bufInPtr = bufOutPtr], so that its assertion holds and no run of
    [close_obj] ends on a failed assertion, and with [fd < 0]: when the
    socket had a descriptor, [close(2)] was called on it directly before,
    and the socket is freed.  Over the run [close(2)] is called on the
    descriptors that objects give up and on no other, and, descriptors being
    owned exclusively, once on each: on the descriptor of a destroyed socket
    neither before the call that precedes [destroy_obj] nor after it.
    Entered in such a state [destroy_obj] frees the object and closes
    nothing. *)
Theorem close_obj_destroys_drained (junk : option ptr) (fuel : nat) (obj : ptr)
    (w : world) :
  (exists tr, trace (fst (close_obj junk fuel obj w)) = trace w ++ tr /\
     (forall pre p o' post, tr = pre ++ EvDestroyObj p o' :: post ->
        bufInPtr o' = bufOutPtr o' /\ fd o' < 0 /\
        exists o, heap w !! p = Some o /\ type o = SOCKET /\
          heap (fst (close_obj junk fuel obj w)) !! p = None /\
          (0 <= fd o ->
           exists pre', pre = pre' ++ [EvSysClose (fd o)] /\
             (fds_exclusive w ->
              ~ In (fd o) (closed_fds pre') /\ ~ In (fd o) (closed_fds post)))) /\
     (forall d, In d (closed_fds tr) <->
        exists p o, heap w !! p = Some o /\ fd o = d /\ 0 <= d /\
                    fd_given_up (fst (close_obj junk fuel obj w)) p) /\
     (fds_exclusive w -> NoDup (closed_fds tr))) /\
  (forall msg, snd (close_obj junk fuel obj w) <> Abort msg) /\
  (forall p o w0,
     heap w0 !! p = Some o -> bufInPtr o = bufOutPtr o -> fd o < 0 ->
     destroy_obj p w0
     = (mk_world (delete p (heap w0)) (trace w0 ++ [EvDestroyObj p o]) (writes w0),
        Ok tt)).
Proof.
  split; [|split].
  - destruct (close_obj_closes_once junk fuel obj w) as [_ (tr & Htr & Hcl & Hnd & Hd)].
    exists tr. split; [exact Htr|]. split; [|split; assumption].
    intros pre p o' post Hsplit.
    destruct (Hd _ _ _ _ Hsplit) as (Hbuf & Hfd & o & Hp & Hty & Hnone & Hpre).
    repeat (split; [assumption|]). exists o. repeat (split; [assumption|]).
    intros Hpos. destruct (Hpre Hpos) as (pre' & ->). exists pre'.
    split; [reflexivity|]. intros Hex. specialize (Hnd Hex).
    rewrite Hsplit, !closed_fds_app in Hnd. cbn in Hnd.
    rewrite <- app_assoc in Hnd. cbn in Hnd.
    apply NoDup_app in Hnd as (_ & Hpre' & Hnd).
    apply NoDup_cons in Hnd as [Hpost _].
    split.
    + intros Hin. apply list_elem_of_In in Hin. apply (Hpre' _ Hin). left.
    + intros Hin. apply Hpost, list_elem_of_In, Hin.
  - apply close_obj_no_abort.
  - intros p o w0 Hp Hempty Hfd.
    unfold destroy_obj, bind, deref, emit, lift, assert, free, ret. simpl.
    rewrite Hp. simpl. rewrite (proj2 (Z.eqb_eq _ _) Hempty). simpl.
    rewrite Z.geb_leb, (proj2 (Z.leb_gt 0 (fd o))) by lia. simpl.
    rewrite Hp. reflexivity.
Qed.

Lemma close_obj_destroys_drained_witness :
  exists pre', [EvCloseObj pS2; EvSysClose 8] = pre' ++ [EvSysClose 8] /\
    ~ In 8 (closed_fds pre').
Proof.
  destruct (close_obj_destroys_drained (Some pC) 2 pS2 session)
    as [(tr & Htr & Hd & _) _].
  vm_compute in Htr. subst tr.
  destruct (Hd [EvCloseObj pS2; EvSysClose 8] pS2 (torn_down objS2) [] eq_refl)
    as (_ & _ & o & Ho & _ & _ & Hpre).
  vm_compute in Ho. injection Ho as <-.
  destruct Hpre as (pre' & Hpre' & Hex); [cbn; lia|].
  exists pre'. split; [exact Hpre'|]. apply Hex.
  intros p q o o' Hp Hq _ Hfd.
  unfold session, session_heap in Hp, Hq. cbn [heap] in Hp, Hq.
  repeat (rewrite lookup_insert in Hp; case_decide; [injection Hp as <-|]);
  repeat (rewrite lookup_insert in Hq; case_decide; [injection Hq as <-|]);
    try discriminate; try congruence.
Defined.

(** *** The teardown that was put off *)

Lemma closed_fds_In (d : Z) (tr : list event) :
  In d (closed_fds tr) <-> In (EvSysClose d) tr.
Proof.
  unfold closed_fds. induction tr as [|e tr IH]; simpl; [tauto|].
  destruct e; simpl; rewrite IH; split; intros H;
    try (right; exact H); try (destruct H as [H|H]; [discriminate|exact H]).
  - destruct H as [->|H]; auto.
  - destruct H as [[= ->]|H]; auto.
Qed.

(** A call of [close_obj] that returns, on an object whose buffer is empty,
    has torn it down. *)
Lemma close_obj_completes (junk : option ptr) (fuel : nat) (obj : ptr)
    (w w2 : world) (o : obj_t) :
  heap w !! obj = Some o -> bufInPtr o = bufOutPtr o ->
  close_obj junk fuel obj w = (w2, Ok tt) ->
  match type o with
  | SOCKET => heap w2 !! obj = None
  | _ => exists o2, heap w2 !! obj = Some o2 /\ gotEOF o2 = false /\ fd o2 < 0
  end /\
  exists tr, trace w2 = trace w ++ EvCloseObj obj :: tr /\
    (0 <= fd o -> In (EvSysClose (fd o)) tr).
Proof.
  intros Hobj Hempty Hrun.
  assert (Hfinal : match type o with
                   | SOCKET => heap w2 !! obj = None
                   | _ => exists o2, heap w2 !! obj = Some o2 /\ gotEOF o2 = false /\
                                     fd o2 < 0
                   end).
  { destruct fuel as [|fuel]; [discriminate|]. cbn [close_obj] in Hrun.
    apply bind_ok in Hrun as ([] & w1 & Hlinks & Htear).
    pose proof (links_closes junk (close_obj junk fuel) fuel obj
                  (close_obj_closes junk fuel) w) as Hkeep.
    rewrite Hlinks in Hkeep. cbn [fst] in Hkeep.
    destruct (heap w1 !! obj) as [o1|] eqn:Hobj1;
      [|unfold close_obj_teardown, bind, deref in Htear; rewrite Hobj1 in Htear;
        discriminate].
    destruct (Hkeep _ _ Hobj1) as (o0 & Hobj0 & _ & Hty & _ & Hin & Hout & _).
    rewrite Hobj in Hobj0. injection Hobj0 as <-.
    rewrite (close_obj_teardown_eq _ _ _ Hobj1) in Htear.
    rewrite (proj2 (Z.eqb_eq _ _)) in Htear by congruence. cbn [negb] in Htear.
    injection Htear as <-. cbn [heap]. rewrite <- Hty.
    pose proof (torn_down_fd o1) as Hneg.
    assert (Heof : gotEOF (torn_down o1) = false)
      by (unfold torn_down; destruct (_ >=? _); reflexivity).
    destruct (type o1); rewrite ?lookup_insert_eq, ?lookup_delete_eq; eauto. }
  split; [exact Hfinal|].
  destruct (close_obj_first_event _ _ _ _ _ Hrun) as (tr & Htr).
  exists tr. split; [exact Htr|]. intros Hpos.
  pose proof (close_obj_closes_once junk fuel obj w) as [_ (tr' & Htr' & Hcl & _)].
  rewrite Hrun in Htr', Hcl. cbn [fst] in Htr', Hcl.
  rewrite Htr in Htr'. apply app_inv_head in Htr'. subst tr'.
  assert (Hin : In (fd o) (closed_fds (EvCloseObj obj :: tr))).
  { apply Hcl. exists obj, o. repeat (split; [auto|]).
    intros o2 Ho2. destruct (type o).
    - destruct Hfinal as (o2' & Ho2' & _ & Hneg). congruence.
    - destruct Hfinal as (o2' & Ho2' & _ & Hneg). congruence.
    - congruence. }
  apply closed_fds_In in Hin as [Hin|Hin]; [discriminate|exact Hin].
Qed.


Lemma write_again_fd (MAX_BUF_SIZE : Z) (rets : list sys_ret) (obj : obj_t) (avail : Z)
    (obj' : obj_t) (evs : list obj_event) (rets' : list sys_ret) :
  write_again MAX_BUF_SIZE rets obj avail = Ok (obj', evs, rets') -> fd obj' = fd obj.
Proof.
  revert obj' evs rets'. induction rets as [|r rets IH]; intros obj' evs rets';
    simpl; [discriminate|].
  destruct (ret_n r <? 0).
  - destruct (ret_errno r); try discriminate.
    + destruct (write_again _ _ _ _) as [[[o1 e1] r1]| | |]; simpl; try discriminate.
      intros [= <- _ _]. eapply IH. reflexivity.
    + intros [= <- _ _]. reflexivity.
    + intros [= <- _ _]. reflexivity.
    + intros [= <- _ _]. reflexivity.
  - destruct (ret_n r >? 0); [|intros [= <- _ _]; reflexivity].
    intros [= <- _ _]. simpl. destruct (_ =? _); reflexivity.
Qed.

Lemma write_to_obj_locked_fd (MAX_BUF_SIZE : Z) (rets : list sys_ret) (obj obj' : obj_t)
    (evs : list obj_event) (rets' : list sys_ret) :
  write_to_obj_locked MAX_BUF_SIZE rets obj = Ok (obj', evs, rets') -> fd obj' = fd obj.
Proof.
  unfold write_to_obj_locked.
  destruct (assert_bounds MAX_BUF_SIZE obj) as [[]| | |]; simpl; try discriminate.
  destruct (write_avail MAX_BUF_SIZE obj >? 0).
  - destruct (write_again _ _ _ _) as [[[o1 e1] r1]| | |] eqn:Hw; simpl; try discriminate.
    apply write_again_fd in Hw. unfold assert.
    destruct (0 <=? _); simpl; try discriminate.
    destruct (_ <? _); simpl; try discriminate.
    intros [= <- _ _]. exact Hw.
  - simpl. unfold assert.
    destruct (0 <=? _); simpl; try discriminate.
    destruct (_ <? _); simpl; try discriminate.
    intros [= <- _ _]. reflexivity.
Qed.

Lemma set_readers_same (o : obj_t) : set_readers (readers o) o = o.
Proof. destruct o. reflexivity. Qed.

Lemma close_obj_null_reader (fuel : nat) (obj : ptr) (w : world) (o : obj_t) :
  heap w !! obj = Some o -> writer o = None -> readers o = [] ->
  close_obj None (S (S fuel)) obj w = (add_trace [EvCloseObj obj] w, Fault).
Proof.
  intros Hobj Hwr Hrd.
  change (close_obj None (S (S fuel)) obj)
    with (close_obj_links None (close_obj None (S fuel)) (S fuel) obj ;;
          close_obj_teardown obj).
  unfold close_obj_links.
  change (close_obj_readers (close_obj None (S fuel)) (S fuel))
    with (fun (reader : option ptr) (obj : ptr) =>
            o <- deref obj ;;
            store obj (set_readers (snd (list_pop (readers o)))) ;;
            if opt_ptr_eqb reader (fst (list_pop (readers o))) then
              r <- deref_opt reader ;;
              (if opt_ptr_eqb (writer r) (Some obj) then
                 match reader with
                 | Some rp =>
                   store rp (set_writer None) ;;
                   r <- deref rp ;;
                   if list_is_empty (readers r) then close_obj None (S fuel) rp else ret tt
                 | None => lift Fault
                 end
               else ret tt) ;;
              close_obj_readers (close_obj None (S fuel)) fuel reader obj
            else ret tt).
  unfold bind, emit, deref, store, ret, deref_opt, lift.
  cbn [heap add_trace]. rewrite Hobj, Hwr. cbn [heap add_trace]. rewrite Hobj.
  cbn [heap add_trace set_heap]. rewrite Hobj, Hrd.
  cbn [list_pop head tail fst snd opt_ptr_eqb].
  rewrite <- Hrd at 1. rewrite set_readers_same.
  rewrite insert_id by exact Hobj. destruct w; reflexivity.
Qed.

(** C4 (the code departs from it).  The last step of [close_obj]: a buffer
    that still holds data gets [gotEOF] set and nothing else happens, the
    descriptor stays open; with an empty buffer [gotEOF] is cleared, an open
    descriptor is closed and [fd] set to -1, and the object is destroyed
    exactly when it is a socket.  [write_to_obj], once it has written, calls
    [close_obj] exactly when [gotEOF] is set and the buffer empty, and when
    that call returns the teardown is done: the socket is gone, the console
    or logfile has [gotEOF] cleared and no descriptor, and [close(2)] was
    called on the descriptor.  But the call need not get that far.  An
    object whose teardown was put off has lost its writer, so [close_obj]
    reads its local [reader] unassigned in the loop that compares where it
    should assign; when the object has no reader left and [reader] holds
    [NULL], the loop is entered and [NULL] dereferenced, with the descriptor
    open and [gotEOF] set. *)
Theorem close_obj_teardown_spec (MAX_BUF_SIZE : Z) (junk : option ptr)
    (fuel : nat) (w : world) (obj : ptr) (o : obj_t) :
  heap w !! obj = Some o ->
  close_obj junk (S fuel) obj
    = (close_obj_links junk (close_obj junk fuel) fuel obj ;;
       close_obj_teardown obj) /\
  (bufInPtr o <> bufOutPtr o ->
   close_obj_teardown obj w
   = (set_heap (<[obj := set_gotEOF true o]> (heap w)) w, Ok tt)) /\
  (bufInPtr o = bufOutPtr o ->
   gotEOF (torn_down o) = false /\ fd (torn_down o) < 0 /\
   close_obj_teardown obj w
   = (mk_world
        (match type o with
         | SOCKET => delete obj (heap w)
         | _ => <[obj := torn_down o]> (heap w)
         end)
        (trace w ++ (if fd o >=? 0 then [EvSysClose (fd o)] else [])
                 ++ (match type o with
                     | SOCKET => [EvDestroyObj obj (torn_down o)]
                     | _ => []
                     end))
        (writes w), Ok tt)) /\
  (fd o >= 0 ->
   forall o' evs rets',
   write_to_obj_locked MAX_BUF_SIZE (writes w) o = Ok (o', evs, rets') ->
   let w1 := mk_world (<[obj := o']> (heap w)) (trace w ++ map (EvObj obj) evs) rets' in
   write_to_obj MAX_BUF_SIZE junk fuel obj w
   = (if gotEOF o' && (bufInPtr o' =? bufOutPtr o')
      then close_obj junk fuel obj w1
      else (w1, Ok tt)) /\
   (gotEOF o' = true -> bufInPtr o' = bufOutPtr o' ->
    (forall w2,
       write_to_obj MAX_BUF_SIZE junk fuel obj w = (w2, Ok tt) ->
       match type o' with
       | SOCKET => heap w2 !! obj = None
       | _ => exists o2, heap w2 !! obj = Some o2 /\ gotEOF o2 = false /\ fd o2 < 0
       end /\
       exists tr, trace w2 = trace w1 ++ EvCloseObj obj :: tr /\
                  In (EvSysClose (fd o)) tr) /\
    (writer o' = None -> readers o' = [] ->
     write_to_obj MAX_BUF_SIZE None (S (S fuel)) obj w
     = (add_trace [EvCloseObj obj] w1, Fault) /\
     exists o1, heap (add_trace [EvCloseObj obj] w1) !! obj = Some o1 /\
                gotEOF o1 = true /\ fd o1 >= 0))).
Proof.
  intros Hobj. split; [reflexivity|]. split; [|split].
  - intros Hne. rewrite (close_obj_teardown_eq _ _ _ Hobj).
    rewrite (proj2 (Z.eqb_neq _ _) Hne). reflexivity.
  - intros Heq. split; [|split].
    + unfold torn_down. destruct (_ >=? _); reflexivity.
    + unfold torn_down. simpl. destruct (fd o >=? 0) eqn:Hfd; simpl; zbool; lia.
    + rewrite (close_obj_teardown_eq _ _ _ Hobj).
      rewrite (proj2 (Z.eqb_eq _ _) Heq). reflexivity.
  - intros Hfd o' evs rets' Hlocked w1.
    assert (Hcall : forall junk fuel,
              write_to_obj MAX_BUF_SIZE junk fuel obj w
              = (if gotEOF o' && (bufInPtr o' =? bufOutPtr o')
                 then close_obj junk fuel obj w1
                 else (w1, Ok tt))).
    { intros junk0 fuel0.
      unfold write_to_obj, bind, deref, lift, assert. rewrite Hobj.
      rewrite Z.geb_leb, (proj2 (Z.leb_le 0 (fd o))) by lia.
      rewrite (proj2 (Z.ltb_ge (fd o) 0)) by lia.
      rewrite Hlocked. unfold store. simpl. rewrite Hobj. simpl.
      rewrite lookup_insert_eq. destruct (gotEOF o' && _); reflexivity. }
    split; [apply Hcall|].
    intros Heof Hempty.
    assert (Hobj1 : heap w1 !! obj = Some o') by apply lookup_insert_eq.
    pose proof (write_to_obj_locked_fd _ _ _ _ _ _ Hlocked) as Hfd'.
    split.
    + intros w2. rewrite Hcall, Heof, (proj2 (Z.eqb_eq _ _) Hempty). cbn [andb].
      intros Hrun.
      destruct (close_obj_completes _ _ _ _ _ _ Hobj1 Hempty Hrun)
        as (Hfinal & tr & Htr & Hin).
      split; [exact Hfinal|]. exists tr. split; [exact Htr|].
      rewrite <- Hfd'. apply Hin. lia.
    + intros Hwr Hrd. split.
      * rewrite Hcall, Heof, (proj2 (Z.eqb_eq _ _) Hempty). cbn [andb].
        apply (close_obj_null_reader _ _ _ o'); assumption.
      * exists o'. split; [exact Hobj1|]. split; [exact Heof|lia].
Qed.

(** [draining_eof] is where [close_obj] leaves [draining] when [reader]
    holds some address. *)
Example teardown_put_off (p : ptr) :
  close_obj (Some p) 2 pC draining = (draining_eof, Ok tt).
Proof. vm_compute. reflexivity. Qed.

Lemma close_obj_teardown_spec_witness :
  write_to_obj 8 None 2 pC draining_eof
  = (mk_world
       {[ pC := mk_obj "c1" 5 true (bytes "abc.....") 3 3 None [] CONSOLE ]}
       [ EvCloseObj pC;
         EvObj pC MutexLock; EvObj pC (SysWrite 5 0 3); EvObj pC MutexUnlock;
         EvCloseObj pC ] [],
     Fault).
Proof.
  assert (H : heap draining_eof !! pC
              = Some (mk_obj "c1" 5 true (bytes "abc.....") 3 0 None [] CONSOLE))
    by reflexivity.
  destruct (close_obj_teardown_spec 8 None 0 draining_eof pC _ H)
    as (_ & _ & _ & Hwrite).
  destruct (Hwrite ltac:(simpl; lia)
              (mk_obj "c1" 5 true (bytes "abc.....") 3 3 None [] CONSOLE)
              [MutexLock; SysWrite 5 0 3; MutexUnlock] [] eq_refl)
    as (_ & Hdefer).
  destruct (Hdefer eq_refl eq_refl) as (_ & Hnull).
  destruct (Hnull eq_refl eq_refl) as (Hrun & _).
  rewrite Hrun. reflexivity.
Defined.

(** *** The notice of a steal *)

Lemma write_obj_data_returned (MAX_BUF_SIZE : Z) (obj obj' : obj_t)
    (src : list ascii) (len n : Z) (evs : list obj_event) :
  1 <= len ->
  write_obj_data MAX_BUF_SIZE obj (Some src) len = Ok (obj', n, evs) ->
  buf_inv MAX_BUF_SIZE obj /\ n = Z.min len (MAX_BUF_SIZE - 1).
Proof.
  intros Hlen. unfold write_obj_data.
  rewrite (proj2 (Z.leb_gt _ _)) by lia.
  destruct (assert_bounds MAX_BUF_SIZE obj) as [[]| | |] eqn:Hb; simpl; try discriminate.
  apply assert_bounds_inv in Hb. intros H. split; [exact Hb|]. revert H.
  repeat (split_if; simpl);
    match goal with
    | |- obind (assert_bounds MAX_BUF_SIZE ?o) _ = _ -> _ =>
      destruct (assert_bounds MAX_BUF_SIZE o) as [[]| | |]; simpl; try discriminate;
      intros [= _ <- _]; zbool; lia
    end.
Qed.

(** A write that brings a buffer that holds data to exactly [MAX_BUF_SIZE]
    bytes leaves [bufInPtr] on [bufOutPtr]. *)
Lemma write_obj_data_fills (MAX_BUF_SIZE : Z) (obj : obj_t) (src : list ascii)
    (len : Z) :
  buf_inv MAX_BUF_SIZE obj ->
  bufInPtr obj <> bufOutPtr obj ->
  1 <= len <= MAX_BUF_SIZE - 1 ->
  buf_used MAX_BUF_SIZE obj + len = MAX_BUF_SIZE ->
  exists obj',
    write_obj_data MAX_BUF_SIZE obj (Some src) len
    = Ok (obj', len, [MutexLock; MutexUnlock]) /\
    bufInPtr obj' = bufOutPtr obj'.
Proof.
  intros Hinv Hne Hlen Hfill. unfold write_obj_data.
  rewrite (proj2 (Z.leb_gt _ _)) by lia.
  rewrite Z.geb_leb, (proj2 (Z.leb_gt _ _)) by lia.
  rewrite (assert_bounds_ok _ _ Hinv). simpl obind.
  destruct Hinv as [[Hi0 Hi1] [Ho0 Ho1]]. unfold buf_used in Hfill.
  destruct (bufInPtr obj >=? bufOutPtr obj) eqn:Hcmp; zbool;
  repeat (split_if; simpl in *; zbool; try lia);
    (rewrite assert_bounds_ok; [|unfold buf_inv; simpl; lia]);
    simpl; eexists; (split; [reflexivity|]); simpl; lia.
Qed.

Lemma buf_content_empty (MAX_BUF_SIZE : Z) (obj : obj_t) :
  bufInPtr obj = bufOutPtr obj -> buf_content MAX_BUF_SIZE obj = [].
Proof.
  intros H. unfold buf_content. rewrite H, Z.geb_leb, Z.leb_refl, Nat.sub_diag.
  reflexivity.
Qed.

Lemma length_list_ascii_of_string (s : string) :
  length (list_ascii_of_string s) = String.length s.
Proof. induction s as [|c s IH]; simpl; congruence. Qed.

Lemma stolen_notice_strlen (now dst_name src_name : string) :
  1 <= strlen (stolen_notice now dst_name src_name).
Proof. unfold strlen, stolen_notice, nl. simpl String.length. lia. Qed.

(** What [write_obj_data] makes of a buffer, from its answer. *)
Lemma write_obj_data_buffer (MAX_BUF_SIZE : Z) (obj obj' : obj_t) (s : string)
    (n : Z) (evs : list obj_event) :
  1 <= strlen s ->
  write_obj_data MAX_BUF_SIZE obj (Some (list_ascii_of_string s)) (strlen s)
  = Ok (obj', n, evs) ->
  n = Z.min (strlen s) (MAX_BUF_SIZE - 1) /\
  (2 <= MAX_BUF_SIZE -> length (buf obj) = Z.to_nat MAX_BUF_SIZE ->
   buf_used MAX_BUF_SIZE obj + n <> MAX_BUF_SIZE ->
   buf_content MAX_BUF_SIZE obj'
   = last_bytes (MAX_BUF_SIZE - 1)
       (buf_content MAX_BUF_SIZE obj ++ take (Z.to_nat n) (list_ascii_of_string s))) /\
  (bufInPtr obj <> bufOutPtr obj -> buf_used MAX_BUF_SIZE obj + n = MAX_BUF_SIZE ->
   bufInPtr obj' = bufOutPtr obj' /\ buf_content MAX_BUF_SIZE obj' = []).
Proof.
  intros Hlen Hw.
  destruct (write_obj_data_returned _ _ _ _ _ _ _ Hlen Hw) as [Hinv ->].
  split; [reflexivity|].
  assert (Hsrc : (Z.to_nat (Z.min (strlen s) (MAX_BUF_SIZE - 1))
                  <= length (list_ascii_of_string s))%nat).
  { rewrite length_list_ascii_of_string. unfold strlen. lia. }
  assert (Hclamp : 2 <= MAX_BUF_SIZE ->
            write_obj_data MAX_BUF_SIZE obj (Some (list_ascii_of_string s)) (strlen s)
            = write_obj_data MAX_BUF_SIZE obj (Some (list_ascii_of_string s))
                (Z.min (strlen s) (MAX_BUF_SIZE - 1))).
  { intros Hmax. destruct (Z_lt_le_dec (strlen s) MAX_BUF_SIZE).
    - rewrite Z.min_l by lia. reflexivity.
    - rewrite Z.min_r by lia. apply write_obj_data_clamp; lia. }
  split.
  - intros Hmax Hbuf Hfill. rewrite (Hclamp Hmax) in Hw.
    destruct (write_obj_data_fifo MAX_BUF_SIZE obj (list_ascii_of_string s)
                (Z.min (strlen s) (MAX_BUF_SIZE - 1)))
      as (o1 & e1 & Hw1 & Hcontent & _); auto; [lia|].
    rewrite Hw1 in Hw. injection Hw as <- <-. exact Hcontent.
  - intros Hne Hfill.
    assert (Hmax : 2 <= MAX_BUF_SIZE) by (unfold buf_inv in Hinv; lia).
    rewrite (Hclamp Hmax) in Hw.
    destruct (write_obj_data_fills MAX_BUF_SIZE obj (list_ascii_of_string s)
                (Z.min (strlen s) (MAX_BUF_SIZE - 1)))
      as (o1 & Hw1 & Hsame); auto; [lia|].
    rewrite Hw1 in Hw. injection Hw as <- <-.
    split; [exact Hsame|apply buf_content_empty, Hsame].
Qed.

(** When the client of a running session goes, [close_obj] frees its socket
    and leaves the console with that socket as its writer (the loop over the
    readers stops at the first one); the steal of the next client then
    dereferences the freed socket. *)
Example client_leaves (junk : option ptr) :
  close_obj junk 3 pS1 session = (session_left, Ok tt).
Proof. vm_compute. reflexivity. Qed.

Example steal_after_leave (junk : option ptr) :
  create_obj_link 8 junk a_time open9 3 pS2 pC session_left = (session_left, Fault).
Proof. vm_compute. reflexivity. Qed.

(** C5 (the code departs from it): a steal.  When [dst] already has a
    writer [W], a call of [create_obj_link] that returns has given the notice
    and its length to [write_obj_data] for [W] and then called [close_obj] on
    [W], in the world that write left; afterwards [dst]'s writer is [src],
    [dst] is on [src]'s list of readers, and [open_obj] has been called on
    each of [src] and [dst] that had no descriptor.  The write takes the
    first [MAX_BUF_SIZE - 1] bytes of the notice at most and, away from the
    exact fill, leaves them at the end of [W]'s buffer.  When they bring a
    buffer that holds data to exactly [MAX_BUF_SIZE] bytes, the buffer reads
    as empty instead: [close_obj] finds nothing to wait for and frees [W],
    and the notice is lost.  And a writer that was freed before the call
    (as [close_obj] leaves the console's writer when the client goes) is
    dereferenced. *)
Theorem create_obj_link_steal (MAX_BUF_SIZE : Z) (junk : option ptr)
    (now : string) (sys_open : string -> Z) (fuel : nat) (src dst W : ptr)
    (d : obj_t) (w : world) :
  heap w !! dst = Some d -> writer d = Some W ->
  (forall s, heap w !! src = Some s -> type s = SOCKET -> type d = CONSOLE ->
     heap w !! W = None ->
     create_obj_link MAX_BUF_SIZE junk now sys_open fuel src dst w = (w, Fault)) /\
  (forall w',
   create_obj_link MAX_BUF_SIZE junk now sys_open fuel src dst w = (w', Ok tt) ->
   exists s wo wo' n evs w2 tr,
    heap w !! src = Some s /\ heap w !! W = Some wo /\
    let notice :=
      (nl ++ "Console '" ++ name d ++ "' stolen by <" ++ name s ++ "> at " ++ now
       ++ "." ++ nl)%string in
    let w1 :=
      mk_world (<[W := wo']> (heap w))
        (trace w ++ EvWriteObjData W (Some (list_ascii_of_string notice)) (strlen notice)
                 :: map (EvObj W) evs)
        (writes w) in
    write_obj_data MAX_BUF_SIZE wo (Some (list_ascii_of_string notice)) (strlen notice)
    = Ok (wo', n, evs) /\
    n = Z.min (strlen notice) (MAX_BUF_SIZE - 1) /\
    (2 <= MAX_BUF_SIZE -> length (buf wo) = Z.to_nat MAX_BUF_SIZE ->
     buf_used MAX_BUF_SIZE wo + n <> MAX_BUF_SIZE ->
     buf_content MAX_BUF_SIZE wo'
     = last_bytes (MAX_BUF_SIZE - 1)
         (buf_content MAX_BUF_SIZE wo
          ++ take (Z.to_nat n) (list_ascii_of_string notice))) /\
    close_obj junk fuel W w1 = (w2, Ok tt) /\
    (bufInPtr wo <> bufOutPtr wo -> buf_used MAX_BUF_SIZE wo + n = MAX_BUF_SIZE ->
     buf_content MAX_BUF_SIZE wo' = [] /\ heap w2 !! W = None) /\
    trace w' = trace w1 ++ EvCloseObj W :: tr /\
    writer <$> heap w' !! dst = Some (Some src) /\
    (exists s', heap w' !! src = Some s' /\ In dst (readers s')) /\
    (fd s < 0 -> In (EvOpenObj src) tr) /\
    (fd d < 0 -> In (EvOpenObj dst) tr)).
Proof.
  intros Hd HW. split.
  { intros s Hs Hts Htd HWnone.
    unfold create_obj_link, bind, deref, lift, assert.
    rewrite Hd, HW, Hs, Hts, Htd, HWnone. reflexivity. }
  intros w' H. unfold create_obj_link in H.
  apply bind_ok in H as (d0 & w0 & H0 & H). apply deref_ok in H0 as [-> Hd0].
  rewrite Hd in Hd0. injection Hd0 as <-. rewrite HW in H.
  apply bind_ok in H as ([] & w2 & Hsteal & H).
  (* the steal *)
  apply bind_ok in Hsteal as (s & ? & Hs & Hsteal). apply deref_ok in Hs as [-> Hs].
  remember (stolen_notice now (name d) (name s)) as notice eqn:Hnotice.
  apply bind_ok in Hsteal as ([] & ? & Ha & Hsteal). apply lift_ok in Ha as [-> _].
  apply bind_ok in Hsteal as ([] & ? & Ha & Hsteal). apply lift_ok in Ha as [-> _].
  apply bind_ok in Hsteal as (wo & ? & Hwo & Hsteal). apply deref_ok in Hwo as [-> Hwo].
  apply bind_ok in Hsteal as ([] & ? & Ha & Hsteal). apply lift_ok in Ha as [-> Hsock].
  apply bind_ok in Hsteal as (n & w1 & Hwrite & Hclose).
  match type of Hwrite with
  | write_obj_data_at _ _ ?a ?b _ = _ =>
    pose proof (write_obj_data_at_fd MAX_BUF_SIZE W a b w) as Hfd1
  end.
  rewrite Hwrite in Hfd1. simpl in Hfd1.
  apply write_obj_data_at_ok in Hwrite as (wo0 & wo' & evs & Hwo0 & Hw & Hw1).
  rewrite Hwo in Hwo0. injection Hwo0 as <-.
  pose proof (close_obj_fd junk fuel W w1) as Hfd2.
  rewrite Hclose in Hfd2. simpl in Hfd2.
  pose proof Hclose as Hcalled.
  apply close_obj_first_event in Hclose as (trc & Htrc).
  (* the buffer of [W] *)
  assert (Hlen : 1 <= strlen notice) by (subst notice; apply stolen_notice_strlen).
  destruct (write_obj_data_buffer _ _ _ _ _ _ Hlen Hw) as (Hn & Happend & Hfill).
  (* the link *)
  apply bind_ok in H as ([] & w3 & Hst1 & H). apply store_ok in Hst1 as (d2 & Hd2 & Hw3).
  apply bind_ok in H as (s3 & ? & Hs3 & H). apply deref_ok in Hs3 as [-> Hs3].
  apply bind_ok in H as ([] & w4 & Hst2 & H). apply store_ok in Hst2 as (s3' & Hs3' & Hw4).
  rewrite Hs3 in Hs3'. injection Hs3' as <-.
  apply bind_ok in H as (s4 & ? & Hs4 & H). apply deref_ok in Hs4 as [-> Hs4].
  apply bind_ok in H as ([] & w5 & Hopen1 & H).
  apply bind_ok in H as (d5 & ? & Hd5 & Hopen2). apply deref_ok in Hd5 as [-> Hd5].
  apply open_if_ok in Hopen1 as ([Hl1 Hl1'] & t5 & Ht5 & Hin5).
  apply open_if_ok in Hopen2 as ([Hl2 Hl2'] & t6 & Ht6 & Hin6).
  (* the objects at [src] and [dst] once linked *)
  assert (Hs4' : s4 = set_readers (readers s3 ++ [dst]) s3).
  { rewrite Hw4 in Hs4. simpl in Hs4. rewrite lookup_insert_eq in Hs4. congruence. }
  assert (Hd4 : exists d4, heap w4 !! dst = Some d4 /\ writer d4 = Some src /\
                           fd d4 = fd d2).
  { rewrite Hw4. simpl. destruct (decide (src = dst)) as [->|Hne].
    - rewrite lookup_insert_eq. eexists. split; [reflexivity|].
      rewrite Hw3 in Hs3. simpl in Hs3. rewrite lookup_insert_eq in Hs3.
      injection Hs3 as <-. auto.
    - rewrite lookup_insert_ne by congruence. rewrite Hw3. simpl.
      rewrite lookup_insert_eq. eexists. split; [reflexivity|]. auto. }
  destruct Hd4 as (d4 & Hd4 & Hd4w & Hd4fd).
  assert (Hfds3 : fd s3 = fd s4) by (rewrite Hs4'; reflexivity).
  (* descriptors that were closed at the call are closed when looked at *)
  assert (Hfd_src : fd s < 0 -> fd s4 < 0).
  { intros Hneg. rewrite <- Hfds3.
    rewrite Hw3 in Hs3. simpl in Hs3.
    assert (exists o2, heap w2 !! src = Some o2 /\ fd o2 = fd s3) as (o2 & Ho2 & <-).
    { destruct (decide (src = dst)) as [->|Hne].
      - rewrite lookup_insert_eq in Hs3. injection Hs3 as <-. eauto.
      - rewrite lookup_insert_ne in Hs3 by congruence. eauto. }
    destruct (Hfd2 _ _ Ho2) as (o1 & Ho1 & Hm2).
    destruct (Hfd1 _ _ Ho1) as (o0 & Ho0 & Hm1).
    rewrite Hs in Ho0. injection Ho0 as <-. auto. }
  assert (Hfd_dst : fd d < 0 -> fd d4 < 0).
  { intros Hneg. rewrite Hd4fd.
    destruct (Hfd2 _ _ Hd2) as (o1 & Ho1 & Hm2).
    destruct (Hfd1 _ _ Ho1) as (o0 & Ho0 & Hm1).
    rewrite Hd in Ho0. injection Ho0 as <-. auto. }
  exists s, wo, wo', n, evs, w2, (trc ++ t5 ++ t6).
  split; [exact Hs|]. split; [exact Hwo|].
  unfold stolen_notice in Hnotice. rewrite <- Hnotice. cbv zeta. rewrite <- Hw1.
  split; [exact Hw|]. split; [exact Hn|]. split; [exact Happend|].
  split; [exact Hcalled|]. split.
  { intros Hne Hfull. destruct (Hfill Hne Hfull) as [Hsame Hnil].
    split; [exact Hnil|].
    assert (HW1 : heap w1 !! W = Some wo') by (rewrite Hw1; apply lookup_insert_eq).
    destruct (close_obj_completes _ _ _ _ _ _ HW1 Hsame Hcalled) as [Hgone _].
    assert (Hty : type wo' = SOCKET).
    { apply write_obj_data_fields in Hw as (_ & _ & _ & _ & _ & Hty).
      rewrite Hty. unfold assert in Hsock. destruct (type wo); try discriminate.
      reflexivity. }
    rewrite Hty in Hgone. exact Hgone. }
  split.
  { rewrite Ht6, Ht5, Hw4, Hw3. simpl. rewrite Htrc.
    rewrite <- !app_assoc. simpl. rewrite <- ?app_assoc. reflexivity. }
  split.
  { destruct (Hl1' _ _ Hd4) as [d5' Hd5']. destruct (Hl2' _ _ Hd5') as [d6 Hd6].
    rewrite Hd6. simpl. f_equal.
    destruct (Hl2 _ _ Hd6) as (x5 & Hx5 & -> & _).
    destruct (Hl1 _ _ Hx5) as (x4 & Hx4 & -> & _). congruence. }
  split.
  { destruct (Hl1' _ _ Hs4) as [s5 Hs5]. destruct (Hl2' _ _ Hs5) as [s6 Hs6].
    exists s6. split; [exact Hs6|].
    destruct (Hl2 _ _ Hs6) as (x5 & Hx5 & _ & -> & _).
    destruct (Hl1 _ _ Hx5) as (x4 & Hx4 & _ & -> & _).
    rewrite Hs4 in Hx4. injection Hx4 as <-. rewrite Hs4'. simpl.
    apply in_or_app. right. left. reflexivity. }
  split.
  { intros Hneg. apply in_or_app. right. apply in_or_app. left.
    apply Hin5. apply Z.ltb_lt. auto. }
  { intros Hneg. destruct (decide (src = dst)) as [Heq|Hne].
    - subst dst. rewrite Hs in Hd. injection Hd as ->.
      apply in_or_app. right. apply in_or_app. left.
      apply Hin5. apply Z.ltb_lt. auto.
    - apply in_or_app. right. apply in_or_app. right.
      apply Hin6. apply Z.ltb_lt.
      destruct (Hl1 _ _ Hd5) as (x4 & Hx4 & _ & _ & Hfd5).
      rewrite Hfd5 by congruence. rewrite Hd4 in Hx4. injection Hx4 as <-. auto. }
Qed.

Lemma create_obj_link_steal_witness :
  exists wo' evs w2,
    write_obj_data 8 (mk_obj "u@h" 6 false (bytes "x.......") 1 0 (Some pC) [pC] SOCKET)
      (Some (list_ascii_of_string (stolen_notice a_time "c1" "v@h")))
      (strlen (stolen_notice a_time "c1" "v@h"))
    = Ok (wo', 7, evs) /\
    buf_content 8 wo' = [] /\
    close_obj None 3 pS1
      (mk_world (<[pS1 := wo']> (heap session_ahead))
         (EvWriteObjData pS1
            (Some (list_ascii_of_string (stolen_notice a_time "c1" "v@h")))
            (strlen (stolen_notice a_time "c1" "v@h")) :: map (EvObj pS1) evs) [])
    = (w2, Ok tt) /\
    heap w2 !! pS1 = None.
Proof.
  assert (Hd : heap session_ahead !! pC = Some objC) by reflexivity.
  assert (HW : writer objC = Some pS1) by reflexivity.
  destruct (create_obj_link_steal 8 None a_time open9 3 pS2 pC pS1 objC session_ahead
              Hd HW) as [_ Hok].
  destruct (Hok (fst (create_obj_link 8 None a_time open9 3 pS2 pC session_ahead)))
    as (s & wo & wo' & n & evs & w2 & tr & Hs & Hwo & Hw & Hn & _ & Hclose & Hfull & _).
  { vm_compute. reflexivity. }
  vm_compute in Hs. injection Hs as <-.
  vm_compute in Hwo. injection Hwo as <-.
  vm_compute in Hn. subst n.
  exists wo', evs, w2. split; [exact Hw|].
  destruct Hfull as [Hnil Hgone]; [simpl; lia|reflexivity|].
  split; [exact Hnil|]. split; [exact Hclose|exact Hgone].
Defined.

(** *** Linking a console to its logfile *)

(** X9: [create_obj_link] from a console to a logfile that has no writer
    and is not open.  The call returns; the logfile's writer is the console
    and the logfile is the last of the console's readers; [open_obj] has
    opened the file under the logfile's name.  When [open(2)] fails the link
    is made all the same, the logfile keeping the negative descriptor and
    an untouched buffer; otherwise the logfile gets, by one [write_obj_data],
    the header that names the console just linked.  No other object
    changes. *)
Theorem create_obj_link_logfile (MAX_BUF_SIZE : Z) (junk : option ptr)
    (now : string) (sys_open : string -> Z) (fuel : nat) (src dst : ptr)
    (s d : obj_t) (w : world) :
  heap w !! src = Some s -> heap w !! dst = Some d ->
  type s = CONSOLE -> type d = LOGFILE -> writer d = None -> fd d < 0 ->
  buf_inv MAX_BUF_SIZE d ->
  let d1 := set_fd (sys_open (name d)) (set_writer (Some src) d) in
  let header := log_header now (name s) in
  let opened := (if fd s <? 0 then [EvOpenObj src] else [])
                ++ [EvOpenObj dst; EvSysOpen (name d)] in
  exists w',
    create_obj_link MAX_BUF_SIZE junk now sys_open fuel src dst w = (w', Ok tt) /\
    heap w' !! src = Some (set_readers (readers s ++ [dst]) s) /\
    (forall p, p <> src -> p <> dst -> heap w' !! p = heap w !! p) /\
    if sys_open (name d) <? 0
    then heap w' !! dst = Some d1 /\ trace w' = trace w ++ opened
    else exists d' n evs,
           write_obj_data MAX_BUF_SIZE d1 (Some (bytes header)) (strlen header)
           = Ok (d', n, evs) /\
           heap w' !! dst = Some d' /\
           trace w' = trace w ++ opened
                      ++ EvWriteObjData dst (Some (bytes header)) (strlen header)
                         :: map (EvObj dst) evs.
Proof.
  intros Hs Hd Tys Tyd Hdw Hfd Hinv d1 header opened.
  assert (Hne : src <> dst) by (intros ->; congruence).
  unfold create_obj_link.
  unfold bind at 1, deref at 1. rewrite Hd, Hdw.
  unfold bind at 1, ret at 1.
  unfold bind at 1, store at 1. rewrite Hd.
  unfold bind at 1, deref at 1. run_heap.
  rewrite lookup_insert_ne by congruence. rewrite Hs.
  unfold bind at 1, store at 1. run_heap.
  rewrite lookup_insert_ne by congruence. rewrite Hs.
  unfold bind at 1, deref at 1. run_heap. rewrite lookup_insert_eq.
  unfold bind at 1.
  erewrite open_obj_no_file;
    [|run_heap; apply lookup_insert_eq|simpl; congruence].
  unfold bind at 1, deref at 1. run_heap.
  rewrite lookup_insert_ne by congruence. rewrite lookup_insert_eq.
  cbn [fd set_writer]. rewrite (proj2 (Z.ltb_lt (fd d) 0) Hfd).
  (* open_obj(dst) *)
  unfold open_obj.
  unfold bind at 1. unfold bind at 1, emit at 1.
  unfold bind at 1, deref at 1. run_heap.
  rewrite lookup_insert_ne by congruence. rewrite lookup_insert_eq.
  unfold bind at 1, lift at 1, assert at 1. cbn [fd set_writer].
  rewrite (proj2 (Z.ltb_lt (fd d) 0) Hfd).
  rewrite Z.geb_leb, (proj2 (Z.leb_gt 0 (fd d))) by lia.
  cbn [type set_writer]. rewrite Tyd.
  cbn [writer set_writer deref_opt].
  unfold bind at 1, deref at 1. run_heap. rewrite lookup_insert_eq.
  unfold bind at 1, lift at 1, assert at 1. cbn [type set_readers].
  rewrite Tys. cbn [obj_type_eqb].
  unfold bind at 1, emit at 1.
  unfold bind at 1, store at 1. run_heap.
  rewrite lookup_insert_ne by congruence. rewrite lookup_insert_eq.
  cbn [name set_writer].
  destruct (sys_open (name d) <? 0) eqn:Hopen.
  - eexists. split; [reflexivity|]. run_heap.
    split; [|split; [|split]].
    + rewrite lookup_insert_ne by congruence. apply lookup_insert_eq.
    + intros p Hps Hpd. rewrite !lookup_insert_ne by congruence. reflexivity.
    + rewrite lookup_insert_eq. reflexivity.
    + subst opened. cbn [fd set_readers]. rewrite <- !app_assoc. reflexivity.
  - unfold bind at 1, deref at 1. run_heap.
    rewrite lookup_insert_ne by congruence. rewrite lookup_insert_eq.
    cbn [name set_readers].
    assert (Hinv1 : buf_inv MAX_BUF_SIZE d1) by exact Hinv.
    destruct (write_obj_data_total MAX_BUF_SIZE d1 (Some (bytes header))
                (strlen header) Hinv1) as (d' & n & evs & Hw).
    unfold bind at 1.
    unfold write_obj_data_at, bind, emit, deref, lift, store, ret. run_heap.
    rewrite lookup_insert_eq.
    change (set_fd (sys_open (name d)) (set_writer (Some src) d)) with d1.
    change (list_ascii_of_string
              ("* Console [" ++ name s ++ "] log started on " ++ now ++ "."
               ++ nl ++ nl)) with (bytes header).
    change (strlen ("* Console [" ++ name s ++ "] log started on " ++ now ++ "."
                    ++ nl ++ nl)) with (strlen header).
    rewrite Hw. run_heap. rewrite lookup_insert_eq.
    eexists. split; [reflexivity|]. run_heap.
    split; [|split].
    + rewrite !lookup_insert_ne by congruence. apply lookup_insert_eq.
    + intros p Hps Hpd. rewrite !lookup_insert_ne by congruence. reflexivity.
    + exists d', n, evs. split; [reflexivity|]. split; [apply lookup_insert_eq|].
      subst opened. cbn [fd set_readers]. rewrite <- !app_assoc. reflexivity.
Qed.

Lemma create_obj_link_logfile_witness :
  let d1 := set_fd (open9 (name lone_logfile)) (set_writer (Some pC) lone_logfile) in
  let header := log_header a_time (name lone_console) in
  let opened := (if fd lone_console <? 0 then [EvOpenObj pC] else [])
                ++ [EvOpenObj pL; EvSysOpen (name lone_logfile)] in
  exists w',
    create_obj_link 8 None a_time open9 0 pC pL unlinked = (w', Ok tt) /\
    heap w' !! pC = Some (set_readers (readers lone_console ++ [pL]) lone_console) /\
    (forall p, p <> pC -> p <> pL -> heap w' !! p = heap unlinked !! p) /\
    if open9 (name lone_logfile) <? 0
    then heap w' !! pL = Some d1 /\ trace w' = trace unlinked ++ opened
    else exists d' n evs,
           write_obj_data 8 d1 (Some (bytes header)) (strlen header)
           = Ok (d', n, evs) /\
           heap w' !! pL = Some d' /\
           trace w' = trace unlinked ++ opened
                      ++ EvWriteObjData pL (Some (bytes header)) (strlen header)
                         :: map (EvObj pL) evs.
Proof.
  apply (create_obj_link_logfile 8 None a_time open9 0 pC pL lone_console lone_logfile
           unlinked); try reflexivity.
  unfold buf_inv; simpl; lia.
Defined.

(** The same link when the log cannot be opened: the logfile is a reader of
    the console all the same, with no descriptor and nothing in its
    buffer. *)
Example link_without_file :
  exists w',
    create_obj_link 8 None a_time open_fails 0 pC pL unlinked = (w', Ok tt) /\
    (writer <$> heap w' !! pL) = Some (Some pC) /\
    (fd <$> heap w' !! pL) = Some (-1) /\
    (buf_used 8 <$> heap w' !! pL) = Some 0 /\
    (readers <$> heap w' !! pC) = Some [pL] /\
    trace w' = [EvOpenObj pL; EvSysOpen "c1.log"].
Proof. eexists. repeat split; vm_compute; reflexivity. Qed.

(** *** A socket that is closed before it is linked *)

(** X18: a client that goes away before it is linked to a console.
    [create_socket_obj] returns an active socket at the fresh address, and
    [close_obj] on it reads its local [reader] unassigned, the socket having
    no writer.  When that holds a null pointer, [close_obj] goes on to
    dereference it; when it holds anything else, [close_obj] closes the
    descriptor once, destroys the socket, and the objects are again those
    there were before the socket was made. *)
Theorem fresh_socket_close (fresh : ptr) (raw : list ascii) (sys_time : Z)
    (user host : string) (sd : Z) (fuel : nat) (w : world) :
  heap w !! fresh = None -> 0 <= sd -> sys_time <> -1 ->
  exists w1 o1,
    create_socket_obj fresh raw sys_time (Some user) (Some host) sd w = (w1, Ok fresh) /\
    heap w1 = <[fresh := o1]> (heap w) /\
    o1 = set_fd sd (create_obj raw (user ++ "@" ++ host) SOCKET) /\
    snd (close_obj None (S (S fuel)) fresh w1) = Fault /\
    forall q, exists w2,
      close_obj (Some q) (S (S fuel)) fresh w1 = (w2, Ok tt) /\
      heap w2 = heap w /\
      trace w2 = trace w ++ [EvCloseObj fresh; EvSysClose sd;
                             EvDestroyObj fresh (set_fd (-1) o1)].
Proof.
  intros Hfresh Hsd Htime.
  set (o1 := set_fd sd (create_obj raw (user ++ "@" ++ host) SOCKET)).
  set (w1 := mk_world (<[fresh := o1]> (heap w)) (trace w) (writes w)).
  assert (Hcreate : create_socket_obj fresh raw sys_time (Some user) (Some host) sd w
                    = (w1, Ok fresh)).
  { unfold create_socket_obj, create_obj_at, bind, lift, assert, store, ret.
    simpl. rewrite Z.geb_leb, (proj2 (Z.leb_le 0 sd) Hsd).
    rewrite lookup_insert_eq.
    rewrite (proj2 (Z.eqb_neq sys_time (-1)) Htime).
    unfold set_heap. simpl. rewrite insert_insert_eq. reflexivity. }
  assert (H1 : heap w1 !! fresh = Some o1) by apply lookup_insert_eq.
  assert (Hlinks : forall junk,
            close_obj_links junk (close_obj junk (S fuel)) (S fuel) fresh w1
            = match junk with
              | Some _ => (add_trace [EvCloseObj fresh] w1, Ok tt)
              | None => (add_trace [EvCloseObj fresh] w1, Fault)
              end).
  { intros junk. unfold close_obj_links. cbn [close_obj_readers].
    unfold bind at 1, emit at 1.
    unfold bind at 1, deref at 1. cbn [heap add_trace]. rewrite H1.
    unfold bind at 1. cbn [writer o1 set_fd create_obj]. unfold ret at 1.
    unfold bind at 1, deref at 1. cbn [heap add_trace]. rewrite H1.
    unfold bind at 1, store at 1. cbn [heap add_trace]. rewrite H1.
    cbn [readers o1 set_fd create_obj list_pop head tail fst snd].
    assert (Hsame : set_heap (<[fresh := set_readers [] o1]> (heap w1))
                      (add_trace [EvCloseObj fresh] w1)
                    = add_trace [EvCloseObj fresh] w1).
    { unfold set_heap, add_trace. cbn [heap trace writes w1].
      rewrite insert_insert_eq. reflexivity. }
    change (mk_world (heap w1) (trace w1 ++ [EvCloseObj fresh]) (writes w1))
      with (add_trace [EvCloseObj fresh] w1).
    rewrite Hsame.
    destruct junk as [q|]; cbn [opt_ptr_eqb]; [reflexivity|].
    unfold bind, deref_opt, lift. reflexivity. }
  exists w1, o1. split; [exact Hcreate|]. split; [reflexivity|].
  split; [reflexivity|]. split.
  - change (close_obj None (S (S fuel)) fresh)
      with (close_obj_links None (close_obj None (S fuel)) (S fuel) fresh ;;
            close_obj_teardown fresh).
    unfold bind at 1. rewrite (Hlinks None). reflexivity.
  - intros q.
    change (close_obj (Some q) (S (S fuel)) fresh)
      with (close_obj_links (Some q) (close_obj (Some q) (S fuel)) (S fuel) fresh ;;
            close_obj_teardown fresh).
    unfold bind at 1. rewrite (Hlinks (Some q)).
    rewrite (close_obj_teardown_eq _ fresh o1) by exact H1.
    cbn [bufInPtr bufOutPtr o1 set_fd create_obj fd type negb Z.eqb].
    rewrite Z.geb_leb, (proj2 (Z.leb_le 0 sd) Hsd).
    eexists. split; [reflexivity|]. cbn [heap trace add_trace w1].
    split.
    + apply delete_insert_id. exact Hfresh.
    + unfold torn_down. cbn [fd set_gotEOF o1 set_fd create_obj].
      rewrite Z.geb_leb, (proj2 (Z.leb_le 0 sd) Hsd).
      rewrite <- !app_assoc. reflexivity.
Qed.

Lemma fresh_socket_close_witness :
  exists w1 o1,
    create_socket_obj 9%positive (bytes "........") 1000 (Some "w"%string)
      (Some "h"%string) 10 session = (w1, Ok 9%positive) /\
    heap w1 = <[9%positive := o1]> (heap session) /\
    o1 = set_fd 10 (create_obj (bytes "........") ("w" ++ "@" ++ "h") SOCKET) /\
    snd (close_obj None (S (S 0)) 9%positive w1) = Fault /\
    forall q, exists w2,
      close_obj (Some q) (S (S 0)) 9%positive w1 = (w2, Ok tt) /\
      heap w2 = heap session /\
      trace w2 = trace session ++ [EvCloseObj 9%positive; EvSysClose 10;
                                   EvDestroyObj 9%positive (set_fd (-1) o1)].
Proof.
  apply fresh_socket_close.
  - reflexivity.
  - lia.
  - discriminate.
Defined.

(** *** [compare_objs] orders the objects by name *)

Lemma char_val_inj (sg : bool) (c d : ascii) :
  char_val sg c = char_val sg d -> c = d.
Proof.
  unfold char_val. intros H.
  assert (Hc := nat_ascii_bounded c). assert (Hd := nat_ascii_bounded d).
  assert (nat_of_ascii c = nat_of_ascii d) as Heq.
  { destruct sg; simpl in H;
      repeat match type of H with
             | context [if ?b then _ else _] => destruct b eqn:?
             end; zbool; lia. }
  rewrite <- (ascii_nat_embedding c), <- (ascii_nat_embedding d), Heq. reflexivity.
Qed.

Lemma char_val_zero (sg : bool) : char_val sg zero = 0.
Proof. destruct sg; reflexivity. Qed.

Lemma char_val_diff (sg : bool) (c d : ascii) :
  char_val sg c - char_val sg d = 0 <-> c = d.
Proof.
  split; [|intros ->; lia]. intros H. apply (char_val_inj sg). lia.
Qed.

Ltac ascii_cases :=
  repeat match goal with
  | |- context [Ascii.eqb ?a ?b] =>
    destruct (Ascii.eqb_spec a b); subst; simpl; try congruence
  end.

Lemma compare_names_antisym (sg : bool) (x y : string) :
  compare_names sg x y = - compare_names sg y x.
Proof.
  revert y. induction x as [|c x IH]; intros [|d y]; simpl; try lia.
  ascii_cases; first [lia | apply IH].
Qed.

Lemma char_val_nonzero (sg : bool) (c : ascii) : c <> zero -> char_val sg c <> 0.
Proof.
  intros Hc H. apply Hc. apply (char_val_inj sg). rewrite char_val_zero. exact H.
Qed.

Lemma compare_names_zero (sg : bool) (x y : string) :
  compare_names sg x y = 0 <-> c_str x = c_str y.
Proof.
  revert y. induction x as [|c x IH]; intros [|d y]; simpl;
    rewrite ?char_val_zero; ascii_cases; rewrite ?char_val_zero;
    try (split; [reflexivity|lia]);
    try match goal with
        | Hc : ?c <> zero |- _ =>
          pose proof (char_val_nonzero sg c Hc);
          split; [lia|discriminate]
        end.
  - rewrite IH. split; [intros ->; reflexivity|intros [= ->]; reflexivity].
  - rewrite char_val_diff. split; [contradiction|intros [= ? _]; contradiction].
Qed.

Lemma compare_names_trans (sg : bool) (x y z : string) :
  compare_names sg x y < 0 -> compare_names sg y z < 0 ->
  compare_names sg x z < 0.
Proof.
  revert y z. induction x as [|c x IH]; intros [|d y] [|e z]; simpl;
    rewrite ?char_val_zero; ascii_cases; rewrite ?char_val_zero; try lia;
    repeat match goal with
           | Hc : ?c <> zero |- _ =>
             lazymatch goal with
             | _ : char_val sg c <> 0 |- _ => fail
             | _ => pose proof (char_val_nonzero sg c Hc)
             end
           end;
    try lia.
  apply IH.
Qed.

(** The order of two names may depend on the platform: a character above
    127 comes after the end of a string where [char] is unsigned, before it
    where [char] is signed. *)
Example compare_names_by_platform :
  compare_names false "c" (String "c" (String "200" "")) = -200 /\
  compare_names true "c" (String "c" (String "200" "")) = 56.
Proof. split; vm_compute; reflexivity. Qed.

(** X10: [compare_objs] orders objects by their names as C strings.  It
    gives 0 exactly when the two names are the same up to their NUL, the
    result changes sign when the arguments are exchanged, and "less than"
    (a negative result) is transitive; this holds whether [char] is signed
    or not. *)
Theorem compare_objs_orders (char_signed : bool) (a b c : obj_t) :
  (compare_objs char_signed a b = 0 <-> c_str (name a) = c_str (name b)) /\
  compare_objs char_signed a b = - compare_objs char_signed b a /\
  (compare_objs char_signed a b < 0 -> compare_objs char_signed b c < 0 ->
   compare_objs char_signed a c < 0).
Proof.
  unfold compare_objs. split; [|split].
  - apply compare_names_zero.
  - apply compare_names_antisym.
  - apply compare_names_trans.
Qed.

(** ** The configuration parser: the claims *)

Module ServerConfFacts.

Import ServerConf.

Lemma lex_next_pending (l : Lex) :
  (length (lex_rest (snd (lex_next l))) <= length (lex_rest l))%nat /\
  (fst (lex_next l) = LEX_EOF \/
   length (lex_rest (snd (lex_next l))) < length (lex_rest l))%nat.
Proof.
  unfold lex_next. destruct (lex_rest l) as [|x rest]; simpl; split; auto; lia.
Qed.

Lemma lex_next_prev (l : Lex) : lex_prev (snd (lex_next l)) = fst (lex_next l).
Proof. unfold lex_next. destruct (lex_rest l); reflexivity. Qed.

Lemma skip_line_total (fuel : nat) (l : Lex) :
  (length (lex_rest l) < fuel)%nat ->
  exists l', skip_line fuel l = Some l' /\
    (length (lex_rest l') <= length (lex_rest l))%nat.
Proof.
  revert l. induction fuel as [|fuel IH]; intros l Hlt; [lia|].
  simpl. case_decide as Hc; [|eauto].
  destruct (lex_next_pending l) as [Hle [Heof|Hdec]].
  - exists (snd (lex_next l)). split; [|lia].
    pose proof (lex_next_prev l) as Hp. rewrite Heof in Hp.
    destruct fuel; simpl; case_decide as Hc'; try reflexivity;
      destruct Hc' as [_ Hc']; congruence.
  - destruct (IH (snd (lex_next l))) as (l' & Hl' & Hle'); [lia|].
    exists l'. split; [exact Hl'|lia].
Qed.

Lemma skip_tokens_total (fuel : nat) (tok : token) (l : Lex) :
  (length (lex_rest l) < fuel)%nat ->
  exists l', skip_tokens fuel tok l = Some l' /\
    (length (lex_rest l') <= length (lex_rest l))%nat.
Proof.
  revert tok l. induction fuel as [|fuel IH]; intros tok l Hlt; [lia|].
  simpl. case_decide as Hc; [|eauto].
  destruct (lex_next_pending l) as [Hle [Heof|Hdec]].
  - exists (snd (lex_next l)). split; [|lia]. rewrite Heof.
    destruct fuel; simpl; try reflexivity; case_decide as Hc'; try reflexivity;
      destruct Hc' as [_ Hc']; congruence.
  - destruct (IH (fst (lex_next l)) (snd (lex_next l))) as (l' & Hl' & Hle'); [lia|].
    exists l'. split; [exact Hl'|lia].
Qed.

Section ParserFacts.

Variable MAX_LINE : nat.
Variable DEFAULT_CONMAN_PORT : Z.
Variable DEFAULT_CONSOLE_BAUD : Z.
Variable port0 : Z.

Lemma parser_step_refl (st : pstate) : parser_step port0 st st.
Proof. split; auto. Qed.

Lemma parser_step_trans (a b c : pstate) :
  parser_step port0 a b -> parser_step port0 b c -> parser_step port0 a c.
Proof. intros [H1 I1] [H2 I2]. split; [lia|auto]. Qed.

Lemma port_inv_set_lex (l : Lex) (st : pstate) :
  port_inv port0 st -> port_inv port0 (set_lex l st).
Proof. auto. Qed.

Lemma ports_set_app (a b : list conf_event) :
  ports_set (a ++ b) = ports_set a ++ ports_set b.
Proof. unfold ports_set. apply omap_app. Qed.

Lemma port_inv_add_out (e : conf_event) (st : pstate) :
  (forall n, e <> PortSet n) ->
  port_inv port0 st -> port_inv port0 (add_out e st).
Proof.
  intros He [Hp Hall]. unfold port_inv. simpl. rewrite ports_set_app.
  assert (Hnil : ports_set [e] = []).
  { destruct e; try reflexivity. exfalso. eapply He. reflexivity. }
  rewrite Hnil, app_nil_r. auto.
Qed.

Lemma port_inv_set_port (n : Z) (st : pstate) :
  0 < n ->
  port_inv port0 st ->
  port_inv port0 (add_out (PortSet n) (set_conf (set_port n (ps_conf st)) st)).
Proof.
  intros Hn [Hp Hall]. unfold port_inv. simpl. rewrite ports_set_app. simpl.
  rewrite last_snoc. simpl. split; [reflexivity|].
  apply Forall_app. split; [exact Hall|]. constructor; [exact Hn|constructor].
Qed.

Ltac next_token :=
  match goal with
  | |- context [lex_next ?l] =>
    let H := fresh "Hnext" in
    let t := fresh "t" in
    let l' := fresh "l" in
    pose proof (lex_next_pending l) as H;
    destruct (lex_next l) as [t l'] eqn:?; simpl in H; simpl
  end.

Ltac turn_cases :=
  repeat first [ next_token | case_decide | split_if ].

Ltac turn_done :=
  unfold parser_step, pending; simpl;
  split;
  [ split; [lia | try exact (fun H => H)]
  | first [left; reflexivity | right; intuition (try discriminate; lia)] ].

Lemma server_turn_step (st : pstate) :
  parser_step port0 st (fst (fst (server_turn MAX_LINE st))) /\
  (snd (fst (server_turn MAX_LINE st)) = true \/
   (pending (fst (fst (server_turn MAX_LINE st))) < pending st)%nat).
Proof.
  unfold server_turn. next_token.
  destruct t as [| | | | |c|k]; [..|destruct k]; turn_cases; turn_done.
  intros Hinv. apply (port_inv_set_port _ (set_lex l1 st)); [zbool; lia|exact Hinv].
Qed.

Lemma console_turn_step (st : pstate) (v : console_vals) :
  parser_step port0 st (fst (fst (fst (console_turn MAX_LINE st v)))) /\
  (snd (fst (console_turn MAX_LINE st v)) = true \/
   (pending (fst (fst (fst (console_turn MAX_LINE st v)))) < pending st)%nat).
Proof.
  unfold console_turn. next_token.
  destruct t as [| | | | |c|k]; [..|destruct k]; turn_cases; turn_done.
Qed.

Lemma server_loop_total (fuel : nat) (st : pstate) (done : bool) (err : string) :
  done = true \/ is_empty err = false \/ (pending st < fuel)%nat ->
  exists st' err',
    server_loop MAX_LINE fuel st done err = Some (st', err') /\
    parser_step port0 st st'.
Proof.
  revert st done err. induction fuel as [|fuel IH]; intros st done err Hpre.
  - simpl. destruct (negb done && is_empty err) eqn:Hc.
    + apply andb_prop in Hc as [Hd He]. apply negb_true_iff in Hd.
      destruct Hpre as [?|[?|?]]; [congruence|congruence|lia].
    + eauto using parser_step_refl.
  - simpl. destruct (negb done && is_empty err) eqn:Hc;
      [|eauto using parser_step_refl].
    apply andb_prop in Hc as [Hd He]. apply negb_true_iff in Hd.
    assert (Hlt : (pending st < S fuel)%nat)
      by (destruct Hpre as [?|[?|?]]; [congruence|congruence|assumption]).
    destruct (server_turn_step st) as [Hstep Hprog].
    destruct (server_turn MAX_LINE st) as [[st1 done1] err1]. simpl in *.
    destruct (IH st1 done1 err1) as (st' & err' & Hloop & Hstep').
    { destruct Hprog as [->|Hdec]; [auto|right; right; lia]. }
    exists st', err'. split; [exact Hloop|]. eapply parser_step_trans; eauto.
Qed.

Lemma console_loop_total (fuel : nat) (st : pstate) (v : console_vals)
    (done : bool) (err : string) :
  done = true \/ is_empty err = false \/ (pending st < fuel)%nat ->
  exists st' v' err',
    console_loop MAX_LINE fuel st v done err = Some (st', v', err') /\
    parser_step port0 st st'.
Proof.
  revert st v done err. induction fuel as [|fuel IH]; intros st v done err Hpre.
  - simpl. destruct (negb done && is_empty err) eqn:Hc.
    + apply andb_prop in Hc as [Hd He]. apply negb_true_iff in Hd.
      destruct Hpre as [?|[?|?]]; [congruence|congruence|lia].
    + eauto using parser_step_refl.
  - simpl. destruct (negb done && is_empty err) eqn:Hc;
      [|eauto using parser_step_refl].
    apply andb_prop in Hc as [Hd He]. apply negb_true_iff in Hd.
    assert (Hlt : (pending st < S fuel)%nat)
      by (destruct Hpre as [?|[?|?]]; [congruence|congruence|assumption]).
    destruct (console_turn_step st v) as [Hstep Hprog].
    destruct (console_turn MAX_LINE st v) as [[[st1 v1] done1] err1]. simpl in *.
    destruct (IH st1 v1 done1 err1) as (st' & v' & err' & Hloop & Hstep').
    { destruct Hprog as [->|Hdec]; [auto|right; right; lia]. }
    exists st', v', err'. split; [exact Hloop|]. eapply parser_step_trans; eauto.
Qed.

Lemma report_error_total (st : pstate) (err : string) :
  exists st', report_error st err = Some st' /\ parser_step port0 st st'.
Proof.
  unfold report_error. cbv zeta. cbn [ps_lex add_out].
  destruct (skip_line_total (S (length (lex_rest (ps_lex st)))) (ps_lex st))
    as (l' & Hl' & Hle); [lia|].
  rewrite Hl'. eexists. split; [reflexivity|].
  split; [exact Hle|]. intros Hinv.
  apply port_inv_set_lex, port_inv_add_out; [discriminate|exact Hinv].
Qed.

Lemma parse_server_directive_total (st : pstate) :
  exists st', parse_server_directive MAX_LINE st = Some st' /\
              parser_step port0 st st'.
Proof.
  unfold parse_server_directive.
  destruct (server_loop_total (S (length (lex_rest (ps_lex st)))) st false "")
    as (st1 & err1 & Hloop & Hstep); [right; right; unfold pending; lia|].
  rewrite Hloop. destruct (negb (is_empty err1)).
  - destruct (report_error_total st1 err1) as (st' & Hrep & Hstep').
    exists st'. split; [exact Hrep|]. eapply parser_step_trans; eauto.
  - eauto.
Qed.

Lemma parse_console_directive_total (st : pstate) :
  exists st', parse_console_directive MAX_LINE DEFAULT_CONSOLE_BAUD st = Some st' /\
              parser_step port0 st st'.
Proof.
  unfold parse_console_directive.
  destruct (console_loop_total (S (length (lex_rest (ps_lex st)))) st
              (mk_vals "" "" "" DEFAULT_CONSOLE_BAUD) false "")
    as (st1 & v1 & err1 & Hloop & Hstep); [right; right; unfold pending; lia|].
  rewrite Hloop.
  destruct (negb (is_empty _)).
  - match goal with
    | |- context [report_error st1 ?e] =>
      destruct (report_error_total st1 e) as (st' & Hrep & Hstep')
    end.
    exists st'. split; [exact Hrep|]. eapply parser_step_trans; eauto.
  - eexists. split; [reflexivity|]. eapply parser_step_trans; [exact Hstep|].
    split; [unfold pending; simpl; lia|].
    intros Hinv. apply port_inv_add_out; [discriminate|exact Hinv].
Qed.

Lemma conf_loop_total (fuel : nat) (st : pstate) :
  (pending st < fuel)%nat ->
  exists st', conf_loop MAX_LINE DEFAULT_CONSOLE_BAUD fuel st = Some st' /\
              (port_inv port0 st -> port_inv port0 st').
Proof.
  revert st. induction fuel as [|fuel IH]; intros st Hlt; [lia|].
  cbn [conf_loop].
  pose proof (lex_next_pending (ps_lex st)) as [Hle Hprog].
  destruct (lex_next (ps_lex st)) as [tok l] eqn:Hnext. simpl in Hle, Hprog.
  assert (Hcont : forall st1, parser_step port0 (set_lex l st) st1 ->
            tok <> LEX_EOF ->
            exists st', conf_loop MAX_LINE DEFAULT_CONSOLE_BAUD fuel st1 = Some st' /\
                        (port_inv port0 st -> port_inv port0 st')).
  { intros st1 [Hpend Hinv1] Hne.
    destruct Hprog as [?|Hdec]; [congruence|].
    destruct (IH st1) as (st' & Hloop & Hinv').
    { unfold pending in *. simpl in Hpend. lia. }
    exists st'. split; [exact Hloop|]. intros Hinv. apply Hinv', Hinv1. exact Hinv. }
  destruct tok as [| | | | |c|k]; cbv beta iota zeta.
  - apply Hcont; [|discriminate].
    split; [unfold pending; simpl; lia|].
    intros Hinv. apply port_inv_add_out; [discriminate|exact Hinv].
  - eexists. split; [reflexivity|]. auto.
  - apply Hcont; [apply parser_step_refl|discriminate].
  - destruct (skip_tokens_total (S (length (lex_rest l))) LEX_INT l) as (l' & Hl' & Hle');
      [lia|]. rewrite Hl'. apply Hcont; [|discriminate].
    split; [unfold pending; simpl; lia|].
    intros Hinv. apply port_inv_set_lex, port_inv_add_out; [discriminate|exact Hinv].
  - destruct (skip_tokens_total (S (length (lex_rest l))) LEX_STR l) as (l' & Hl' & Hle');
      [lia|]. rewrite Hl'. apply Hcont; [|discriminate].
    split; [unfold pending; simpl; lia|].
    intros Hinv. apply port_inv_set_lex, port_inv_add_out; [discriminate|exact Hinv].
  - destruct (skip_tokens_total (S (length (lex_rest l))) (LEX_CHR c) l)
      as (l' & Hl' & Hle'); [lia|]. rewrite Hl'. apply Hcont; [|discriminate].
    split; [unfold pending; simpl; lia|].
    intros Hinv. apply port_inv_set_lex, port_inv_add_out; [discriminate|exact Hinv].
  - destruct k; cbv beta iota zeta;
      try (match goal with
           | |- context [skip_tokens ?f ?t l] =>
             destruct (skip_tokens_total f t l) as (l' & Hl' & Hle'); [lia|]
           end;
           rewrite Hl'; apply Hcont; [|discriminate];
           split; [unfold pending; simpl; lia|];
           intros Hinv; apply port_inv_set_lex, port_inv_add_out;
           [discriminate|exact Hinv]).
    + destruct (parse_console_directive_total (set_lex l st)) as (st1 & Hp & Hstep).
      rewrite Hp. apply Hcont; [exact Hstep|discriminate].
    + destruct (parse_server_directive_total (set_lex l st)) as (st1 & Hp & Hstep).
      rewrite Hp. apply Hcont; [exact Hstep|discriminate].
Qed.

End ParserFacts.

(** The port [process_server_conf_file] leaves, from the values it gave to
    [conf->port]; the routine returns on every file it could open, lock and
    read, and exits only when one of these failed. *)
Lemma conf_port_by_events (MAX_LINE : nat) (DEFAULT_CONMAN_PORT DEFAULT_CONSOLE_BAUD : Z)
    (cf : conf_file) (conf : server_conf_t) :
  match process_server_conf_file MAX_LINE DEFAULT_CONMAN_PORT DEFAULT_CONSOLE_BAUD
                                 cf conf with
  | Ok (conf', out) =>
    Forall (fun n => 0 < n) (ports_set out) /\
    (0 < port conf -> port conf' = port conf) /\
    (port conf <= 0 -> forall n, last (ports_set out) = Some n -> port conf' = n) /\
    (port conf <= 0 -> ports_set out = [] -> port conf' = DEFAULT_CONMAN_PORT)
  | Abort _ =>
    cf_open cf < 0 \/ 0 < cf_write_lock_pid cf \/ cf_read_lock cf < 0 \/
    cf_fstat cf < 0 \/ cf_read_n cf < 0 \/ cf_read_n cf <> cf_size cf
  | Fault | OutOfFuel => False
  end.
Proof.
  unfold process_server_conf_file, err_msg. cbv zeta. cbn [fd set_fd].
  destruct (cf_open cf <? 0) eqn:H1; zbool; [auto|].
  destruct (cf_write_lock_pid cf >? 0) eqn:H2; zbool; [auto|].
  destruct (cf_read_lock cf <? 0) eqn:H3; zbool; [auto 6|].
  destruct (cf_fstat cf <? 0) eqn:H4; zbool; [auto 6|].
  destruct (cf_read_n cf <? 0) eqn:H5; zbool; [auto 8|].
  unfold assert. destruct (cf_read_n cf =? cf_size cf) eqn:H6; zbool; cbn [obind];
    [|auto 8].
  match goal with
  | |- context [conf_loop _ _ ?f ?st] =>
    destruct (conf_loop_total MAX_LINE DEFAULT_CONSOLE_BAUD (port conf) f st)
      as (st' & Hloop & Hinv); [unfold pending; simpl; lia|]
  end.
  rewrite Hloop.
  destruct Hinv as [Hport Hall]; [split; [reflexivity|constructor]|].
  split; [exact Hall|].
  destruct (port conf >? 0) eqn:Hcmd; zbool; simpl.
  - split; [reflexivity|]. split; intros; lia.
  - destruct (port (ps_conf st') <=? 0) eqn:Hset; zbool; simpl.
    + split; [lia|]. split; [|reflexivity].
      intros _ n Hlast. rewrite Hlast in Hport. simpl in Hport.
      rewrite Forall_forall in Hall. apply last_Some_elem_of in Hlast.
      specialize (Hall _ Hlast). lia.
    + split; [lia|]. split.
      * intros _ n Hlast. rewrite Hlast in Hport. exact Hport.
      * intros Hle Hnil. rewrite Hnil in Hport. simpl in Hport. lia.
Qed.

(** The three port scenarios of the specification: the file sets 7777; the
    command line had set 1234; an empty file leaves the default. *)
Example port_scenarios :
  process_server_conf_file 80 7890 9600 (readable config_echo) fresh_conf
  = Ok (set_port 7777 (set_fd 3 fresh_conf),
        [NewConsole "c1" "/dev/ttyS0" "" 9600; PortSet 7777]) /\
  process_server_conf_file 80 7890 9600 (readable config_echo)
                           (set_port 1234 fresh_conf)
  = Ok (set_port 1234 (set_fd 3 fresh_conf),
        [NewConsole "c1" "/dev/ttyS0" "" 9600; PortSet 7777]) /\
  process_server_conf_file 80 7890 9600 (readable []) fresh_conf
  = Ok (set_port 7890 (set_fd 3 fresh_conf), []).
Proof. repeat split; vm_compute; reflexivity. Qed.

(** C8 (the code departs from it): two errors of the same kind, a line
    starting with [PORT] and a [SERVER] directive whose [PORT] lacks its
    [=].  The second is reported on standard error by [fprintf(stderr, ...)];
    the first, found by [process_server_conf_file] itself, goes through
    [printf] to standard output.  Parsing goes on after both. *)
Theorem top_level_error_on_stdout :
  process_server_conf_file 80 7890 9600 (readable stray_port) fresh_conf
  = Ok (set_port 7890 (set_fd 3 fresh_conf),
        [ ToStdout ("ERROR: conman.conf:1: unrecognized token 'PORT'." ++ nl);
          ToStderr ("ERROR: conman.conf:2: expected '=' after PORT keyword." ++ nl) ]).
Proof. vm_compute. reflexivity. Qed.

(** ** Further properties of the configuration *)

Section ParserMore.

Variable MAX_LINE : nat.
Variable DEFAULT_CONSOLE_BAUD : Z.

(** *** What a directive does *)

Lemma skip_line_ends (fuel : nat) (l l' : Lex) :
  skip_line fuel l = Some l' -> at_eol l'.
Proof.
  revert l. induction fuel as [|fuel IH]; intros l; simpl; case_decide as Hc;
    try discriminate; try (apply IH).
  all: intros [= <-]; unfold at_eol;
    destruct (decide (lex_prev l = LEX_EOL)); [auto|];
    destruct (decide (lex_prev l = LEX_EOF)); [auto|]; tauto.
Qed.

Lemma snprintf_nonempty (s : string) :
  (2 <= MAX_LINE)%nat -> is_empty s = false ->
  is_empty (snprintf MAX_LINE s) = false.
Proof.
  intros H Hs. unfold snprintf. destruct s as [|c s]; [discriminate|].
  destruct (MAX_LINE - 1)%nat eqn:E; [lia|reflexivity].
Qed.

Ltac next_tok :=
  match goal with
  | |- context [lex_next ?l] =>
    let H := fresh "Hprev" in
    let t := fresh "t" in
    let l' := fresh "l" in
    pose proof (lex_next_prev l) as H;
    destruct (lex_next l) as [t l'] eqn:?; simpl in H; simpl
  end.

Ltac turn_split := repeat first [ next_tok | case_decide | split_if ].

Lemma console_turn_effect (st : pstate) (v : console_vals) :
  let r := console_turn MAX_LINE st v in
  ps_conf (fst (fst (fst r))) = ps_conf st /\
  ps_out (fst (fst (fst r))) = ps_out st /\
  (snd (fst r) = true -> at_eol (ps_lex (fst (fst (fst r))))) /\
  ((2 <= MAX_LINE)%nat -> is_empty (snd r) = true ->
   bps_ok DEFAULT_CONSOLE_BAUD v -> bps_ok DEFAULT_CONSOLE_BAUD (snd (fst (fst r)))).
Proof.
  unfold console_turn. next_tok.
  destruct t as [| | | | |c|k]; [..|destruct k]; turn_split;
    (split; [reflexivity|]); (split; [reflexivity|]);
    (split; [try discriminate; intros _; unfold at_eol; simpl; auto|]);
    intros Hmax; unfold bps_ok; simpl; auto.
  all: try (intros _ _; zbool; lia).
  all: unfold err_invalid_value;
    rewrite snprintf_nonempty by (exact Hmax || reflexivity); discriminate.
Qed.

Lemma console_loop_effect (fuel : nat) (st : pstate) (v : console_vals)
    (done : bool) (err : string) (st' : pstate) (v' : console_vals) (err' : string) :
  console_loop MAX_LINE fuel st v done err = Some (st', v', err') ->
  (done = true -> at_eol (ps_lex st)) ->
  ((2 <= MAX_LINE)%nat -> is_empty err = true -> bps_ok DEFAULT_CONSOLE_BAUD v) ->
  ps_conf st' = ps_conf st /\ ps_out st' = ps_out st /\
  (is_empty err' = true ->
   at_eol (ps_lex st') /\ ((2 <= MAX_LINE)%nat -> bps_ok DEFAULT_CONSOLE_BAUD v')).
Proof.
  revert st v done err.
  induction fuel as [|fuel IH]; intros st v done err; simpl;
    destruct (negb done && is_empty err) eqn:Hc; try discriminate.
  - intros [= <- <- <-] Hd Hb. repeat split; auto.
    apply andb_false_iff in Hc as [Hc|Hc]; [|congruence].
    apply negb_false_iff in Hc; auto.
  - destruct (console_turn_effect st v) as (Hconf & Hout & Hdone & Hbps).
    destruct (console_turn MAX_LINE st v) as [[[st1 v1] done1] err1]. simpl in *.
    intros Hloop Hd Hb.
    apply andb_prop in Hc as [_ He].
    destruct (IH st1 v1 done1 err1 Hloop Hdone) as (Hconf' & Hout' & Hend).
    { intros Hmax He1. apply Hbps; auto. }
    repeat split; try congruence; apply Hend; assumption.
  - intros [= <- <- <-] Hd Hb. repeat split; auto.
    apply andb_false_iff in Hc as [Hc|Hc]; [|congruence].
    apply negb_false_iff in Hc; auto.
Qed.

Lemma report_error_effect (st st' : pstate) (err : string) :
  report_error st err = Some st' ->
  ps_conf st' = ps_conf st /\
  ps_out st' = ps_out st ++ [ToStderr (error_line (filename (ps_conf st))
                                                  (lex_line (ps_lex st)) err)] /\
  at_eol (ps_lex st').
Proof.
  unfold report_error. cbv zeta. cbn [ps_lex add_out].
  destruct (skip_line _ _) as [l|] eqn:Hskip; [|discriminate].
  intros [= <-]. simpl. repeat split. eapply skip_line_ends; eassumption.
Qed.

Lemma conf_kept_refl (c : server_conf_t) : conf_kept c c.
Proof. unfold conf_kept. auto 10. Qed.

Lemma conf_kept_trans (a b c : server_conf_t) :
  conf_kept a b -> conf_kept b c -> conf_kept a c.
Proof. unfold conf_kept. intuition congruence. Qed.

Lemma parse_console_directive_effect (st st' : pstate) :
  parse_console_directive MAX_LINE DEFAULT_CONSOLE_BAUD st = Some st' ->
  ps_conf st' = ps_conf st /\ at_eol (ps_lex st') /\
  ((exists line, ps_out st' = ps_out st ++ [ToStderr line]) \/
   (exists nm dev log bps,
      ps_out st' = ps_out st ++ [NewConsole nm dev log bps] /\
      ((2 <= MAX_LINE)%nat ->
       nm <> ""%string /\ dev <> ""%string /\
       (bps = DEFAULT_CONSOLE_BAUD \/ 0 < bps)))).
Proof.
  unfold parse_console_directive.
  destruct (console_loop _ _ _ _ _ _) as [[[st1 v1] err1]|] eqn:Hloop;
    [|discriminate].
  apply console_loop_effect in Hloop as (Hconf & Hout & Hend);
    [|discriminate|intros _ _; left; reflexivity].
  assert (Hrep : forall e st2, report_error st1 e = Some st2 ->
            ps_conf st2 = ps_conf st /\ at_eol (ps_lex st2) /\
            ((exists line, ps_out st2 = ps_out st ++ [ToStderr line]) \/
             (exists nm dev log bps,
                ps_out st2 = ps_out st ++ [NewConsole nm dev log bps] /\
                ((2 <= MAX_LINE)%nat ->
                 nm <> ""%string /\ dev <> ""%string /\
                 (bps = DEFAULT_CONSOLE_BAUD \/ 0 < bps))))).
  { intros e st2 H. apply report_error_effect in H as (Hc & Ho & He).
    split; [congruence|]. split; [exact He|]. left. eexists.
    rewrite Ho, Hout. reflexivity. }
  destruct (is_empty err1) eqn:He1; cbn [andb];
    [|cbn [negb]; rewrite He1; apply Hrep].
  destruct (Hend eq_refl) as [Heol Hbps].
  destruct (is_empty (cv_name v1) || is_empty (cv_dev v1)) eqn:Hnd.
  - destruct (negb (is_empty _)) eqn:Herr; [apply Hrep|].
    intros [= <-]. simpl.
    split; [exact Hconf|]. split; [exact Heol|]. right.
    exists (cv_name v1), (cv_dev v1), (cv_log v1), (cv_bps v1).
    split; [rewrite Hout; reflexivity|]. intros Hmax.
    rewrite snprintf_nonempty in Herr by (exact Hmax || reflexivity). discriminate.
  - rewrite He1. cbn [negb]. intros [= <-]. simpl.
    split; [exact Hconf|]. split; [exact Heol|]. right.
    exists (cv_name v1), (cv_dev v1), (cv_log v1), (cv_bps v1).
    split; [rewrite Hout; reflexivity|]. intros Hmax.
    apply orb_false_iff in Hnd as [Hn Hd].
    split; [intros E; rewrite E in Hn; discriminate|].
    split; [intros E; rewrite E in Hd; discriminate|].
    apply Hbps, Hmax.
Qed.

Lemma last_cons_default {A : Type} (a d : A) (l : list A) :
  default d (last (a :: l)) = default a (last l).
Proof.
  revert a d. induction l as [|b l IH]; intros a d; [reflexivity|].
  change (last (a :: b :: l)) with (last (b :: l)).
  rewrite (IH b d), (IH b a). reflexivity.
Qed.

Lemma server_turn_effect (st : pstate) :
  let r := server_turn MAX_LINE st in
  conf_kept (ps_conf st) (ps_conf (fst (fst r))) /\
  ((ps_out (fst (fst r)) = ps_out st /\
    port (ps_conf (fst (fst r))) = port (ps_conf st)) \/
   exists n, 0 < n /\ ps_out (fst (fst r)) = ps_out st ++ [PortSet n] /\
             port (ps_conf (fst (fst r))) = n) /\
  (snd (fst r) = true -> at_eol (ps_lex (fst (fst r)))).
Proof.
  unfold server_turn. next_tok.
  destruct t as [| | | | |c|k]; [..|destruct k]; turn_split;
    (split; [unfold conf_kept; simpl; auto 10|]);
    (split; [first [left; split; reflexivity
                   |right; eexists; split; [|split; reflexivity]; zbool; lia]|]);
    try discriminate; intros _; unfold at_eol; simpl; auto.
Qed.

Lemma server_loop_effect (fuel : nat) (st : pstate) (done : bool) (err : string)
    (st' : pstate) (err' : string) :
  server_loop MAX_LINE fuel st done err = Some (st', err') ->
  (done = true -> at_eol (ps_lex st)) ->
  conf_kept (ps_conf st) (ps_conf st') /\
  (exists ports, ps_out st' = ps_out st ++ map PortSet ports /\
                 Forall (fun n => 0 < n) ports /\
                 port (ps_conf st') = default (port (ps_conf st)) (last ports)) /\
  (is_empty err' = true -> at_eol (ps_lex st')).
Proof.
  revert st done err.
  induction fuel as [|fuel IH]; intros st done err; simpl;
    destruct (negb done && is_empty err) eqn:Hc; try discriminate.
  - intros [= <- <-] Hd. split; [apply conf_kept_refl|]. split.
    + exists []. rewrite app_nil_r. auto.
    + apply andb_false_iff in Hc as [Hc|Hc]; [|congruence].
      apply negb_false_iff in Hc; auto.
  - destruct (server_turn_effect st) as (Hconf & Hout & Hdone).
    destruct (server_turn MAX_LINE st) as [[st1 done1] err1]. simpl in *.
    intros Hloop Hd.
    destruct (IH st1 done1 err1 Hloop Hdone)
      as (Hconf' & (ports & Hout' & Hpos & Hport) & Hend).
    split; [eapply conf_kept_trans; eassumption|]. split; [|exact Hend].
    destruct Hout as [[Hout Hp]|(n & Hn & Hout & Hp)].
    + exists ports. rewrite Hout', Hout, Hport, Hp. auto.
    + exists (n :: ports). rewrite Hout', Hout, <- app_assoc. simpl.
      split; [reflexivity|]. split; [auto|].
      rewrite Hport, Hp. symmetry. apply last_cons_default.
  - intros [= <- <-] Hd. split; [apply conf_kept_refl|]. split.
    + exists []. rewrite app_nil_r. auto.
    + apply andb_false_iff in Hc as [Hc|Hc]; [|congruence].
      apply negb_false_iff in Hc; auto.
Qed.

Lemma parse_server_directive_effect (st st' : pstate) :
  parse_server_directive MAX_LINE st = Some st' ->
  conf_kept (ps_conf st) (ps_conf st') /\ at_eol (ps_lex st') /\
  exists ports tail,
    ps_out st' = ps_out st ++ map PortSet ports ++ tail /\
    Forall (fun n => 0 < n) ports /\
    port (ps_conf st') = default (port (ps_conf st)) (last ports) /\
    (tail = [] \/ exists line, tail = [ToStderr line]).
Proof.
  unfold parse_server_directive.
  destruct (server_loop _ _ _ _ _) as [[st1 err1]|] eqn:Hloop; [|discriminate].
  apply server_loop_effect in Hloop as (Hconf & (ports & Hout & Hpos & Hport) & Hend);
    [|discriminate].
  destruct (negb (is_empty err1)) eqn:Herr.
  - intros Hrep. apply report_error_effect in Hrep as (Hc & Ho & He).
    split; [rewrite Hc; exact Hconf|]. split; [exact He|].
    exists ports. eexists. split; [rewrite Ho, Hout, <- app_assoc; reflexivity|].
    split; [exact Hpos|]. split; [rewrite Hc; exact Hport|]. right. eauto.
  - intros [= <-]. apply negb_false_iff in Herr.
    split; [exact Hconf|]. split; [apply Hend, Herr|].
    exists ports, []. rewrite app_nil_r. auto.
Qed.

Lemma conf_loop_kept (fuel : nat) (st st' : pstate) :
  conf_loop MAX_LINE DEFAULT_CONSOLE_BAUD fuel st = Some st' ->
  conf_kept (ps_conf st) (ps_conf st').
Proof.
  revert st. induction fuel as [|fuel IH]; intros st; [discriminate|].
  cbn [conf_loop].
  destruct (lex_next (ps_lex st)) as [tok l] eqn:Hnext.
  destruct tok as [| | | | |c|k]; cbv beta iota zeta;
    [| | | | | |destruct k; cbv beta iota zeta];
    try (intros [= <-]; apply conf_kept_refl);
    try (intros H; apply IH in H; exact H);
    try (destruct (skip_tokens _ _ _) as [l'|]; [|discriminate];
         intros H; apply IH in H; exact H).
  - destruct (parse_console_directive _ _ _) as [st1|] eqn:Hp; [|discriminate].
    apply parse_console_directive_effect in Hp as (Hc & _).
    intros H. apply IH in H. rewrite Hc in H. exact H.
  - destruct (parse_server_directive _ _) as [st1|] eqn:Hp; [|discriminate].
    apply parse_server_directive_effect in Hp as (Hc & _).
    intros H. apply IH in H. eapply conf_kept_trans; [exact Hc|exact H].
Qed.

End ParserMore.

(** *** A directive and its line *)

Section OneLine.

Variable MAX_LINE : nat.
Variable DEFAULT_CONSOLE_BAUD : Z.
Hypothesis MAX_LINE_room : (2 <= MAX_LINE)%nat.

Lemma lex_next_line (l : Lex) :
  (ends_line (fst (lex_next l)) = true /\
   lex_rest (snd (lex_next l)) = rest_of_line (lex_rest l)) \/
  (ends_line (fst (lex_next l)) = false /\
   rest_of_line (lex_rest (snd (lex_next l))) = rest_of_line (lex_rest l)).
Proof.
  unfold lex_next. destruct (lex_rest l) as [|x rest]; simpl; [auto|].
  destruct (ends_line (lx_tok x)); auto.
Qed.

Lemma skip_line_rest (fuel : nat) (l l' : Lex) :
  skip_line fuel l = Some l' ->
  (ends_line (lex_prev l) = true -> l' = l) /\
  (ends_line (lex_prev l) = false -> lex_rest l' = rest_of_line (lex_rest l)).
Proof.
  revert l. induction fuel as [|fuel IH]; intros l; simpl; case_decide as Hc;
    try discriminate.
  - intros [= <-]. split; [reflexivity|]. intros He. exfalso. apply Hc.
    destruct (lex_prev l); try discriminate; split; discriminate.
  - intros H. apply IH in H as [Hend Hgo]. split.
    + intros He. destruct Hc as [H1 H2].
      destruct (lex_prev l); try discriminate; congruence.
    + intros _. pose proof (lex_next_prev l) as Hp.
      destruct (lex_next_line l) as [[He Hr]|[He Hr]]; rewrite <- Hp in He.
      * rewrite (Hend He). exact Hr.
      * rewrite (Hgo He). exact Hr.
  - intros [= <-]. split; [reflexivity|]. intros He. exfalso. apply Hc.
    destruct (lex_prev l); try discriminate; split; discriminate.
Qed.

Ltac next_line_tok :=
  match goal with
  | |- context [lex_next ?l] =>
    let Hp := fresh "Hprev" in
    let Hl := fresh "Hline" in
    let t := fresh "t" in
    let l' := fresh "l" in
    pose proof (lex_next_prev l) as Hp;
    pose proof (lex_next_line l) as Hl;
    destruct (lex_next l) as [t l'] eqn:?; cbn [fst snd] in Hp, Hl
  end.

Ltac line_split := repeat first [ next_line_tok | case_decide | split_if ].

Ltac line_facts :=
  repeat match goal with
  | H : ~ (_ <> _) |- _ => apply dec_stable in H
  | H : ~ (_ <> _ /\ _ <> _) |- _ => apply not_and_l in H
  | H : _ /\ _ |- _ => destruct H
  | H : _ \/ _ |- _ => destruct H
  end;
  subst;
  repeat match goal with
  | H : lex_prev ?l = _ |- _ => rewrite H in *; clear H
  end;
  cbn [ends_line] in *;
  try discriminate; try congruence.

Ltac err_nonempty :=
  unfold err_expected_eq, err_expected_string, err_expected_integer,
         err_invalid_value, err_expected_on_off, err_not_implemented;
  apply snprintf_nonempty; [exact MAX_LINE_room|reflexivity].

Ltac line_done :=
  repeat match goal with
  | H : lex_prev ?l = _ |- context [lex_prev ?l] => rewrite H
  end;
  cbn [ends_line];
  first
    [ left; split; [first [reflexivity|assumption]|];
      split; [congruence|]; first [left; reflexivity|right; err_nonempty]
    | right; split; [first [reflexivity|assumption]|];
      split; [congruence|reflexivity] ].

Lemma server_turn_line (st : pstate) :
  let r := server_turn MAX_LINE st in
  (ends_line (lex_prev (ps_lex (fst (fst r)))) = true /\
   lex_rest (ps_lex (fst (fst r))) = rest_of_line (lex_rest (ps_lex st)) /\
   (snd (fst r) = true \/ is_empty (snd r) = false)) \/
  (ends_line (lex_prev (ps_lex (fst (fst r)))) = false /\
   rest_of_line (lex_rest (ps_lex (fst (fst r)))) = rest_of_line (lex_rest (ps_lex st)) /\
   snd (fst r) = false).
Proof.
  unfold server_turn. next_line_tok.
  destruct t as [| | | | |c|k]; [..|destruct k]; line_split;
    cbn [fst snd ps_lex set_lex set_conf add_out] in *;
    line_facts; line_done.
Qed.

Lemma console_turn_line (st : pstate) (v : console_vals) :
  let r := console_turn MAX_LINE st v in
  (ends_line (lex_prev (ps_lex (fst (fst (fst r))))) = true /\
   lex_rest (ps_lex (fst (fst (fst r)))) = rest_of_line (lex_rest (ps_lex st)) /\
   (snd (fst r) = true \/ is_empty (snd r) = false)) \/
  (ends_line (lex_prev (ps_lex (fst (fst (fst r))))) = false /\
   rest_of_line (lex_rest (ps_lex (fst (fst (fst r)))))
   = rest_of_line (lex_rest (ps_lex st)) /\
   snd (fst r) = false).
Proof.
  unfold console_turn. next_line_tok.
  destruct t as [| | | | |c|k]; [..|destruct k]; line_split;
    cbn [fst snd ps_lex set_lex set_conf add_out] in *;
    line_facts; line_done.
Qed.

Lemma server_loop_line (R : list lexeme) (fuel : nat) (st : pstate)
    (done : bool) (err : string) (st' : pstate) (err' : string) :
  server_loop MAX_LINE fuel st done err = Some (st', err') ->
  (negb done && is_empty err = true -> rest_of_line (lex_rest (ps_lex st)) = R) ->
  (negb done && is_empty err = false -> stops_in_line R st err) ->
  stops_in_line R st' err'.
Proof.
  revert st done err. induction fuel as [|fuel IH]; intros st done err; simpl;
    destruct (negb done && is_empty err) eqn:Hc; try discriminate;
    try (intros [= <- <-] _ Hstop; apply Hstop; reflexivity).
  pose proof (server_turn_line st) as Hturn.
  destruct (server_turn MAX_LINE st) as [[st1 done1] err1]. cbn [fst snd] in Hturn.
  intros Hloop Hgo _. specialize (Hgo eq_refl). rewrite Hgo in Hturn.
  apply (IH _ _ _ Hloop).
  - intros Hc1. destruct Hturn as [(He & Hr & Hd)|(He & Hr & Hd)]; [|exact Hr].
    apply andb_prop in Hc1 as [Hd1 He1]. apply negb_true_iff in Hd1.
    destruct Hd; congruence.
  - intros Hc1. destruct Hturn as [(He & Hr & Hd)|(He & Hr & Hd)].
    + left. auto.
    + right. split; [exact He|]. split; [exact Hr|].
      subst done1. simpl in Hc1. exact Hc1.
Qed.

Lemma console_loop_line (R : list lexeme) (fuel : nat) (st : pstate)
    (v : console_vals) (done : bool) (err : string)
    (st' : pstate) (v' : console_vals) (err' : string) :
  console_loop MAX_LINE fuel st v done err = Some (st', v', err') ->
  (negb done && is_empty err = true -> rest_of_line (lex_rest (ps_lex st)) = R) ->
  (negb done && is_empty err = false -> stops_in_line R st err) ->
  stops_in_line R st' err'.
Proof.
  revert st v done err. induction fuel as [|fuel IH]; intros st v done err; simpl;
    destruct (negb done && is_empty err) eqn:Hc; try discriminate;
    try (intros [= <- <- <-] _ Hstop; apply Hstop; reflexivity).
  pose proof (console_turn_line st v) as Hturn.
  destruct (console_turn MAX_LINE st v) as [[[st1 v1] done1] err1].
  cbn [fst snd] in Hturn.
  intros Hloop Hgo _. specialize (Hgo eq_refl). rewrite Hgo in Hturn.
  apply (IH _ _ _ _ Hloop).
  - intros Hc1. destruct Hturn as [(He & Hr & Hd)|(He & Hr & Hd)]; [|exact Hr].
    apply andb_prop in Hc1 as [Hd1 He1]. apply negb_true_iff in Hd1.
    destruct Hd; congruence.
  - intros Hc1. destruct Hturn as [(He & Hr & Hd)|(He & Hr & Hd)].
    + left. auto.
    + right. split; [exact He|]. split; [exact Hr|].
      subst done1. simpl in Hc1. exact Hc1.
Qed.

Lemma report_error_line (R : list lexeme) (st st' : pstate) (err e : string) :
  report_error st e = Some st' ->
  stops_in_line R st err ->
  lex_rest (ps_lex st') = R.
Proof.
  unfold report_error. cbv zeta. cbn [ps_lex add_out].
  destruct (skip_line _ _) as [l|] eqn:Hskip; [|discriminate].
  intros [= <-]. cbn [ps_lex set_lex].
  apply skip_line_rest in Hskip as [Hend Hgo].
  intros [[He Hr]|(He & Hr & _)].
  - rewrite (Hend He). exact Hr.
  - rewrite (Hgo He). exact Hr.
Qed.

Lemma parse_server_directive_line (st st' : pstate) :
  parse_server_directive MAX_LINE st = Some st' ->
  lex_rest (ps_lex st') = rest_of_line (lex_rest (ps_lex st)).
Proof.
  unfold parse_server_directive.
  destruct (server_loop _ _ _ _ _) as [[st1 err1]|] eqn:Hloop; [|discriminate].
  apply (server_loop_line (rest_of_line (lex_rest (ps_lex st)))) in Hloop;
    [|reflexivity|discriminate].
  destruct (is_empty err1) eqn:He; cbn [negb].
  - intros [= <-]. destruct Hloop as [[_ Hr]|(_ & _ & Hne)]; [exact Hr|congruence].
  - intros Hrep. eapply report_error_line; eassumption.
Qed.

Lemma parse_console_directive_line (st st' : pstate) :
  parse_console_directive MAX_LINE DEFAULT_CONSOLE_BAUD st = Some st' ->
  lex_rest (ps_lex st') = rest_of_line (lex_rest (ps_lex st)).
Proof.
  unfold parse_console_directive.
  destruct (console_loop _ _ _ _ _ _) as [[[st1 v1] err1]|] eqn:Hloop;
    [|discriminate].
  apply (console_loop_line (rest_of_line (lex_rest (ps_lex st)))) in Hloop;
    [|reflexivity|discriminate].
  destruct (negb (is_empty _)) eqn:Herr.
  - intros Hrep. eapply report_error_line; eassumption.
  - intros [= <-]. cbn [ps_lex add_out].
    destruct (is_empty err1) eqn:He.
    + destruct Hloop as [[_ Hr]|(_ & _ & Hne)]; [exact Hr|congruence].
    + simpl in Herr. rewrite He in Herr. discriminate.
Qed.

End OneLine.

(** *** The ports a file gives *)

Section FilePorts.

Variable MAX_LINE : nat.
Variable DEFAULT_CONSOLE_BAUD : Z.
Hypothesis MAX_LINE_room : (2 <= MAX_LINE)%nat.

Lemma lines_first (toks : list lexeme) :
  exists ls, lines toks = first_line toks :: ls /\
             flat_map line_ports ls = file_ports (rest_of_line toks).
Proof.
  induction toks as [|x toks (ls & Hl & Hf)]; simpl.
  - exists []. auto.
  - destruct (ends_line (lx_tok x)).
    + exists (lines toks). auto.
    + rewrite Hl. exists ls. auto.
Qed.

Lemma file_ports_line (toks : list lexeme) :
  file_ports toks = line_ports (first_line toks) ++ file_ports (rest_of_line toks).
Proof.
  destruct (lines_first toks) as (ls & Hl & Hf).
  unfold file_ports at 1. rewrite Hl. simpl. rewrite Hf. reflexivity.
Qed.

(** A list of tokens is its first line, then nothing or the token that ends
    the line and the lines after it. *)
Lemma first_line_split (toks : list lexeme) :
  Forall (fun x => ends_line (lx_tok x) = false) (first_line toks) /\
  (toks = first_line toks \/
   exists x, ends_line (lx_tok x) = true /\
             toks = first_line toks ++ x :: rest_of_line toks).
Proof.
  induction toks as [|x toks [IH1 IH2]]; simpl.
  - split; [constructor|left; reflexivity].
  - destruct (ends_line (lx_tok x)) eqn:He.
    + split; [constructor|]. right. exists x. auto.
    + split; [constructor; assumption|].
      destruct IH2 as [IH2|(y & Hy & IH2)].
      * left. rewrite <- IH2. reflexivity.
      * right. exists y. split; [exact Hy|]. simpl. rewrite <- IH2. reflexivity.
Qed.

Lemma eof_at_end_rest (toks : list lexeme) :
  eof_at_end toks -> eof_at_end (rest_of_line toks).
Proof.
  unfold eof_at_end. induction 1 as [|x toks Hx Hall IH]; simpl; [constructor|].
  destruct (ends_line (lx_tok x)); assumption.
Qed.

Lemma server_loop_stop (fuel : nat) (st : pstate) (done : bool) (err : string) :
  negb done && is_empty err = false ->
  server_loop MAX_LINE fuel st done err = Some (st, err).
Proof. intros H. destruct fuel; simpl; rewrite H; reflexivity. Qed.

Ltac err_full :=
  unfold err_expected_eq, err_expected_string, err_expected_integer,
         err_invalid_value, err_expected_on_off, err_not_implemented;
  apply snprintf_nonempty; [exact MAX_LINE_room|reflexivity].

Ltac tok_facts :=
  repeat match goal with
  | H : ~ (_ <> _) |- _ => apply dec_stable in H
  | H : ~ (_ <> _ /\ _ <> _) |- _ => apply not_and_l in H
  | H : ~ (_ \/ _) |- _ => apply Decidable.not_or in H
  | H : _ \/ _ |- _ => destruct H
  | H : _ /\ _ |- _ => destruct H
  end;
  subst; try congruence; try discriminate.

Ltac turn_end :=
  first
    [ solve [ right; split; [|split; reflexivity];
              first [ left; reflexivity
                    | right; apply snprintf_nonempty;
                      [exact MAX_LINE_room|reflexivity] ] ]
    | solve [ left; do 4 eexists;
              split; [reflexivity|]; split; [reflexivity|];
              split; [reflexivity|]; split; [reflexivity|];
              cbn [ps_out add_out set_conf set_lex];
              rewrite ?ports_set_app; cbn [ports_set omap list_omap];
              rewrite <- ?app_assoc; reflexivity ]
    | idtac ].

Ltac run_turn := unfold server_turn, lex_next; cbn -[snprintf atoi].

(** One turn of the loop on the options of a line: it takes an option and
    goes on with the ports that option gives, or the loop ends with the
    ports already given. *)
Lemma server_turn_ports (st : pstate) (line rest : list lexeme) :
  lex_rest (ps_lex st) = line ++ rest ->
  Forall (fun x => ends_line (lx_tok x) = false) line ->
  (rest = [] \/ exists x r, rest = x :: r /\ ends_line (lx_tok x) = true) ->
  let r := server_turn MAX_LINE st in
  (exists k e v opts,
     line = k :: e :: v :: opts /\
     snd (fst r) = false /\ snd r = ""%string /\
     lex_rest (ps_lex (fst (fst r))) = opts ++ rest /\
     ports_set (ps_out (fst (fst r))) ++ server_ports opts
     = ports_set (ps_out st) ++ server_ports line) \/
  ((snd (fst r) = true \/ is_empty (snd r) = false) /\
   ps_out (fst (fst r)) = ps_out st /\ server_ports line = []).
Proof.
  destruct st as [[rest0 prev text ln] conf out]. cbn [ps_lex lex_rest ps_out].
  intros -> Hline Hrest.
  destruct line as [|[tk xk lk] line].
  { right. unfold server_turn, lex_next. cbn -[snprintf atoi].
    destruct Hrest as [->|(x & r & -> & Hx)]; cbn -[snprintf atoi]; [auto|].
    destruct (lx_tok x); try discriminate; cbn -[snprintf atoi]; auto. }
  apply Forall_cons in Hline as [Hk Hline]. cbn -[snprintf atoi] in Hk.
  destruct line as [|[te xe le] [|[tv xv lv] opts]].
  - (* the keyword is the last token of the line *)
    clear Hline.
    destruct Hrest as [->|([tx xx lx] & r & -> & Hx)];
      [|cbn in Hx; destruct tx; try discriminate];
      (destruct tk as [| | | | |c|k]; [..|destruct k]; try discriminate; run_turn;
       repeat first [case_decide | split_if]; tok_facts; turn_end).
  - (* the line ends after the second token *)
    clear Hline.
    destruct Hrest as [->|([tx xx lx] & r & -> & Hx)];
      [|cbn in Hx; destruct tx; try discriminate];
      (destruct tk as [| | | | |c|k]; [..|destruct k]; try discriminate; run_turn;
       repeat first [case_decide | split_if]; tok_facts; turn_end).
  - clear Hrest Hline.
    destruct tk as [| | | | |c|k]; [..|destruct k]; try discriminate; run_turn;
      repeat first [case_decide | split_if]; tok_facts; cbn [server_ports lx_tok lx_text];
      repeat case_bool_decide; tok_facts; cbn [andb] in *; zbool; try lia;
      cbn -[snprintf atoi]; turn_end.
Qed.

Lemma server_loop_ports (fuel : nat) (st : pstate) (line rest : list lexeme)
    (st' : pstate) (err' : string) :
  lex_rest (ps_lex st) = line ++ rest ->
  Forall (fun x => ends_line (lx_tok x) = false) line ->
  (rest = [] \/ exists x r, rest = x :: r /\ ends_line (lx_tok x) = true) ->
  server_loop MAX_LINE fuel st false "" = Some (st', err') ->
  ports_set (ps_out st') = ports_set (ps_out st) ++ server_ports line.
Proof.
  revert st line. induction fuel as [|fuel IH]; intros st line Hst Hline Hrest;
    [discriminate|].
  cbn [server_loop negb andb is_empty].
  pose proof (server_turn_ports st line rest Hst Hline Hrest) as Hturn.
  destruct (server_turn MAX_LINE st) as [[st1 done1] err1]. cbn [fst snd] in Hturn.
  destruct Hturn as [(k & e & v & opts & -> & -> & -> & Hst1 & Hports)
                    |(Hstop & Hout & Hnil)].
  - intros Hloop. rewrite <- Hports. apply (IH st1 opts); [exact Hst1| |exact Hrest|exact Hloop].
    do 3 apply Forall_cons in Hline as [_ Hline]. exact Hline.
  - rewrite server_loop_stop.
    + intros [= <- <-]. rewrite Hout, Hnil, app_nil_r. reflexivity.
    + destruct Hstop as [->|Hstop]; [reflexivity|]. rewrite Hstop. apply andb_false_r.
Qed.

Lemma parse_server_directive_ports (st st' : pstate) :
  parse_server_directive MAX_LINE st = Some st' ->
  ports_set (ps_out st')
  = ports_set (ps_out st) ++ server_ports (first_line (lex_rest (ps_lex st))).
Proof.
  unfold parse_server_directive.
  destruct (server_loop _ _ _ _ _) as [[st1 err1]|] eqn:Hloop; [|discriminate].
  destruct (first_line_split (lex_rest (ps_lex st))) as [Hline Hsplit].
  assert (Hports : ports_set (ps_out st1)
            = ports_set (ps_out st) ++ server_ports (first_line (lex_rest (ps_lex st)))).
  { destruct Hsplit as [Hall|(x & Hx & Hall)].
    - apply (server_loop_ports _ _ (first_line (lex_rest (ps_lex st))) [])
        in Hloop; auto.
      rewrite app_nil_r. exact Hall.
    - apply (server_loop_ports _ _ (first_line (lex_rest (ps_lex st)))
               (x :: rest_of_line (lex_rest (ps_lex st))))
        in Hloop; eauto. }
  destruct (negb (is_empty err1)).
  - intros Hrep. apply report_error_effect in Hrep as (_ & Ho & _).
    rewrite Ho, ports_set_app, Hports. cbn. rewrite app_nil_r. reflexivity.
  - intros [= <-]. exact Hports.
Qed.

Lemma skip_tokens_rest (fuel : nat) (tok : token) (l l' : Lex) :
  skip_tokens fuel tok l = Some l' ->
  ends_line tok = false ->
  lex_rest l' = rest_of_line (lex_rest l).
Proof.
  revert tok l. induction fuel as [|fuel IH]; intros tok l; simpl; case_decide as Hc;
    try discriminate.
  - intros [= <-] He. exfalso. apply Hc. destruct tok; try discriminate; split; discriminate.
  - intros Hskip _.
    destruct (lex_next_line l) as [[He Hr]|[He Hr]].
    + destruct fuel; simpl in Hskip; case_decide as Hc'.
      * discriminate.
      * injection Hskip as <-. exact Hr.
      * exfalso. destruct (fst (lex_next l)); try discriminate; destruct Hc'; congruence.
      * injection Hskip as <-. exact Hr.
    + rewrite (IH _ _ Hskip He). exact Hr.
  - intros [= <-] He. exfalso. apply Hc. destruct tok; try discriminate; split; discriminate.
Qed.

Lemma conf_loop_ports (fuel : nat) (st st' : pstate) :
  eof_at_end (lex_rest (ps_lex st)) ->
  conf_loop MAX_LINE DEFAULT_CONSOLE_BAUD fuel st = Some st' ->
  ports_set (ps_out st')
  = ports_set (ps_out st) ++ file_ports (lex_rest (ps_lex st)).
Proof.
  revert st. induction fuel as [|fuel IH]; intros st Heof; [discriminate|].
  cbn [conf_loop]. unfold lex_next.
  destruct st as [[rest prev text ln] conf out]. cbn [ps_lex lex_rest ps_out] in *.
  destruct rest as [|[tx xx lx] r].
  { intros [= <-]. cbn. rewrite app_nil_r. reflexivity. }
  apply Forall_cons in Heof as [Hx Heof]. cbn [lx_tok] in Hx.
  pose proof (eof_at_end_rest _ Heof) as Heof'.
  rewrite file_ports_line. cbn [first_line rest_of_line lx_tok lx_text lx_line].
  assert (Hskip : forall tok e,
            ends_line tok = false ->
            match skip_tokens (S (length r)) tok (mk_lex r tx xx lx) with
            | Some l => conf_loop MAX_LINE DEFAULT_CONSOLE_BAUD fuel
                          (set_lex l (add_out (ToStdout e)
                             (set_lex (mk_lex r tx xx lx)
                                (mk_pstate (mk_lex (mk_lexeme tx xx lx :: r) prev text ln)
                                           conf out))))
            | None => None
            end = Some st' ->
            ports_set (ps_out st') = ports_set out ++ file_ports (rest_of_line r)).
  { intros tok e He.
    destruct (skip_tokens _ _ _) as [l'|] eqn:Hsk; [|discriminate].
    apply skip_tokens_rest in Hsk; [|exact He]. cbn [lex_rest] in Hsk.
    intros H. apply IH in H; cbn [ps_lex ps_out set_lex add_out lex_rest] in *.
    - rewrite H, ports_set_app, Hsk. cbn. rewrite app_nil_r. reflexivity.
    - rewrite Hsk. exact Heof'. }
  destruct tx as [| | | | |c|k]; [..|destruct k]; try congruence;
    cbn [ends_line line_ports lx_tok set_lex add_out ps_lex ps_conf ps_out lex_rest
         lex_line lex_text app];
    try (apply Hskip; reflexivity).
  - (* an unmatched quote *)
    intros H. apply IH in H; [|exact Heof].
    cbn [ps_out ps_lex lex_rest add_out set_lex] in H.
    rewrite H, ports_set_app, (file_ports_line r). cbn.
    rewrite app_nil_r. reflexivity.
  - (* an empty line *)
    intros H. apply IH in H; [|exact Heof]. exact H.
  - (* CONSOLE *)
    destruct (parse_console_directive _ _ _) as [st1|] eqn:Hp; [|discriminate].
    pose proof (parse_console_directive_line MAX_LINE DEFAULT_CONSOLE_BAUD
                  MAX_LINE_room _ _ Hp) as Hrest.
    apply parse_console_directive_effect in Hp as (_ & _ & Hout).
    cbn [ps_lex ps_out lex_rest] in *.
    intros H. apply IH in H; [|rewrite Hrest; exact Heof'].
    rewrite H, Hrest. f_equal.
    destruct Hout as [[line ->]|(nm & dev & lg & bps & -> & _)];
      rewrite ports_set_app; cbn; apply app_nil_r.
  - (* SERVER *)
    destruct (parse_server_directive _ _) as [st1|] eqn:Hp; [|discriminate].
    pose proof (parse_server_directive_line MAX_LINE MAX_LINE_room _ _ Hp) as Hrest.
    apply parse_server_directive_ports in Hp.
    cbn [ps_lex ps_out lex_rest] in *.
    intros H. apply IH in H; [|rewrite Hrest; exact Heof'].
    rewrite H, Hrest, Hp, <- app_assoc. reflexivity.
Qed.

(** The ports [process_server_conf_file] gives to [conf->port] are those
    read off the lines of the file. *)
Lemma conf_file_ports (DEFAULT_CONMAN_PORT : Z) (cf : conf_file)
    (conf conf' : server_conf_t) (out : list conf_event) :
  process_server_conf_file MAX_LINE DEFAULT_CONMAN_PORT DEFAULT_CONSOLE_BAUD cf conf
  = Ok (conf', out) ->
  eof_at_end (cf_tokens cf) ->
  ports_set out = file_ports (cf_tokens cf).
Proof.
  unfold process_server_conf_file, err_msg. cbv zeta. cbn [fd set_fd].
  destruct (cf_open cf <? 0); [discriminate|].
  destruct (cf_write_lock_pid cf >? 0); [discriminate|].
  destruct (cf_read_lock cf <? 0); [discriminate|].
  destruct (cf_fstat cf <? 0); [discriminate|].
  destruct (cf_read_n cf <? 0); [discriminate|].
  unfold assert. destruct (cf_read_n cf =? cf_size cf); cbn [obind]; [|discriminate].
  destruct (conf_loop _ _ _ _) as [st'|] eqn:Hloop; [|discriminate].
  intros [= <- <-] Heof. apply conf_loop_ports in Hloop; [|exact Heof].
  exact Hloop.
Qed.

End FilePorts.

(** *** The command line *)

Lemma getopt_loop_returns (DEFAULT_SERVER_CONF : string) (DEFAULT_CONMAN_PORT : Z)
    (PACKAGE VERSION FEATURES prog : string) (opts : list getopt_ret)
    (conf : server_conf_t) (k : bool) (out out' : list cmd_event)
    (conf' : server_conf_t) (k' : bool) :
  getopt_loop DEFAULT_SERVER_CONF DEFAULT_CONMAN_PORT PACKAGE VERSION FEATURES
    prog opts conf k out = (out', inl (conf', k')) ->
  filename conf' = default (filename conf) (last (cmd_files opts)) /\
  port conf' = default (port conf) (last (cmd_ports opts)) /\
  k' = k || existsb (fun o => Ascii.eqb (opt_c o) "k") opts /\
  forallb opt_goes_on opts = true.
Proof.
  revert conf k out. induction opts as [|[c a oo] opts IH]; intros conf k out.
  { simpl. intros [= <- <- <-]. rewrite orb_false_r. auto. }
  cbn [getopt_loop opt_c opt_arg opt_opt].
  unfold cmd_files, cmd_ports, opt_goes_on in *.
  cbn [omap list_omap forallb existsb opt_c opt_arg].
  repeat match goal with
  | |- context [Ascii.eqb c ?x] =>
    destruct (Ascii.eqb_spec c x) as [->|?]; cbn [Ascii.eqb andb orb]
  end; try discriminate.
  all: try (intros H; apply IH in H as (Hf & Hp & Hk & Hall);
            cbn [filename port set_filename set_port set_enableVerbose
                 set_enableZeroLogs] in *;
            rewrite ?orb_true_r, ?orb_true_l; simpl;
            rewrite ?last_cons_default; auto; fail).
  destruct (atoi a <=? 0) eqn:Hn; zbool.
  - rewrite (proj2 (Z.ltb_ge 0 (atoi a))) by lia.
    intros H; apply IH in H as (Hf & Hp & Hk & Hall). auto.
  - rewrite (proj2 (Z.ltb_lt 0 (atoi a))) by lia.
    intros H; apply IH in H as (Hf & Hp & Hk & Hall).
    cbn [filename port set_port] in *. rewrite last_cons_default. auto.
Qed.

Lemma cmd_ports_positive (opts : list getopt_ret) :
  Forall (fun n => 0 < n) (cmd_ports opts).
Proof.
  unfold cmd_ports. induction opts as [|o opts IH]; simpl; [constructor|].
  destruct (Ascii.eqb (opt_c o) "p"); simpl; [|exact IH].
  destruct (0 <? atoi (opt_arg o)) eqn:Hp; [|exact IH].
  constructor; [zbool; lia|exact IH].
Qed.

Lemma conf_file_port (MAX_LINE : nat) (DEFAULT_CONMAN_PORT DEFAULT_CONSOLE_BAUD : Z)
    (cf : conf_file) (conf conf' : server_conf_t) (out : list conf_event) :
  process_server_conf_file MAX_LINE DEFAULT_CONMAN_PORT DEFAULT_CONSOLE_BAUD cf conf
  = Ok (conf', out) ->
  port conf' = (if 0 <? port conf then port conf
                else default DEFAULT_CONMAN_PORT (last (ports_set out))) /\
  conf_kept (set_fd (cf_open cf) conf) conf' /\ 0 <= cf_open cf.
Proof.
  unfold process_server_conf_file, err_msg. cbv zeta. cbn [fd set_fd].
  destruct (cf_open cf <? 0) eqn:H1; zbool; [discriminate|].
  destruct (cf_write_lock_pid cf >? 0); [discriminate|].
  destruct (cf_read_lock cf <? 0); [discriminate|].
  destruct (cf_fstat cf <? 0); [discriminate|].
  destruct (cf_read_n cf <? 0); [discriminate|].
  unfold assert. destruct (cf_read_n cf =? cf_size cf); cbn [obind]; [|discriminate].
  match goal with
  | |- context [conf_loop _ _ ?f ?st] =>
    destruct (conf_loop_total MAX_LINE DEFAULT_CONSOLE_BAUD (port conf) f st)
      as (st' & Hloop & Hinv); [unfold pending; simpl; lia|]
  end.
  rewrite Hloop. apply conf_loop_kept in Hloop. simpl in Hloop.
  destruct Hinv as [Hport Hall]; [split; [reflexivity|constructor]|].
  simpl in Hport.
  intros [= <- <-]. split; [|split; [|lia]].
  - rewrite Z.gtb_ltb. destruct (0 <? port conf) eqn:Hcmd; zbool; [reflexivity|].
    destruct (last (ports_set (ps_out st'))) as [n|] eqn:Hlast; simpl in *.
    + rewrite Forall_forall in Hall. apply last_Some_elem_of in Hlast.
      specialize (Hall _ Hlast). simpl in Hall.
      rewrite (proj2 (Z.leb_gt _ _)) by lia. exact Hport.
    + rewrite (proj2 (Z.leb_le _ _)) by lia. reflexivity.
  - destruct Hloop as (Hf & Hd & Hl & Hld & Hz & Hv).
    unfold conf_kept.
    destruct (port conf >? 0); [|destruct (port (ps_conf st') <=? 0)]; simpl; auto 10.
Qed.

Lemma getopt_loop_goes_on (DEFAULT_SERVER_CONF : string) (DEFAULT_CONMAN_PORT : Z)
    (PACKAGE VERSION FEATURES prog : string) (opts : list getopt_ret)
    (conf : server_conf_t) (k : bool) (out : list cmd_event) :
  forallb opt_goes_on opts = true ->
  exists warnings conf' k',
    getopt_loop DEFAULT_SERVER_CONF DEFAULT_CONMAN_PORT PACKAGE VERSION FEATURES
      prog opts conf k out = (out ++ warnings, inl (conf', k')) /\
    Forall is_warning warnings.
Proof.
  revert conf k out. induction opts as [|[c a oo] opts IH]; intros conf k out.
  { intros _. exists [], conf, k. rewrite app_nil_r. split; [reflexivity|constructor]. }
  cbn [forallb]. intros H. apply andb_prop in H as [Hc Hall].
  unfold opt_goes_on in Hc. cbn [existsb opt_c] in Hc.
  cbn [getopt_loop opt_c opt_arg opt_opt].
  destruct (Ascii.eqb_spec c "c") as [->|?]; cbn [Ascii.eqb];
    [apply IH; exact Hall|].
  destruct (Ascii.eqb_spec c "h") as [->|?]; [discriminate|].
  destruct (Ascii.eqb_spec c "k") as [->|?]; cbn [Ascii.eqb];
    [apply IH; exact Hall|].
  destruct (Ascii.eqb_spec c "p") as [->|?]; cbn [Ascii.eqb].
  { destruct (atoi a <=? 0); [|apply IH; exact Hall].
    match goal with
    | |- context [getopt_loop _ _ _ _ _ _ _ _ _ (out ++ [?e])] =>
      destruct (IH conf k (out ++ [e]) Hall) as (ws & conf' & k' & Hrun & Hws);
      exists (e :: ws), conf', k'
    end.
    rewrite Hrun, <- app_assoc. split; [reflexivity|].
    constructor; [eexists; reflexivity|exact Hws]. }
  destruct (Ascii.eqb_spec c "v") as [->|?]; cbn [Ascii.eqb];
    [apply IH; exact Hall|].
  destruct (Ascii.eqb_spec c "V") as [->|?]; [discriminate|].
  destruct (Ascii.eqb_spec c "z") as [->|?]; cbn [Ascii.eqb];
    [apply IH; exact Hall|].
  simpl in Hc. discriminate.
Qed.

Lemma kill_daemon_facts (dm : daemon) (conf : server_conf_t) :
  (forall c', snd (kill_daemon dm conf) <> Returns c') /\
  (forall path, In (CmdOpen path) (fst (kill_daemon dm conf)) <-> path = filename conf) /\
  (forall pid, In (CmdKill pid) (fst (kill_daemon dm conf)) <->
               0 <= kd_open dm /\ pid = kd_lock_pid dm /\ pid <> 0) /\
  (forall line, ~ In (CmdStderr line) (fst (kill_daemon dm conf))) /\
  (snd (kill_daemon dm conf) = Exits 0 <->
   0 <= kd_open dm /\ (kd_lock_pid dm = 0 \/ 0 <= kd_kill dm)).
Proof.
  unfold kill_daemon, destroy_server_conf. cbv zeta. cbn [fd set_fd filename enableVerbose ld].
  destruct (kd_open dm <? 0) eqn:Ho; zbool;
    [|destruct (kd_lock_pid dm =? 0) eqn:Hp; zbool;
      [|destruct (kd_kill dm <? 0) eqn:Hk; zbool]];
    cbn [fst snd];
    repeat match goal with
    | |- context [if ?b then _ else _] => destruct b
    end;
    simpl;
    (split; [intros c'; discriminate|]);
    (split; [intros path; split;
             [intros H; repeat destruct H as [H|H];
              first [contradiction|congruence]
             |intros ->; auto]|]);
    (split; [intros pid; split;
             [intros H; repeat destruct H as [H|H];
              first [contradiction|discriminate
                    |injection H as <-; repeat split; auto; lia]
             |intros (? & ? & ?); subst; first [lia|auto]]|]);
    (split; [intros line H; repeat destruct H as [H|H];
             first [contradiction|discriminate]|]);
    (split; [intros H; first [discriminate
                             |split; [lia|]; first [left; lia|right; lia]]
            |intros [? [?|?]]; first [lia|reflexivity]]).
Qed.

(** *** The port the file leaves *)

(** C7: once [process_server_conf_file] has returned, the port is the one
    [conf] came with when that was positive (the command line wins over any
    SERVER PORT directive); otherwise the positive value last given to it by
    the file, when there is one; otherwise [DEFAULT_CONMAN_PORT].  The
    values the file gives are those of its lines: with room for a message
    ([MAX_LINE] at least 2) they are the positive numbers of the options
    [PORT = n] of the lines that start with SERVER, each line read up to its
    first option in error.  The routine returns on every file it could open,
    lock and read, and exits only when one of these failed. *)
Theorem port_precedence (MAX_LINE : nat) (DEFAULT_CONMAN_PORT DEFAULT_CONSOLE_BAUD : Z)
    (cf : conf_file) (conf : server_conf_t) :
  match process_server_conf_file MAX_LINE DEFAULT_CONMAN_PORT DEFAULT_CONSOLE_BAUD
                                 cf conf with
  | Ok (conf', out) =>
    Forall (fun n => 0 < n) (ports_set out) /\
    (0 < port conf -> port conf' = port conf) /\
    (port conf <= 0 -> forall n, last (ports_set out) = Some n -> port conf' = n) /\
    (port conf <= 0 -> ports_set out = [] -> port conf' = DEFAULT_CONMAN_PORT) /\
    ((2 <= MAX_LINE)%nat -> eof_at_end (cf_tokens cf) ->
     ports_set out = file_ports (cf_tokens cf) /\
     port conf' = if 0 <? port conf then port conf
                  else default DEFAULT_CONMAN_PORT (last (file_ports (cf_tokens cf))))
  | Abort _ =>
    cf_open cf < 0 \/ 0 < cf_write_lock_pid cf \/ cf_read_lock cf < 0 \/
    cf_fstat cf < 0 \/ cf_read_n cf < 0 \/ cf_read_n cf <> cf_size cf
  | Fault | OutOfFuel => False
  end.
Proof.
  pose proof (conf_port_by_events MAX_LINE DEFAULT_CONMAN_PORT DEFAULT_CONSOLE_BAUD
                cf conf) as H.
  destruct (process_server_conf_file _ _ _ _ _) as [[conf' out]|msg| |] eqn:Hfile;
    try exact H.
  destruct H as (Hpos & Hcmd & Hlast & Hnone).
  repeat (split; [assumption|]).
  intros Hmax Heof.
  pose proof (conf_file_ports MAX_LINE DEFAULT_CONSOLE_BAUD Hmax _ _ _ _ _ Hfile Heof)
    as Hports.
  split; [exact Hports|].
  apply conf_file_port in Hfile as (Hport & _). rewrite <- Hports. exact Hport.
Qed.

Lemma port_precedence_witness :
  exists conf' out,
    process_server_conf_file 80 7890 9600 (readable config_echo) fresh_conf
    = Ok (conf', out) /\
    file_ports config_echo = [7777] /\ port conf' = 7777.
Proof.
  pose proof (port_precedence 80 7890 9600 (readable config_echo) fresh_conf) as H.
  destruct (process_server_conf_file 80 7890 9600 (readable config_echo) fresh_conf)
    as [[conf' out]|msg| |].
  - exists conf', out. split; [reflexivity|]. split; [reflexivity|].
    destruct H as (_ & _ & _ & _ & H).
    destruct H as [_ H]; [lia|repeat constructor; discriminate|exact H].
  - exfalso. cbn in H. lia.
  - contradiction.
  - contradiction.
Defined.

(** [atoi] gives an [int]: a number that does not fit comes out as another
    one, or as no port at all. *)
Example atoi_is_int :
  atoi "7777" = 7777 /\ atoi " -12x" = -12 /\ atoi "4294967297" = 1 /\
  atoi "4294967296" = 0 /\ atoi "2147483648" = -2147483648 /\
  atoi "99999999999999999999" = -1.
Proof. repeat split; vm_compute; reflexivity. Qed.

(** *** Directives, files and the command line *)



(** X13: what a SERVER directive does.  [parse_server_directive] returns
    having read up to the end of the line; it sets the port to positive
    values only, and the port afterwards is the last of them (the former
    port when there is none), also when an error follows on the line; it
    reports at most one error, on standard error and after the ports it
    accepted; and it leaves the file name, the descriptors, the log name
    and the options for zeroed logs and verbosity as they were. *)
Theorem server_directive_outcome (MAX_LINE : nat) (st : pstate) :
  exists st',
    parse_server_directive MAX_LINE st = Some st' /\
    conf_kept (ps_conf st) (ps_conf st') /\ at_eol (ps_lex st') /\
    exists ports tail,
      ps_out st' = ps_out st ++ map PortSet ports ++ tail /\
      Forall (fun n => 0 < n) ports /\
      port (ps_conf st') = default (port (ps_conf st)) (last ports) /\
      (tail = [] \/ exists line, tail = [ToStderr line]).
Proof.
  destruct (parse_server_directive_total MAX_LINE 0 st) as (st' & Hp & _).
  exists st'. split; [exact Hp|].
  apply (parse_server_directive_effect MAX_LINE). exact Hp.
Qed.

(** X14: what the command line chose survives the configuration file.
    When [process_server_conf_file] returns, the file name, the log name and
    its descriptor, and the options for zeroed logs and verbosity are those
    it was given, whatever the file says; the descriptor of the file is the
    one [open] gave, and it is not negative. *)
Theorem conf_file_keeps_options (MAX_LINE : nat)
    (DEFAULT_CONMAN_PORT DEFAULT_CONSOLE_BAUD : Z) (cf : conf_file)
    (conf conf' : server_conf_t) (out : list conf_event) :
  process_server_conf_file MAX_LINE DEFAULT_CONMAN_PORT DEFAULT_CONSOLE_BAUD cf conf
  = Ok (conf', out) ->
  filename conf' = filename conf /\ logname conf' = logname conf /\
  ld conf' = ld conf /\ enableZeroLogs conf' = enableZeroLogs conf /\
  enableVerbose conf' = enableVerbose conf /\
  fd conf' = cf_open cf /\ 0 <= fd conf'.
Proof.
  intros H. apply conf_file_port in H as (_ & (Hf & Hd & Hl & Hld & Hz & Hv) & Ho).
  simpl in *. rewrite Hd. auto 10.
Qed.

Lemma conf_file_keeps_options_witness :
  filename (set_port 7777 (set_fd 3 fresh_conf)) = filename fresh_conf /\
  logname (set_port 7777 (set_fd 3 fresh_conf)) = logname fresh_conf /\
  ld (set_port 7777 (set_fd 3 fresh_conf)) = ld fresh_conf /\
  enableZeroLogs (set_port 7777 (set_fd 3 fresh_conf)) = enableZeroLogs fresh_conf /\
  enableVerbose (set_port 7777 (set_fd 3 fresh_conf)) = enableVerbose fresh_conf /\
  fd (set_port 7777 (set_fd 3 fresh_conf)) = cf_open (readable config_echo) /\
  0 <= fd (set_port 7777 (set_fd 3 fresh_conf)).
Proof.
  apply (conf_file_keeps_options 80 7890 9600 (readable config_echo) fresh_conf _
           [NewConsole "c1" "/dev/ttyS0" "" 9600; PortSet 7777]).
  vm_compute. reflexivity.
Defined.

(** X15: the port the server starts with.  From [create_server_conf]
    through [process_server_cmd_line] and [process_server_conf_file], the
    port is the last positive [int] given with [-p]; failing that, the last
    positive [int] of an option [PORT = n] of a SERVER line of the file;
    failing that, [DEFAULT_CONMAN_PORT].  The configuration read is the last
    one named with [-c], or [DEFAULT_SERVER_CONF]. *)
Theorem startup_port (DEFAULT_SERVER_CONF : string)
    (DEFAULT_CONMAN_PORT DEFAULT_CONSOLE_BAUD : Z)
    (PACKAGE VERSION FEATURES : string) (MAX_LINE : nat)
    (prog : string) (opts : list getopt_ret) (dm : daemon) (cf : conf_file)
    (printed : list cmd_event) (conf1 conf2 : server_conf_t)
    (out : list conf_event) :
  (2 <= MAX_LINE)%nat -> eof_at_end (cf_tokens cf) ->
  process_server_cmd_line DEFAULT_SERVER_CONF DEFAULT_CONMAN_PORT
    PACKAGE VERSION FEATURES prog opts dm
    (create_server_conf DEFAULT_SERVER_CONF) = (printed, Returns conf1) ->
  process_server_conf_file MAX_LINE DEFAULT_CONMAN_PORT DEFAULT_CONSOLE_BAUD cf conf1
  = Ok (conf2, out) ->
  port conf2 = default (default DEFAULT_CONMAN_PORT (last (file_ports (cf_tokens cf))))
                       (last (cmd_ports opts)) /\
  filename conf2 = default DEFAULT_SERVER_CONF (last (cmd_files opts)).
Proof.
  intros Hmax Heof. unfold process_server_cmd_line.
  destruct (getopt_loop _ _ _ _ _ _ _ _ _ _) as [o1 [[c1 k1]|code]] eqn:Hloop;
    [|discriminate].
  apply getopt_loop_returns in Hloop as (Hf & Hp & _ & _).
  destruct k1.
  { destruct (kill_daemon dm c1) as [o2 []]; discriminate. }
  intros [= <- <-] Hfile.
  pose proof (conf_file_ports MAX_LINE DEFAULT_CONSOLE_BAUD Hmax _ _ _ _ _ Hfile Heof)
    as Hports.
  apply conf_file_port in Hfile as (Hport & (Hf2 & _) & _).
  simpl in Hf, Hp, Hf2. split; [|congruence].
  rewrite Hport, Hp, Hports.
  pose proof (cmd_ports_positive opts) as Hall.
  destruct (last (cmd_ports opts)) as [n|] eqn:Hlast; simpl.
  - rewrite Forall_forall in Hall. apply last_Some_elem_of in Hlast.
    specialize (Hall _ Hlast). simpl in Hall.
    rewrite (proj2 (Z.ltb_lt 0 n)) by lia. reflexivity.
  - reflexivity.
Qed.

Lemma startup_port_witness :
  port (set_port 1 (set_fd 3 (set_enableZeroLogs true fresh_conf)))
  = default (default 7890 (last (file_ports config_echo)))
            (last (cmd_ports opts_wide)) /\
  filename (set_port 1 (set_fd 3 (set_enableZeroLogs true fresh_conf)))
  = default "conman.conf"%string (last (cmd_files opts_wide)).
Proof.
  apply (startup_port "conman.conf" 7890 9600 "conman" "0.1" "" 80 "conmand"
           opts_wide daemon_4242 (readable config_echo)
           [CmdStderr ("WARNING: Ignoring invalid port " ++ dq ++ "0" ++ dq ++ "." ++ nl)]
           (set_port 1 (set_enableZeroLogs true fresh_conf)) _
           [NewConsole "c1" "/dev/ttyS0" "" 9600; PortSet 7777]).
  - lia.
  - repeat constructor; discriminate.
  - vm_compute. reflexivity.
  - vm_compute. reflexivity.
Defined.

(** X16: [-k] on the command line.  When every option is one of [-c], [-k],
    [-p], [-v], [-z] and [-k] is among them, [process_server_cmd_line] does
    not return.  It opens one file, the configuration last named with [-c]
    (its own when there is none), wherever [-k] stands on the line; it sends
    SIGTERM exactly when the file could be opened and the lock query answers
    a non-zero process, to that process; and the process exits with 0 unless
    the file could not be opened or the signal could not be sent. *)
Theorem kill_daemon_mode (DEFAULT_SERVER_CONF : string) (DEFAULT_CONMAN_PORT : Z)
    (PACKAGE VERSION FEATURES prog : string) (opts : list getopt_ret)
    (dm : daemon) (conf : server_conf_t) :
  forallb opt_goes_on opts = true ->
  existsb (fun o => Ascii.eqb (opt_c o) "k") opts = true ->
  exists out r,
    process_server_cmd_line DEFAULT_SERVER_CONF DEFAULT_CONMAN_PORT
      PACKAGE VERSION FEATURES prog opts dm conf = (out, r) /\
    (forall c', r <> Returns c') /\
    (forall path, In (CmdOpen path) out <->
                  path = default (filename conf) (last (cmd_files opts))) /\
    (forall pid, In (CmdKill pid) out <->
                 0 <= kd_open dm /\ pid = kd_lock_pid dm /\ pid <> 0) /\
    (r = Exits 0 <-> 0 <= kd_open dm /\ (kd_lock_pid dm = 0 \/ 0 <= kd_kill dm)).
Proof.
  intros Hall Hk.
  destruct (getopt_loop_goes_on DEFAULT_SERVER_CONF DEFAULT_CONMAN_PORT PACKAGE
              VERSION FEATURES prog opts conf false [] Hall)
    as (ws & conf' & k' & Hloop & Hws).
  pose proof (getopt_loop_returns _ _ _ _ _ _ _ _ _ _ _ _ _ Hloop)
    as (Hf & _ & Hk' & _).
  rewrite Hk in Hk'. simpl in Hk'. subst k'.
  unfold process_server_cmd_line. rewrite Hloop. simpl.
  destruct (kill_daemon_facts dm conf') as (Hret & Hopen & Hkill & Hnowarn & Hexit).
  destruct (kill_daemon dm conf') as [o2 r] eqn:Hkd. simpl in *.
  exists (ws ++ o2). eexists. split; [reflexivity|].
  assert (Hr : match r with Returns _ => Exits 0 | _ => r end = r).
  { destruct r; [exfalso; eapply Hret; reflexivity|reflexivity|reflexivity]. }
  rewrite Hr.
  assert (Hin : forall e, ~ is_warning e -> In e (ws ++ o2) <-> In e o2).
  { intros e He. rewrite in_app_iff. split; [|auto].
    intros [H|H]; [|exact H]. exfalso. apply He.
    rewrite Forall_forall in Hws. apply Hws. apply list_elem_of_In. exact H. }
  split; [exact Hret|]. split; [|split; [|exact Hexit]].
  - intros path. rewrite Hin by (intros [l Hl]; discriminate).
    rewrite Hopen, Hf. reflexivity.
  - intros pid. rewrite Hin by (intros [l Hl]; discriminate). apply Hkill.
Qed.

Lemma kill_daemon_mode_witness :
  exists out r,
    process_server_cmd_line "conman.conf" 7890 "conman" "0.1" "" "conmand"
      opts_kill daemon_4242 fresh_conf = (out, r) /\
    (forall c', r <> Returns c') /\
    (forall path, In (CmdOpen path) out <->
                  path = default (filename fresh_conf) (last (cmd_files opts_kill))) /\
    (forall pid, In (CmdKill pid) out <->
                 0 <= kd_open daemon_4242 /\ pid = kd_lock_pid daemon_4242 /\ pid <> 0) /\
    (r = Exits 0 <->
     0 <= kd_open daemon_4242 /\ (kd_lock_pid daemon_4242 = 0 \/ 0 <= kd_kill daemon_4242)).
Proof. apply kill_daemon_mode; reflexivity. Defined.

(** X19: a directive takes exactly one line.  With room for a message
    ([MAX_LINE] at least 2), [parse_console_directive] and
    [parse_server_directive] return with the lexer just past the end of the
    line they started in, whether the line was accepted or had an error: an
    error on a line never makes the parser skip, or miss, the next one. *)
Theorem directive_takes_one_line (MAX_LINE : nat) (DEFAULT_CONSOLE_BAUD : Z)
    (st : pstate) :
  (2 <= MAX_LINE)%nat ->
  (exists st',
     parse_console_directive MAX_LINE DEFAULT_CONSOLE_BAUD st = Some st' /\
     lex_rest (ps_lex st') = rest_of_line (lex_rest (ps_lex st))) /\
  (exists st',
     parse_server_directive MAX_LINE st = Some st' /\
     lex_rest (ps_lex st') = rest_of_line (lex_rest (ps_lex st))).
Proof.
  intros Hmax. split.
  - destruct (parse_console_directive_total MAX_LINE DEFAULT_CONSOLE_BAUD 0 st)
      as (st' & Hp & _).
    exists st'. split; [exact Hp|].
    eapply parse_console_directive_line; eassumption.
  - destruct (parse_server_directive_total MAX_LINE 0 st) as (st' & Hp & _).
    exists st'. split; [exact Hp|].
    eapply parse_server_directive_line; eassumption.
Qed.

Lemma directive_takes_one_line_witness :
  (exists st',
     parse_console_directive 80 9600 after_console_keyword = Some st' /\
     lex_rest (ps_lex st') = rest_of_line (lex_rest (ps_lex after_console_keyword))) /\
  (exists st',
     parse_server_directive 80 after_console_keyword = Some st' /\
     lex_rest (ps_lex st') = rest_of_line (lex_rest (ps_lex after_console_keyword))).
Proof. apply directive_takes_one_line. lia. Defined.

End ServerConfFacts.
